(** * A shallow embedding of the Z80 destination-driven code generator

    Source: [compiler/ddcg-test/z80/compile.py], class [Compiler].

    The generator walks an S-expression tree and appends text lines to
    [assembly_listing], consulting and growing [globals] and [next_label].
    It is embedded as a state-and-exception monad over a record holding
    these three fields.  A Python exception aborts the whole run (nothing
    catches it), so an outcome is either a value with the new state, or the
    exception that was raised.

    Python values are represented as the code has them:
    - an AST node is a [str] token, the [nil] singleton, or a [Pair] with
      attributes [car] and [cdr]; [==] and [in] compare nodes structurally;
      reading [car] or [cdr] of anything but a [Pair] raises
      [AttributeError], subscripting anything but a token raises
      [TypeError];
    - a data destination is one of the seven [DD_*] constants;
    - a control destination is an [int] or a 2-tuple of control destinations;
    - label ids and literals are unbounded integers ([Z]);
    - [str] is [string], one character per code point below 256, and
      characters are compared by code point.

    The methods are run as [main] runs them, after [assembly_listing] has
    been set to a list. *)

From Stdlib Require Import String Ascii List ZArith Lia Bool.
From Stdlib Require Import DecimalString.
From Stdlib Require DecimalFacts DecimalPos DecimalZ.
Import ListNotations.
Open Scope string_scope.
Open Scope Z_scope.

(** ** Data model *)

(** What [s_expression_parser.parse] yields: tokens are Python strings. *)
Inductive sexp : Type :=
| Atom (s : string)
| Nil
| Pair (car cdr : sexp).

(** [DD_A = 0 ... DD_B = 6]. *)
Inductive ddest : Type :=
| DD_A | DD_BC | DD_DE | DD_HL | DD_TMP | DD_ZFLAG | DD_B.

Definition dd_code (dd : ddest) : Z :=
  match dd with
  | DD_A => 0 | DD_BC => 1 | DD_DE => 2 | DD_HL => 3
  | DD_TMP => 4 | DD_ZFLAG => 5 | DD_B => 6
  end.

(** A control destination: an integer, or the tuple [(true_branch,
    false_branch)] that [cg_if] builds. *)
Inductive cdest : Type :=
| CD (n : Z)
| CD_BRANCH (true_branch false_branch : cdest).

Definition CD_RET : cdest := CD 0.
Definition CD_NEXT : cdest := CD 1.
Definition CD_LABEL : Z := 100.

(** The exceptions the generator can end with.  [ValueError] carries the
    message the generator formats; [InvalidLiteral] is the [ValueError] that
    the builtin [int(text, base)] raises. *)
Inductive exn : Type :=
| ValueError (msg : string)
| InvalidLiteral (base : Z) (text : string)
| TypeError
| AttributeError
| IndexError
| KeyError.

(** Outcome of a pure, fallible computation. *)
Inductive res (A : Type) : Type :=
| Ok (a : A)
| Raise (e : exn).
Arguments Ok {A} a.
Arguments Raise {A} e.

Definition res_bind {A B} (r : res A) (f : A -> res B) : res B :=
  match r with
  | Ok a => f a
  | Raise e => Raise e
  end.

(** ** Equality tests *)

Fixpoint sexp_eqb (a b : sexp) : bool :=
  match a, b with
  | Atom s, Atom t => String.eqb s t
  | Nil, Nil => true
  | Pair a1 a2, Pair b1 b2 => sexp_eqb a1 b1 && sexp_eqb a2 b2
  | _, _ => false
  end.

Definition dd_eqb (a b : ddest) : bool := Z.eqb (dd_code a) (dd_code b).

Fixpoint cd_eqb (a b : cdest) : bool :=
  match a, b with
  | CD n, CD m => Z.eqb n m
  | CD_BRANCH a1 a2, CD_BRANCH b1 b2 => cd_eqb a1 b1 && cd_eqb a2 b2
  | _, _ => false
  end.

(** [x in lst] on a Python list. *)
Fixpoint py_in (x : sexp) (lst : list sexp) : bool :=
  match lst with
  | [] => false
  | y :: rest => sexp_eqb x y || py_in x rest
  end.

(** [obj == 'text']: only a token can equal a string. *)
Definition is_str (obj : sexp) (text : string) : bool :=
  match obj with
  | Atom s => String.eqb s text
  | _ => false
  end.

Definition is_pair (node : sexp) : bool :=
  match node with
  | Pair _ _ => true
  | _ => false
  end.

(** ** Python strings and integers *)

Definition ord (c : ascii) : Z := Z.of_nat (nat_of_ascii c).

(** ['lo' <= c <= 'hi']. *)
Definition char_between (lo c hi : ascii) : bool :=
  (ord lo <=? ord c) && (ord c <=? ord hi).

(** [str(n)] for an integer. *)
Definition str_of_int (n : Z) : string := NilZero.string_of_int (Z.to_int n).

Fixpoint spaces (n : nat) : string :=
  match n with
  | O => ""
  | S k => String " " (spaces k)
  end.

(** ["{:6}".format(text)]: left-justified in at least six columns. *)
Definition ljust6 (text : string) : string :=
  text ++ spaces (6 - String.length text).

(** [text[i]]. *)
Definition str_index (text : string) (i : nat) : res ascii :=
  match String.get i text with
  | Some c => Ok c
  | None => Raise IndexError
  end.

(** [text[i:]]. *)
Fixpoint str_from (i : nat) (text : string) : string :=
  match i, text with
  | O, _ => text
  | S k, String _ rest => str_from k rest
  | S _, EmptyString => ""
  end.

Definition char_str (c : ascii) : string := String c "".

(** *** The builtin [int(text, base)]

    For bases 2, 8, 10 and 16: surrounding whitespace is skipped (tab to
    carriage return, space, and the two spaces above code point 127), one
    sign is accepted, then the base prefix ([0x], [0o], [0b]) when it
    matches the base, optionally followed by one underscore; then at least
    one digit, where single underscores may separate digits.  (The
    interpreter's limit on the number of decimal digits is not modelled.) *)

Definition is_space (c : ascii) : bool :=
  let n := ord c in
  ((9 <=? n) && (n <=? 13)) || (n =? 32) || (n =? 133) || (n =? 160).

Definition digit_value (c : ascii) : option Z :=
  let n := ord c in
  if (48 <=? n) && (n <=? 57) then Some (n - 48)
  else if (97 <=? n) && (n <=? 122) then Some (n - 87)
  else if (65 <=? n) && (n <=? 90) then Some (n - 55)
  else None.

Fixpoint skip_spaces (text : string) : string :=
  match text with
  | String c rest => if is_space c then skip_spaces rest else text
  | EmptyString => ""
  end.

Definition underscore : ascii := "_"%char.

(** Scans digits and underscores.  [prev_us] tells whether the previous
    character was an underscore, [seen] whether a digit was read.  Returns
    the value and the unread rest, or [None] on a doubled or trailing
    underscore or when no digit was read. *)
Fixpoint scan_digits (base : Z) (text : string) (acc : Z)
         (prev_us seen : bool) : option (Z * string) :=
  match text with
  | String c rest =>
      if Ascii.eqb c underscore then
        if prev_us then None else scan_digits base rest acc true seen
      else
        match digit_value c with
        | Some d =>
            if d <? base
            then scan_digits base rest (acc * base + d) false true
            else if prev_us || negb seen then None else Some (acc, text)
        | None => if prev_us || negb seen then None else Some (acc, text)
        end
  | EmptyString => if prev_us || negb seen then None else Some (acc, "")
  end.

Definition take_sign (text : string) : Z * string :=
  match text with
  | String c rest =>
      if Ascii.eqb c "+"%char then (1, rest)
      else if Ascii.eqb c "-"%char then (-1, rest)
      else (1, text)
  | EmptyString => (1, "")
  end.

Definition prefix_letter (base : Z) (c : ascii) : bool :=
  ((base =? 16) && (Ascii.eqb c "x"%char || Ascii.eqb c "X"%char))
  || ((base =? 8) && (Ascii.eqb c "o"%char || Ascii.eqb c "O"%char))
  || ((base =? 2) && (Ascii.eqb c "b"%char || Ascii.eqb c "B"%char)).

Definition skip_prefix (base : Z) (text : string) : string :=
  match text with
  | String c0 (String c1 rest) =>
      if Ascii.eqb c0 "0"%char && prefix_letter base c1 then
        match rest with
        | String c2 rest' => if Ascii.eqb c2 underscore then rest' else rest
        | EmptyString => rest
        end
      else text
  | _ => text
  end.

Definition py_int (text : string) (base : Z) : res Z :=
  let '(sign, body) := take_sign (skip_spaces text) in
  let digits := skip_prefix base body in
  match digits with
  | String c _ =>
      if Ascii.eqb c underscore then Raise (InvalidLiteral base text)
      else
        match scan_digits base digits 0 false false with
        | Some (v, rest) =>
            match skip_spaces rest with
            | EmptyString => Ok (sign * v)
            | _ => Raise (InvalidLiteral base text)
            end
        | None => Raise (InvalidLiteral base text)
        end
  | EmptyString => Raise (InvalidLiteral base text)
  end.

(** ** Token classification *)

(** [starts_with_decimal_digit(t)].  Subscripting a token reads its first
    character ([IndexError] on the empty one); [nil] and [Pair] objects are
    not subscriptable. *)
Definition starts_with_decimal_digit (t : sexp) : res bool :=
  match t with
  | Atom s =>
      res_bind (str_index s 0) (fun c => Ok (char_between "0" c "9"))
  | _ => Raise TypeError
  end.

Definition char_in (c : ascii) (a b : ascii) : bool :=
  Ascii.eqb c a || Ascii.eqb c b.

(** [to_number(t)]: the result is [None] when control falls off the end of
    the function, which happens for a non-empty token that starts with
    neither ['0'] nor ['1'..'9']. *)
Definition to_number (t : string) : res (option Z) :=
  if (1 <=? String.length t)%nat then
    res_bind (str_index t 0) (fun c0 =>
      if Ascii.eqb c0 "0"%char then
        let octal := res_bind (py_int t 8) (fun n => Ok (Some n)) in
        if (3 <=? String.length t)%nat then
          res_bind (str_index t 1) (fun c1 =>
            if char_in c1 "x" "X" then
              res_bind (py_int (str_from 2 t) 16) (fun n => Ok (Some n))
            else if char_in c1 "o" "O" then
              res_bind (py_int (str_from 2 t) 8) (fun n => Ok (Some n))
            else if char_in c1 "b" "B" then
              res_bind (py_int (str_from 2 t) 2) (fun n => Ok (Some n))
            else octal)
        else octal
      else if char_between "1" c0 "9" then
        res_bind (py_int t 10) (fun n => Ok (Some n))
      else Ok None)
  else Raise (ValueError "to_number called with empty token").

(** ** Compiler state and the generator monad *)

(** The fields of a [Compiler] once [main] has set [assembly_listing] to
    the empty list. *)
Record compiler : Type := mkCompiler {
  assembly_listing : list string;
  globals : list sexp;
  next_label : Z
}.

(** [Compiler()] followed by [self.assembly_listing = []]. *)
Definition init_compiler : compiler :=
  {| assembly_listing := []; globals := []; next_label := CD_LABEL - 1 |}.

Definition M (A : Type) : Type := compiler -> res (A * compiler).

Definition ret {A} (a : A) : M A := fun s => Ok (a, s).

Definition bind {A B} (m : M A) (f : A -> M B) : M B :=
  fun s =>
    match m s with
    | Ok (a, s') => f a s'
    | Raise e => Raise e
    end.

Definition raise {A} (e : exn) : M A := fun _ => Raise e.

Definition lift {A} (r : res A) : M A :=
  fun s =>
    match r with
    | Ok a => Ok (a, s)
    | Raise e => Raise e
    end.

Declare Scope gen_scope.
Delimit Scope gen_scope with gen.
Notation "x <- m ;; k" := (bind m (fun x => k))
  (at level 61, m at next level, right associativity) : gen_scope.
Notation "m ;; k" := (bind m (fun _ => k))
  (at level 61, right associativity) : gen_scope.
Open Scope gen_scope.

(** [self.assembly_listing.append(line)]. *)
Definition append_line (line : string) : M unit :=
  fun s =>
    Ok (tt, {| assembly_listing := assembly_listing s ++ [line];
               globals := globals s;
               next_label := next_label s |}).

(** [self.globals.append(name)]. *)
Definition append_global (name : sexp) : M unit :=
  fun s =>
    Ok (tt, {| assembly_listing := assembly_listing s;
               globals := globals s ++ [name];
               next_label := next_label s |}).

Definition get_globals : M (list sexp) := fun s => Ok (globals s, s).

(** [make_label]: bump the counter and return it. *)
Definition make_label : M Z :=
  fun s =>
    let n := next_label s + 1 in
    Ok (n, {| assembly_listing := assembly_listing s;
              globals := globals s;
              next_label := n |}).

(** [node.car] and [node.cdr], in continuation style: only a [Pair] has
    these attributes. *)
Definition with_car {A} (node : sexp) (k : sexp -> M A) : M A :=
  match node with
  | Pair a _ => k a
  | _ => raise AttributeError
  end.

Definition with_cdr {A} (node : sexp) (k : sexp -> M A) : M A :=
  match node with
  | Pair _ d => k d
  | _ => raise AttributeError
  end.

(** [node.cdr.car], [node.cdr.cdr.car], ...: each attribute is read in turn. *)
Definition cdr_car {A} (node : sexp) (k : sexp -> M A) : M A :=
  with_cdr node (fun d => with_car d k).

Definition cdr_cdr {A} (node : sexp) (k : sexp -> M A) : M A :=
  with_cdr node (fun d => with_cdr d k).

Definition cdr_cdr_car {A} (node : sexp) (k : sexp -> M A) : M A :=
  cdr_cdr node (fun d => with_car d k).

Definition cdr_cdr_cdr {A} (node : sexp) (k : sexp -> M A) : M A :=
  cdr_cdr node (fun d => with_cdr d k).

Definition cdr_cdr_cdr_car {A} (node : sexp) (k : sexp -> M A) : M A :=
  cdr_cdr_cdr node (fun d => with_car d k).

Notation "x <~ acc n ;; k" := (acc n (fun x => k))
  (at level 61, acc at level 0, n at level 0, right associativity)
  : gen_scope.

Fixpoint repeat_gen (n : nat) (body : M unit) : M unit :=
  match n with
  | O => ret tt
  | S k => body ;; repeat_gen k body
  end.

(** A value that is formatted into a line: an integer or an AST object.
    Where the code may also hold [None], the type is [option pyval]. *)
Inductive pyval : Type :=
| PInt (n : Z)
| PObj (o : sexp).

Fixpoint cd_str (cd : cdest) : string :=
  match cd with
  | CD n => str_of_int n
  | CD_BRANCH t f => "(" ++ cd_str t ++ ", " ++ cd_str f ++ ")"
  end.

(** [to_reg]: a dictionary with five keys. *)
Definition to_reg (dd : ddest) : res string :=
  match dd with
  | DD_A => Ok "A"
  | DD_B => Ok "B"
  | DD_BC => Ok "BC"
  | DD_DE => Ok "DE"
  | DD_HL => Ok "HL"
  | _ => Raise KeyError
  end.

(** [to_reg(dd)[i]] as a one-character string. *)
Definition reg_half (dd : ddest) (i : nat) : M string :=
  lift (res_bind (to_reg dd) (fun r =>
        res_bind (str_index r i) (fun c => Ok (char_str c)))).

(** [dd in [DD_A, DD_B, DD_BC, DD_DE, DD_HL]]. *)
Definition is_register (dd : ddest) : bool :=
  dd_eqb dd DD_A || dd_eqb dd DD_B || dd_eqb dd DD_BC
  || dd_eqb dd DD_DE || dd_eqb dd DD_HL.

(** [str(obj)] of a [nil] or [Pair] object is fixed by the parser library,
    which is not part of this repository: the generator is parameterised
    by it. *)
Class ObjRepr : Type := obj_repr : sexp -> string.

Section Generator.

Context {repr : ObjRepr}.

Definition py_str (obj : sexp) : string :=
  match obj with
  | Atom s => s
  | _ => obj_repr obj
  end.

(** ["{}".format(v)]. *)
Definition fmt (v : option pyval) : string :=
  match v with
  | Some (PInt n) => str_of_int n
  | Some (PObj o) => py_str o
  | None => "None"
  end.

(** ** Emitter *)

Definition cg_emit_label (l : option pyval) : M unit :=
  match l with
  | None => ret tt
  | Some (PInt n) => append_line (("L" ++ str_of_int n) ++ ":")
  | Some (PObj o) => append_line (py_str o ++ ":")
  end.

Definition asm (label : option pyval) (mnem : string) (oper : option string)
  : M unit :=
  cg_emit_label label ;;
  append_line ("    " ++ ljust6 mnem ++ " " ++
               match oper with Some o => o | None => "" end).

Definition cg_push_hl : M unit := asm None "PUSH" (Some "HL").
Definition cg_push_de : M unit := asm None "PUSH" (Some "DE").
Definition cg_pop_de : M unit := asm None "POP" (Some "DE").

(** ** Destination realizers *)

(** The integer cases of [cg_goto]. *)
Definition cg_goto_int (cd : Z) : M unit :=
  if cd =? 1 then ret tt
  else if cd =? 0 then asm None "RET" None
  else if CD_LABEL <=? cd then asm None "JP" (Some ("L" ++ str_of_int cd))
  else raise (ValueError ("Unknown control destination: " ++ str_of_int cd)).

Fixpoint cg_goto (cd : cdest) : M unit :=
  match cd with
  | CD_BRANCH true_branch false_branch =>
      if cd_eqb true_branch CD_NEXT then
        if cd_eqb false_branch CD_NEXT then ret tt
        else if cd_eqb false_branch CD_RET then asm None "RET" (Some "Z")
        else asm None "JP" (Some ("Z,L" ++ cd_str false_branch))
      else if cd_eqb true_branch CD_RET then
        if cd_eqb false_branch CD_NEXT then asm None "RET" (Some "NZ")
        else if cd_eqb false_branch CD_RET then cg_goto_int 0
        else asm None "RET" (Some "NZ") ;; cg_goto false_branch
      else ret tt
  | CD n => cg_goto_int n
  end.

Definition cg_op_pair (op1 op2 : string) (dd ds : ddest) : M unit :=
  src <- lift (to_reg ds) ;;
  dst <- lift (to_reg dd) ;;
  d1 <- lift (str_index dst 1) ;;
  s1 <- lift (str_index src 1) ;;
  asm None op1 (Some (char_str d1 ++ "," ++ char_str s1)) ;;
  d0 <- lift (str_index dst 0) ;;
  s0 <- lift (str_index src 0) ;;
  asm None op2 (Some (char_str d0 ++ "," ++ char_str s0)).

Definition cg_ld16 (dd : ddest) (n : option pyval) : M unit :=
  r <- lift (to_reg dd) ;;
  asm None "LD" (Some (r ++ "," ++ fmt n)).

Definition cg_ld16_r16 (dd ds : ddest) : M unit :=
  if dd_eqb ds dd then ret tt
  else if negb (dd_eqb dd DD_A) then cg_op_pair "LD" "LD" dd ds
  else
    lo <- reg_half ds 1 ;;
    asm None "LD" (Some ("A," ++ lo)).

Definition cg_ld8_r8 (rd rs : string) : M unit :=
  asm None "LD" (Some (rd ++ "," ++ rs)).

(** [cg_ld16_gv]: the [DD_B] case calls itself once with [DD_A]. *)
Definition cg_ld16_gv_reg (dd : ddest) (t : sexp) : M unit :=
  r <- lift (to_reg dd) ;;
  asm None "LD" (Some (r ++ ",(" ++ py_str t ++ ")")).

Definition cg_ld16_gv (dd : ddest) (t : sexp) : M unit :=
  if dd_eqb dd DD_B then
    cg_ld16_gv_reg DD_A t ;;
    asm None "LD" (Some "B,A")
  else cg_ld16_gv_reg dd t.

(** ** Operator emitters *)

Definition cg_op16 (dd ds1 ds2 : ddest) (cd : cdest) (op1 op2 : string)
  : M unit :=
  a1 <- reg_half ds1 1 ;;
  asm None "LD" (Some ("A," ++ a1)) ;;
  b1 <- reg_half ds2 1 ;;
  asm None op1 (Some ("A," ++ b1)) ;;
  (if negb (dd_eqb dd DD_A) then
     d1 <- reg_half dd 1 ;;
     asm None "LD" (Some (d1 ++ ",A")) ;;
     a0 <- reg_half ds1 0 ;;
     asm None "LD" (Some ("A," ++ a0)) ;;
     b0 <- reg_half ds2 0 ;;
     asm None op2 (Some ("A," ++ b0)) ;;
     d0 <- reg_half dd 0 ;;
     asm None "LD" (Some (d0 ++ ",A"))
   else ret tt) ;;
  cg_goto cd.

Definition cg_add (dd ds1 ds2 : ddest) (cd : cdest) : M unit :=
  let do_add (d a b : ddest) : M unit :=
    if dd_eqb d DD_HL && dd_eqb a DD_HL then
      r <- lift (to_reg b) ;;
      asm None "ADD" (Some ("HL," ++ r))
    else cg_op16 dd ds1 ds2 cd "ADD" "ADC" in
  (if dd_eqb dd DD_HL && dd_eqb ds2 DD_HL
   then do_add dd ds2 ds1
   else do_add dd ds1 ds2) ;;
  cg_goto cd.

Definition cg_bit_and (dd ds1 ds2 : ddest) (cd : cdest) : M unit :=
  cg_op16 dd ds1 ds2 cd "AND" "AND".

Definition cg_bit_or (dd ds1 ds2 : ddest) (cd : cdest) : M unit :=
  cg_op16 dd ds1 ds2 cd "OR" "OR".

Definition cg_bit_xor (dd ds1 ds2 : ddest) (cd : cdest) : M unit :=
  cg_op16 dd ds1 ds2 cd "XOR" "XOR".

Definition cg_subtract (dd ds1 ds2 : ddest) (cd : cdest) : M unit :=
  cg_op16 dd ds1 ds2 cd "SUB" "SBC".

Definition cg_call_libfn (fn_name : string) (cd : cdest) : M unit :=
  if negb (cd_eqb cd CD_RET) then
    asm None "CALL" (Some fn_name) ;;
    cg_goto cd
  else asm None "JP" (Some fn_name).

Definition cg_divide (dd ds1 ds2 : ddest) (cd : cdest) : M unit :=
  r1 <- lift (to_reg ds1) ;;
  r2 <- lift (to_reg ds2) ;;
  cg_call_libfn ("divide_" ++ r1 ++ "_" ++ r2) cd ;;
  cg_ld16_r16 dd DD_HL.

Definition cg_multiply (dd ds1 ds2 : ddest) (cd : cdest) : M unit :=
  r1 <- lift (to_reg ds1) ;;
  r2 <- lift (to_reg ds2) ;;
  cg_call_libfn ("multiply_" ++ r1 ++ "_" ++ r2) cd ;;
  cg_ld16_r16 dd DD_HL.

End Generator.

(** ** Form generators

    Every generator below calls back into [cg_form] on parts of its node;
    the callback is a parameter here and is tied to [cg_form] itself where
    that function is defined. *)

Section Forms.

Context {repr : ObjRepr}.
Variable self_cg_form : sexp -> ddest -> cdest -> M unit.

(** The type of [cg_add], [cg_subtract], ... *)
Definition emitter : Type := ddest -> ddest -> ddest -> cdest -> M unit.

Definition cg_binop (op : emitter) (node : sexp) (dd : ddest) (cd : cdest)
  : M unit :=
  a <~ cdr_car node ;;
  (if is_pair a then
     b <~ cdr_cdr_car node ;;
     self_cg_form b DD_HL CD_NEXT ;;
     cg_push_hl ;;
     a' <~ cdr_car node ;;
     self_cg_form a' DD_HL CD_NEXT ;;
     cg_pop_de
   else
     b <~ cdr_cdr_car node ;;
     self_cg_form b DD_DE CD_NEXT ;;
     a' <~ cdr_car node ;;
     self_cg_form a' DD_HL CD_NEXT) ;;
  op dd DD_HL DD_DE cd.

(** [len(t)] and [t[0]] need a string. *)
Definition to_number_obj (t : sexp) : res (option Z) :=
  match t with
  | Atom s => to_number s
  | _ => Raise TypeError
  end.

(** The local function [do_variable_shift] of [cg_shift_right_logical]. *)
Definition do_variable_shift (cnt : sexp) (n_cnt : option Z) : M unit :=
  loopback <- make_label ;;
  self_cg_form cnt DD_B CD_NEXT ;;
  skipahead <-
    match n_cnt with
    | None =>
        skipahead <- make_label ;;
        asm None "LD" (Some "A,B") ;;
        asm None "OR" (Some "A,A") ;;
        asm None "JZ" (Some ("L" ++ str_of_int skipahead)) ;;
        ret (Some (PInt skipahead))
    | Some _ => ret None
    end ;;
  asm (Some (PInt loopback)) "SRL" (Some "H") ;;
  asm None "RL" (Some "L") ;;
  asm None "DJNZ" (Some ("L" ++ str_of_int loopback)) ;;
  match n_cnt with
  | None => cg_emit_label skipahead
  | Some _ => ret tt
  end.

Definition cg_shift_right_logical (node : sexp) (dd : ddest) (cd : cdest)
  : M unit :=
  e <~ cdr_car node ;;
  cnt <~ cdr_cdr_car node ;;
  is_lit <- lift (starts_with_decimal_digit cnt) ;;
  n_cnt <- (if is_lit then lift (to_number_obj cnt) else ret None) ;;
  self_cg_form e DD_HL CD_NEXT ;;
  match n_cnt with
  | None => do_variable_shift cnt n_cnt
  | Some n =>
      if 4 <? n then do_variable_shift cnt n_cnt
      else
        repeat_gen (Z.to_nat n)
          (asm None "SRL" (Some "H") ;;
           asm None "RL" (Some "L"))
  end ;;
  cg_goto cd.

Definition cg_shift_left (node : sexp) (dd : ddest) (cd : cdest) : M unit :=
  cg_goto cd.

Definition cg_highbyte (node : sexp) (dd : ddest) (cd : cdest) : M unit :=
  e <~ cdr_car node ;;
  self_cg_form e DD_HL CD_NEXT ;;
  asm None "LD" (Some "L,H") ;;
  asm None "LD" (Some "H,0") ;;
  cg_goto cd.

Definition cg_lowbyte (node : sexp) (dd : ddest) (cd : cdest) : M unit :=
  e <~ cdr_car node ;;
  self_cg_form e DD_HL CD_NEXT ;;
  asm None "LD" (Some "H,0") ;;
  cg_goto cd.

(** One activation of [cg_input]; [self_cg_input] is the method it calls
    on itself. *)
Definition cg_input_body (self_cg_input : sexp -> ddest -> cdest -> M unit)
           (node : sexp) (dd : ddest) (cd : cdest) : M unit :=
  sz <~ cdr_car node ;;
  addr <~ cdr_cdr_car node ;;
  (if is_str sz "byte" then
     dst <- lift (to_reg dd) ;;
     self_cg_form addr DD_BC CD_NEXT ;;
     if dd_eqb dd DD_A then asm None "IN" (Some "A,(C)")
     else
       asm None "IN" (Some "A,(C)") ;;
       d1 <- lift (str_index dst 1) ;;
       asm None "LD" (Some (char_str d1 ++ ",A")) ;;
       d0 <- lift (str_index dst 0) ;;
       asm None "LD" (Some (char_str d0 ++ ",0"))
   else if is_str sz "word" then
     dst <- lift (to_reg dd) ;;
     (if dd_eqb dd DD_BC then
        self_cg_input node DD_HL CD_NEXT ;;
        asm None "LD" (Some "B,H") ;;
        asm None "LD" (Some "C,L") ;;
        cg_goto cd
      else self_cg_form addr DD_BC CD_NEXT) ;;
     if dd_eqb dd DD_A then asm None "IN" (Some "A,(C)")
     else
       asm None "IN" (Some "A,(C)") ;;
       d1 <- lift (str_index dst 1) ;;
       asm None "LD" (Some (char_str d1 ++ ",A")) ;;
       asm None "INC" (Some "BC") ;;
       asm None "IN" (Some "A,(C)") ;;
       d0 <- lift (str_index dst 0) ;;
       asm None "LD" (Some (char_str d0 ++ ",A"))
   else raise (ValueError ("Unsupported poke size: " ++ py_str sz))) ;;
  cg_goto cd.

(** [cg_input] re-enters itself only from [dd = DD_BC], with [DD_HL];
    that activation does not re-enter, so two unfoldings are the whole
    recursion (see [cg_input_unfold]). *)
Definition cg_input : sexp -> ddest -> cdest -> M unit :=
  cg_input_body (cg_input_body (fun _ _ _ => ret tt)).

Definition cg_output (node : sexp) (dd : ddest) (cd : cdest) : M unit :=
  sz <~ cdr_car node ;;
  addr <~ cdr_cdr_car node ;;
  datum <~ cdr_cdr_cdr_car node ;;
  if is_str sz "byte" then
    self_cg_form addr DD_BC CD_NEXT ;;
    self_cg_form datum DD_A CD_NEXT ;;
    asm None "OUT" (Some "(C),A") ;;
    cg_goto cd
  else if is_str sz "word" then
    (if negb (is_pair addr) then
       self_cg_form datum DD_DE CD_NEXT ;;
       self_cg_form addr DD_BC CD_NEXT
     else
       self_cg_form datum DD_HL CD_NEXT ;;
       cg_push_hl ;;
       self_cg_form addr DD_BC CD_NEXT ;;
       cg_pop_de) ;;
    asm None "LD" (Some "A,E") ;;
    asm None "OUT" (Some "(C),A") ;;
    asm None "INC" (Some "BC") ;;
    asm None "LD" (Some "A,D") ;;
    asm None "OUT" (Some "(C),A") ;;
    cg_goto cd
  else raise (ValueError ("Unsupported poke size: " ++ py_str sz)).

Definition cg_peek (node : sexp) (dd : ddest) (cd : cdest) : M unit :=
  sz <~ cdr_car node ;;
  addr <~ cdr_cdr_car node ;;
  (if is_str sz "byte" then
     dst <- lift (to_reg dd) ;;
     self_cg_form addr DD_HL CD_NEXT ;;
     if dd_eqb dd DD_A then asm None "LD" (Some "A,(HL)")
     else
       d1 <- lift (str_index dst 1) ;;
       asm None "LD" (Some (char_str d1 ++ ",(HL)")) ;;
       d0 <- lift (str_index dst 0) ;;
       asm None "LD" (Some (char_str d0 ++ ",0"))
   else if is_str sz "word" then
     dst <- lift (to_reg dd) ;;
     src <- (if dd_eqb dd DD_HL then
               self_cg_form addr DD_DE CD_NEXT ;; ret "DE"
             else
               self_cg_form addr DD_HL CD_NEXT ;; ret "HL") ;;
     if dd_eqb dd DD_A then asm None "LD" (Some ("A,(" ++ src ++ ")"))
     else
       d1 <- lift (str_index dst 1) ;;
       asm None "LD" (Some (char_str d1 ++ ",(" ++ src ++ ")")) ;;
       asm None "INC" (Some src) ;;
       d0 <- lift (str_index dst 0) ;;
       asm None "LD" (Some (char_str d0 ++ ",(" ++ src ++ ")"))
   else raise (ValueError ("Unsupported poke size: " ++ py_str sz))) ;;
  cg_goto cd.

Definition cg_poke (node : sexp) (dd : ddest) (cd : cdest) : M unit :=
  sz <~ cdr_car node ;;
  addr <~ cdr_cdr_car node ;;
  datum <~ cdr_cdr_cdr_car node ;;
  if is_str sz "byte" then
    self_cg_form addr DD_HL CD_NEXT ;;
    self_cg_form datum DD_A CD_NEXT ;;
    asm None "LD" (Some "(HL),A") ;;
    cg_goto cd
  else if is_str sz "word" then
    (if negb (is_pair addr) then
       self_cg_form datum DD_DE CD_NEXT ;;
       self_cg_form addr DD_HL CD_NEXT
     else
       self_cg_form datum DD_HL CD_NEXT ;;
       cg_push_hl ;;
       self_cg_form addr DD_HL CD_NEXT ;;
       cg_pop_de) ;;
    asm None "LD" (Some "A,E") ;;
    asm None "LD" (Some "(HL),A") ;;
    asm None "INC" (Some "HL") ;;
    asm None "LD" (Some "A,D") ;;
    asm None "LD" (Some "(HL),A") ;;
    cg_goto cd
  else raise (ValueError ("Unsupported poke size: " ++ py_str sz)).

Definition cg_address_of (node : sexp) (dd : ddest) (cd : cdest) : M unit :=
  v <~ with_cdr node ;;
  match v with
  | Nil => raise (ValueError "@ operator missing variable or procedure name")
  | _ =>
      name <~ with_car v ;;
      gs <- get_globals ;;
      if negb (py_in name gs) then
        raise (ValueError
                 ("@ operator reference to undeclared variable or procedure: "
                  ++ py_str name))
      else
        cg_ld16 dd (Some (PObj name)) ;;
        cg_goto cd
  end.

(** The [while] loop of [cg_statements]; the result is the final value of
    [return_handled]. *)
Fixpoint cg_statements_loop (node : sexp) (dd : ddest) (cd : cdest)
         (return_handled : bool) : M bool :=
  match node with
  | Nil => ret return_handled
  | _ =>
      rest <~ with_cdr node ;;
      let '(next_target, next_step, handled) :=
        match rest with
        | Nil => (dd, cd, true)
        | _ => (DD_HL, CD_NEXT, return_handled)
        end in
      stmt <~ with_car node ;;
      self_cg_form stmt next_target next_step ;;
      cg_statements_loop rest dd cd handled
  end.

Definition cg_statements (node : sexp) (dd : ddest) (cd : cdest) : M unit :=
  return_handled <- cg_statements_loop node dd cd false ;;
  if negb return_handled then cg_goto cd else ret tt.

Definition cg_sub (node : sexp) (dd : ddest) (cd : cdest) : M unit :=
  name <~ cdr_car node ;;
  statements <~ cdr_cdr node ;;
  gs <- get_globals ;;
  if py_in name gs then
    raise (ValueError ("Symbol already defined: " ++ py_str name))
  else
    append_global name ;;
    cg_emit_label (Some (PObj name)) ;;
    cg_statements statements dd cd.

Definition cg_if (node : sexp) (dd : ddest) (cd : cdest) : M unit :=
  label_false <- make_label ;;
  label_end <- make_label ;;
  pred <~ cdr_car node ;;
  conseq <~ cdr_cdr_car node ;;
  rest <~ cdr_cdr_cdr node ;;
  match rest with
  | Nil =>
      if negb (cd_eqb cd CD_RET) then
        self_cg_form pred DD_ZFLAG (CD_BRANCH CD_NEXT (CD label_false)) ;;
        self_cg_form conseq DD_HL cd ;;
        cg_emit_label (Some (PInt label_false)) ;;
        cg_goto cd
      else
        self_cg_form pred DD_ZFLAG (CD_BRANCH CD_NEXT cd) ;;
        self_cg_form conseq DD_HL cd
  | _ =>
      alter <~ with_car rest ;;
      self_cg_form pred DD_ZFLAG (CD_BRANCH CD_NEXT (CD label_false)) ;;
      self_cg_form conseq DD_HL (CD label_end) ;;
      cg_emit_label (Some (PInt label_false)) ;;
      self_cg_form alter DD_HL CD_NEXT ;;
      cg_emit_label (Some (PInt label_end)) ;;
      cg_goto cd
  end.

(** The [while] loop of [declare_variables]. *)
Fixpoint declare_variables_loop (varlist : sexp) : M unit :=
  match varlist with
  | Nil => ret tt
  | _ =>
      name <~ with_car varlist ;;
      gs <- get_globals ;;
      if py_in name gs then
        raise (ValueError ("Variable already defined: " ++ py_str name))
      else
        append_global name ;;
        asm (Some (PObj name)) "DEFW" (Some "0") ;;
        rest <~ with_cdr varlist ;;
        declare_variables_loop rest
  end.

Definition declare_variables (node : sexp) : M unit :=
  varlist <~ with_cdr node ;;
  declare_variables_loop varlist.

Definition cg_set_var (node : sexp) (dd : ddest) (cd : cdest) : M unit :=
  v <~ cdr_car node ;;
  e <~ cdr_cdr_car node ;;
  self_cg_form e DD_HL CD_NEXT ;;
  asm None "LD" (Some ("(" ++ py_str v ++ "),HL")) ;;
  cg_ld16_r16 dd DD_HL ;;
  cg_goto cd.

End Forms.

(** ** The form dispatcher *)

Section Dispatch.

Context {repr : ObjRepr}.
Variable self_cg_form : sexp -> ddest -> cdest -> M unit.

(** The literal path shared by the two numeric branches: [cg_ld16] then
    [cg_goto] when [dd] is a register. *)
Definition cg_literal (n : option pyval) (dd : ddest) (cd : cdest)
  : M unit :=
  if is_register dd then
    cg_ld16 dd n ;;
    cg_goto cd
  else
    raise (ValueError
             ("Unknown data destination: " ++ str_of_int (dd_code dd))).

Definition opt_val (n : option Z) : option pyval :=
  match n with
  | Some z => Some (PInt z)
  | None => None
  end.

(** The [else] branch of [cg_form]: [node] is not a [Pair]. *)
Definition cg_atom (node : sexp) (dd : ddest) (cd : cdest) : M unit :=
  is_lit <- lift (starts_with_decimal_digit node) ;;
  if is_lit then
    n <- lift (to_number_obj node) ;;
    cg_literal (opt_val n) dd cd
  else
    match node with
    | Atom text =>
        c0 <- lift (str_index text 0) ;;
        if Ascii.eqb c0 "-"%char then
          m <- lift (to_number (str_from 1 text)) ;;
          match m with
          | Some z => cg_literal (Some (PInt (- z))) dd cd
          | None => raise TypeError
          end
        else
          gs <- get_globals ;;
          if py_in node gs then
            cg_ld16_gv dd node ;;
            cg_goto cd
          else
            raise (ValueError ("Symbol not declared: " ++ text))
    | _ => raise TypeError
    end.

(** The [elif is_pair(node)] branch of [cg_form]. *)
Definition cg_pair (node : sexp) (dd : ddest) (cd : cdest) : M unit :=
  head <~ with_car node ;;
  if is_str head "+" then
    cg_binop self_cg_form cg_add node dd cd
  else if is_str head "-" then
    cg_binop self_cg_form cg_subtract node dd cd
  else if is_str head "*" then
    cg_binop self_cg_form cg_multiply node dd cd
  else if is_str head "/" then
    cg_binop self_cg_form cg_divide node dd cd
  else if is_str head "&" then
    cg_binop self_cg_form cg_bit_and node dd cd
  else if is_str head "|" then
    cg_binop self_cg_form cg_bit_or node dd cd
  else if is_str head "^" then
    cg_binop self_cg_form cg_bit_xor node dd cd
  else if is_str head "int16" then
    declare_variables node
  else if is_str head "set" then
    cg_set_var self_cg_form node dd cd
  else if is_str head "if" then
    cg_if self_cg_form node dd cd
  else if is_str head "sub" then
    cg_sub self_cg_form node dd CD_RET
  else if is_str head "do" then
    rest <~ with_cdr node ;;
    cg_statements self_cg_form rest dd CD_RET
  else if is_str head "@" then
    cg_address_of node dd cd
  else if is_str head "poke" then
    cg_poke self_cg_form node dd cd
  else if is_str head "peek" then
    cg_peek self_cg_form node dd cd
  else if is_str head "output" then
    cg_output self_cg_form node dd cd
  else if is_str head "input" then
    cg_input self_cg_form node dd cd
  else if is_str head "highbyte" then
    cg_highbyte self_cg_form node dd cd
  else if is_str head "lowbyte" then
    cg_lowbyte self_cg_form node dd cd
  else if is_str head ">>" then
    cg_shift_right_logical self_cg_form node dd cd
  else if is_str head "<<" then
    cg_shift_left node dd cd
  else
    gs <- get_globals ;;
    if negb (py_in head gs) then
      raise (ValueError ("Unsupported: " ++ py_str head))
    else
      rest <~ with_cdr node ;;
      match rest with
      | Nil => cg_call_libfn (py_str head) cd
      | _ =>
          raise (ValueError
                   ("Arguments to subroutines not supported: "
                    ++ py_str head))
      end.

(** [cg_form] below its first test ([dd == DD_ZFLAG]). *)
Definition cg_form_body (node : sexp) (dd : ddest) (cd : cdest) : M unit :=
  if is_pair node then cg_pair node dd cd else cg_atom node dd cd.

End Dispatch.

(** [cg_form].  With [dd = DD_ZFLAG] the method calls itself on the same
    node with [(DD_HL, CD_NEXT)]; that activation fails the [DD_ZFLAG] test
    and runs the body, which is what the first branch does here.  All other
    recursive calls are on parts of [node]. *)
Fixpoint cg_form {repr : ObjRepr}
         (node : sexp) (dd : ddest) (cd : cdest) {struct node} : M unit :=
  if dd_eqb dd DD_ZFLAG then
    cg_form_body cg_form node DD_HL CD_NEXT ;;
    asm None "LD" (Some "A,L") ;;
    asm None "OR" (Some "A,H") ;;
    cg_goto cd
  else cg_form_body cg_form node dd cd.

(** [main]'s loop over the parsed forms. *)
Fixpoint main_loop {repr : ObjRepr} (tree : list sexp) : M unit :=
  match tree with
  | [] => ret tt
  | node :: rest =>
      cg_form node DD_HL CD_RET ;;
      main_loop rest
  end.

(** The listing a program produces, or the exception that ends the run. *)
Definition compile {repr : ObjRepr} (tree : list sexp)
  : res (list string) :=
  match main_loop tree init_compiler with
  | Ok (_, s) => Ok (assembly_listing s)
  | Raise e => Raise e
  end.

(** A proper list of nodes. *)
Fixpoint slist (items : list sexp) : sexp :=
  match items with
  | [] => Nil
  | x :: rest => Pair x (slist rest)
  end.

(** The rendering used by the closed examples below, none of which formats
    a [nil] or a [Pair]. *)
#[export] Instance plain_repr : ObjRepr := fun _ => "<object>".

(** The first scenario of the spec: [( * (/ (- 101 32) 180) 100)]. *)
Definition fahrenheit : sexp :=
  slist [Atom "*";
         slist [Atom "/"; slist [Atom "-"; Atom "101"; Atom "32"]; Atom "180"];
         Atom "100"].

(** The spec's reading of a binary operator, which looks at the second
    operand [B] of [(op A B)] to choose between the stack and [DE]; kept
    apart from [cg_binop] for comparison. *)
Definition binop_by_second_operand {repr : ObjRepr}
           (op : emitter) (a b : sexp) (dd : ddest) (cd : cdest) : M unit :=
  (if is_pair b then
     cg_form b DD_HL CD_NEXT ;;
     cg_push_hl ;;
     cg_form a DD_HL CD_NEXT ;;
     cg_pop_de
   else
     cg_form b DD_DE CD_NEXT ;;
     cg_form a DD_HL CD_NEXT) ;;
  op dd DD_HL DD_DE cd.

(** What [cg_binop] does, by the first operand [A]. *)
Definition binop_by_first_operand {repr : ObjRepr}
           (op : emitter) (a b : sexp) (dd : ddest) (cd : cdest) : M unit :=
  (if is_pair a then
     cg_form b DD_HL CD_NEXT ;;
     cg_push_hl ;;
     cg_form a DD_HL CD_NEXT ;;
     cg_pop_de
   else
     cg_form b DD_DE CD_NEXT ;;
     cg_form a DD_HL CD_NEXT) ;;
  op dd DD_HL DD_DE cd.

(** The operator table of [cg_form]'s first seven branches. *)
Definition binop_emitter {repr : ObjRepr} (head : string) : option emitter :=
  if String.eqb head "+" then Some cg_add
  else if String.eqb head "-" then Some cg_subtract
  else if String.eqb head "*" then Some cg_multiply
  else if String.eqb head "/" then Some cg_divide
  else if String.eqb head "&" then Some cg_bit_and
  else if String.eqb head "|" then Some cg_bit_or
  else if String.eqb head "^" then Some cg_bit_xor
  else None.

(** The symbol-reference branch of [cg_form]'s atom case. *)
Definition cg_symbol {repr : ObjRepr} (text : string) (dd : ddest) (cd : cdest)
  : M unit :=
  gs <- get_globals ;;
  if py_in (Atom text) gs then
    cg_ld16_gv dd (Atom text) ;;
    cg_goto cd
  else raise (ValueError ("Symbol not declared: " ++ text)).

(** Two generators that behave alike from every state. *)
Definition same_run {A} (m1 m2 : M A) : Prop := forall s, m1 s = m2 s.

Infix "=r=" := same_run (at level 70, no associativity).

(** The lines a run appends, or the exception it ends with. *)
Definition lines_of {A} (m : M A) (s : compiler) : res (list string) :=
  match m s with
  | Ok (_, s') =>
      Ok (skipn (List.length (assembly_listing s)) (assembly_listing s'))
  | Raise e => Raise e
  end.

(** [s'] is [s] after more appends and label allocations. *)
Record extends (s s' : compiler) : Prop := mkExtends {
  ext_listing : exists ls, assembly_listing s' = (assembly_listing s ++ ls)%list;
  ext_globals : exists gs, globals s' = (globals s ++ gs)%list;
  ext_label : next_label s <= next_label s'
}.

(** A generator that only ever extends the state. *)
Definition grows {A} (m : M A) : Prop :=
  forall s a s', m s = Ok (a, s') -> extends s s'.

Fixpoint size (node : sexp) : nat :=
  match node with
  | Pair a d => S (size a + size d)
  | _ => 1%nat
  end.

(** The state with more lines appended. *)
Definition with_lines (s : compiler) (ls : list string) : compiler :=
  {| assembly_listing := (assembly_listing s ++ ls)%list;
     globals := globals s;
     next_label := next_label s |}.

(** The label counter never falls below its initial value. *)
Definition label_inv (s : compiler) : Prop := CD_LABEL - 1 <= next_label s.

(** [emits m r]: from every state, [m] appends the lines [r] and changes
    nothing else, or raises the exception [r]. *)
Definition emits (m : M unit) (r : res (list string)) : Prop :=
  forall s,
    m s = match r with
          | Ok ls => Ok (tt, with_lines s ls)
          | Raise e => Raise e
          end.

(** Sequencing of emitted lines. *)
Definition then_lines (r1 r2 : res (list string)) : res (list string) :=
  res_bind r1 (fun l1 => res_bind r2 (fun l2 => Ok (l1 ++ l2)%list)).

(** The text of one instruction line. *)
Definition instr (mnem : string) (oper : option string) : string :=
  "    " ++ ljust6 mnem ++ " " ++ match oper with Some o => o | None => "" end.

(** Generating each statement of a list with [(DD_HL, CD_NEXT)]. *)
Fixpoint run_each (self_cg_form : sexp -> ddest -> cdest -> M unit)
         (stmts : list sexp) : M unit :=
  match stmts with
  | [] => ret tt
  | stmt :: rest => self_cg_form stmt DD_HL CD_NEXT ;; run_each self_cg_form rest
  end.

(** The byte-wise subtraction of [DE] from [HL]. *)
Definition subtract_hl_de : list string :=
  ["    LD     A,L"; "    SUB    A,E"; "    LD     L,A";
   "    LD     A,H"; "    SBC    A,D"; "    LD     H,A"].

(** [(+ 1 (+ 2 3))]: an atom first, a compound expression second. *)
Definition nested_sum : sexp :=
  slist [Atom "+"; Atom "1"; slist [Atom "+"; Atom "2"; Atom "3"]].

(** [(do 1)]. *)
Definition do_one : sexp := slist [Atom "do"; Atom "1"].

(** [(+ (+ 2 3) 1)]: a compound expression first, an atom second. *)
Definition nested_sum_left : sexp :=
  slist [Atom "+"; slist [Atom "+"; Atom "2"; Atom "3"]; Atom "1"].

(** [(set Y 5)]. *)
Definition set_y_5 : sexp := slist [Atom "set"; Atom "Y"; Atom "5"].

(** [(int16 X)] and [(sub X)]. *)
Definition int16_x : sexp := slist [Atom "int16"; Atom "X"].
Definition sub_x : sexp := slist [Atom "sub"; Atom "X"].

(** The state after a name was declared: one more symbol, and its two
    lines. *)
Definition declared (s : compiler) (name : string) : compiler :=
  {| assembly_listing :=
       (assembly_listing s ++ [(name ++ ":")%string; "    DEFW   0"])%list;
     globals := (globals s ++ [Atom name])%list;
     next_label := next_label s |}.

(** One step of the unrolled right shift, and the lines of [n] of them. *)
Definition shift_pair {repr : ObjRepr} : M unit :=
  asm None "SRL" (Some "H") ;;
  asm None "RL" (Some "L").

Definition shift_pairs (n : nat) : list string :=
  concat (repeat ["    SRL    H"; "    RL     L"] n).

(** The two shapes of [(>> EXPR COUNT)] in the spec's words: [n] unrolled
    steps, or the [DJNZ] loop over [B], with or without the zero guard. *)
Definition shift_unrolled {repr : ObjRepr} (e : sexp) (n : nat) (cd : cdest)
  : M unit :=
  cg_form e DD_HL CD_NEXT ;;
  repeat_gen n shift_pair ;;
  cg_goto cd.

Definition shift_loop {repr : ObjRepr} (e cnt : sexp) (guard : bool)
           (cd : cdest) : M unit :=
  cg_form e DD_HL CD_NEXT ;;
  (loopback <- make_label ;;
   cg_form cnt DD_B CD_NEXT ;;
   if guard then
     skipahead <- make_label ;;
     asm None "LD" (Some "A,B") ;;
     asm None "OR" (Some "A,A") ;;
     asm None "JZ" (Some ("L" ++ str_of_int skipahead)) ;;
     asm (Some (PInt loopback)) "SRL" (Some "H") ;;
     asm None "RL" (Some "L") ;;
     asm None "DJNZ" (Some ("L" ++ str_of_int loopback)) ;;
     cg_emit_label (Some (PInt skipahead))
   else
     asm (Some (PInt loopback)) "SRL" (Some "H") ;;
     asm None "RL" (Some "L") ;;
     asm None "DJNZ" (Some ("L" ++ str_of_int loopback))) ;;
  cg_goto cd.

(** [(>> X COUNT)] for a token, and [(>> 1 (@ X))]. *)
Definition shift_x_by (count : string) : sexp :=
  slist [Atom ">>"; Atom "X"; Atom count].

Definition address_of_x : sexp := slist [Atom "@"; Atom "X"].

Definition shift_by_address : sexp :=
  slist [Atom ">>"; Atom "1"; address_of_x].

(** [(int16 -foo)]: declaring a name does not classify its token. *)
Definition int16_minus_foo : sexp := slist [Atom "int16"; Atom "-foo"].

(** The lines of the [DJNZ] loop at label [k], and of the zero guard that
    jumps to label [k']. *)
Definition loop_lines (k : Z) : list string :=
  [("L" ++ str_of_int k) ++ ":"; "    SRL    H"; "    RL     L";
   "    DJNZ   L" ++ str_of_int k].

Definition guard_lines (k' : Z) : list string :=
  ["    LD     A,B"; "    OR     A,A"; "    JZ     L" ++ str_of_int k'].

(** The state after [ls] was appended and [n] labels were allocated. *)
Definition with_lines_labels (s : compiler) (ls : list string) (n : Z)
  : compiler :=
  {| assembly_listing := (assembly_listing s ++ ls)%list;
     globals := globals s;
     next_label := next_label s + n |}.

(** [respects R m]: every successful run of [m] takes a state to one
    related to it by [R]. *)
Definition respects {A} (R : compiler -> compiler -> Prop) (m : M A) : Prop :=
  forall s a s', m s = Ok (a, s') -> R s s'.

(** The mnemonics of the instructions that are emitted outside
    [cg_push_hl], [cg_push_de] and [cg_pop_de]. *)
Definition mnemonics : list string :=
  ["LD"; "OR"; "RET"; "JP"; "JZ"; "SRL"; "RL"; "DJNZ"; "IN"; "OUT"; "INC";
   "ADD"; "ADC"; "SUB"; "SBC"; "AND"; "XOR"; "CALL"; "DEFW"].

Definition emitted_mnemonic (mnem : string) : bool :=
  existsb (String.eqb mnem) mnemonics.

(** The two stack instructions, as [cg_push_hl] and [cg_pop_de] format them. *)
Definition push_line : string := "    PUSH   HL".
Definition pop_line : string := "    POP    DE".

(** The depth of the stack after the lines [ls], read in order from the
    depth [d]: [PUSH HL] adds one, [POP DE] takes one and has no result on
    an empty stack, every other line leaves the depth as it is. *)
Fixpoint stack_depth (ls : list string) (d : nat) : option nat :=
  match ls with
  | [] => Some d
  | line :: rest =>
      if String.eqb line push_line then stack_depth rest (S d)
      else if String.eqb line pop_line then
        match d with
        | O => None
        | S d' => stack_depth rest d'
        end
      else stack_depth rest d
  end.

(** The stack lines of [ls] are properly nested: read in order from an
    empty stack, no [POP DE] meets an empty stack, and the stack is empty
    again at the end. *)
Definition balanced (ls : list string) : Prop :=
  stack_depth ls 0 = Some 0%nat.

(** A line of the listing: a label line [NAME:], an instruction line with
    one of the nineteen [mnemonics], or one of the two stack lines. *)
Definition line_ok (line : string) : Prop :=
  (exists name, line = name ++ ":")
  \/ (exists mnem oper, In mnem mnemonics /\ line = instr mnem oper)
  \/ line = push_line
  \/ line = pop_line.

(** The three relations proved of every run: the symbol table stays free of
    duplicates; the appended lines are balanced; the appended lines are
    well formed. *)
Definition keeps_unique (s s' : compiler) : Prop :=
  NoDup (globals s) -> NoDup (globals s').

Definition appends_balanced (s s' : compiler) : Prop :=
  exists ls,
    assembly_listing s' = (assembly_listing s ++ ls)%list /\ balanced ls.

Definition appends_well_formed (s s' : compiler) : Prop :=
  exists ls,
    assembly_listing s' = (assembly_listing s ++ ls)%list /\ Forall line_ok ls.

(** Whether a string ends with a colon. *)
Fixpoint ends_with_colon (text : string) : bool :=
  match text with
  | EmptyString => false
  | String c EmptyString => Ascii.eqb c ":"
  | String _ rest => ends_with_colon rest
  end.

(** Three small programs used as instances: a declaration and a
    subroutine; a sum whose first operand is compound, generated through
    the stack; a declaration followed by an assignment. *)
Definition sub_foo_sets_x : sexp :=
  slist [Atom "sub"; Atom "foo"; slist [Atom "set"; Atom "X"; Atom "5"]].

Definition program_decl_sub : list sexp := [int16_x; sub_foo_sets_x].

Definition program_stack : list sexp := [nested_sum_left].

(** The heads that [cg_form] dispatches on before it looks a head up in
    the symbol table. *)
Definition form_heads : list string :=
  ["+"; "-"; "*"; "/"; "&"; "|"; "^"; "int16"; "set"; "if"; "sub"; "do";
   "@"; "poke"; "peek"; "output"; "input"; "highbyte"; "lowbyte"; ">>"; "<<"].

Definition is_form_head (name : string) : bool :=
  existsb (String.eqb name) form_heads.

(** A token that the atom case of [cg_form] takes for a symbol: not empty,
    and starting with neither a decimal digit nor a minus sign. *)
Definition is_symbol_token (name : string) : bool :=
  match name with
  | EmptyString => false
  | String c _ => negb (char_between "0" c "9") && negb (Ascii.eqb c "-")
  end.

(** The lines of a declaration of several variables, and the state after
    it. *)
Definition decl_lines (names : list string) : list string :=
  flat_map (fun n => [(n ++ ":")%string; "    DEFW   0"]) names.

Definition declared_all (s : compiler) (names : list string) : compiler :=
  {| assembly_listing := (assembly_listing s ++ decl_lines names)%list;
     globals := (globals s ++ map Atom names)%list;
     next_label := next_label s |}.

(** The value of a decimal numeral read from its most significant digit,
    continuing from [acc]. *)
Fixpoint uint_value (d : Decimal.uint) (acc : Z) : Z :=
  match d with
  | Decimal.Nil => acc
  | Decimal.D0 l => uint_value l (acc * 10 + 0)
  | Decimal.D1 l => uint_value l (acc * 10 + 1)
  | Decimal.D2 l => uint_value l (acc * 10 + 2)
  | Decimal.D3 l => uint_value l (acc * 10 + 3)
  | Decimal.D4 l => uint_value l (acc * 10 + 4)
  | Decimal.D5 l => uint_value l (acc * 10 + 5)
  | Decimal.D6 l => uint_value l (acc * 10 + 6)
  | Decimal.D7 l => uint_value l (acc * 10 + 7)
  | Decimal.D8 l => uint_value l (acc * 10 + 8)
  | Decimal.D9 l => uint_value l (acc * 10 + 9)
  end.

(** The state after one [LD] of a literal into register [r]. *)
Definition loaded (s : compiler) (r : string) (n : Z) : compiler :=
  with_lines s [("    LD     " ++ r ++ "," ++ str_of_int n)%string].

(** The errors that tell of a destination the generator cannot realise:
    the [KeyError] of [to_reg] and the two [ValueError]s for an unknown
    data or control destination. *)
Definition internal_error (e : exn) : bool :=
  match e with
  | KeyError => true
  | ValueError msg =>
      String.prefix "Unknown control destination: " msg
      || String.prefix "Unknown data destination: " msg
  | _ => false
  end.

(** The control destinations [cg_goto] realises: [CD_RET], [CD_NEXT], a
    label id, or a tuple whose false branch is one of these. *)
Fixpoint valid_cd (cd : cdest) : bool :=
  match cd with
  | CD n => (n =? 0) || (n =? 1) || (CD_LABEL <=? n)
  | CD_BRANCH _ false_branch => valid_cd false_branch
  end.

(** [safe m]: started with a label counter at or above its initial value,
    [m] keeps it there, and does not end in an [internal_error]. *)
Definition safe {A} (m : M A) : Prop :=
  forall s, label_inv s ->
    match m s with
    | Ok (_, s') => label_inv s'
    | Raise e => internal_error e = false
    end.

(** The state with [n] more labels allocated. *)
Definition with_labels (s : compiler) (n : Z) : compiler :=
  {| assembly_listing := assembly_listing s;
     globals := globals s;
     next_label := next_label s + n |}.

(** The test of the accumulator pair and the conditional transfer that
    [cg_if] places after its predicate. *)
Definition test_lines (transfer : string) : list string :=
  ["    LD     A,L"; "    OR     A,H"; transfer].

(** The line that places the generated label [id], and the four kinds of
    lines that transfer control to it. *)
Definition label_line (id : Z) : string := ("L" ++ str_of_int id) ++ ":".

Definition jump_lines (id : Z) : list string :=
  [instr "JP" (Some ("L" ++ str_of_int id));
   instr "JP" (Some ("Z,L" ++ str_of_int id));
   instr "JZ" (Some ("L" ++ str_of_int id));
   instr "DJNZ" (Some ("L" ++ str_of_int id))].

(** A declared name that cannot be mistaken for the generated label [id],
    nor for a conditional jump to it. *)
Definition plain_name {repr : ObjRepr} (id : Z) (g : sexp) : Prop :=
  py_str g <> "L" ++ str_of_int id /\ py_str g <> "Z,L" ++ str_of_int id.

(** 1 when [lo < id <= hi], else 0. *)
Definition between (lo id hi : Z) : nat :=
  if (lo <? id) && (id <=? hi) then 1%nat else 0%nat.

(** The control destinations made of integers, and the labels they may
    transfer to. *)
Definition simple_cd (cd : cdest) : bool :=
  match cd with
  | CD _ => true
  | CD_BRANCH (CD _) (CD _) => true
  | _ => false
  end.

Definition label_targets (n : Z) : list Z :=
  if (n =? 0) || (n =? 1) then [] else [n].

Definition targets (cd : cdest) : list Z :=
  match cd with
  | CD n => label_targets n
  | CD_BRANCH _ (CD n) => label_targets n
  | _ => []
  end.

(** [labels_ok C P T s s']: from [s] to [s'] lines and names were appended
    and labels allocated such that the label line of every id in [P] was
    appended and, for every id that no declared name can be mistaken for,
    the label line of the id was appended at most once if the id was
    allocated in between or is one of the credits [C], and not at all
    otherwise; and every appended jump to the id has the label line of the
    id among the appended lines, or the id is among the targets [T]. *)
Definition labels_ok {repr : ObjRepr} (C P T : list Z) (s s' : compiler)
  : Prop :=
  exists ls gs,
    assembly_listing s' = (assembly_listing s ++ ls)%list
    /\ globals s' = (globals s ++ gs)%list
    /\ next_label s <= next_label s'
    /\ (forall p, In p P -> In (label_line p) ls)
    /\ forall id,
         (forall g, In g (globals s') -> plain_name id g) ->
         (count_occ string_dec ls (label_line id)
          <= between (next_label s) id (next_label s')
             + count_occ Z.eq_dec C id)%nat
         /\ (forall line,
                In line ls -> In line (jump_lines id) ->
                In (label_line id) ls \/ In id T).

Definition labelled {repr : ObjRepr} {A} (C P T : list Z) (m : M A) : Prop :=
  forall s a s', m s = Ok (a, s') -> labels_ok C P T s s'.

(** The mnemonics that do not transfer control to a label. *)
Definition plain_mnemonics : list string :=
  ["LD"; "OR"; "RET"; "SRL"; "RL"; "IN"; "OUT"; "INC";
   "ADD"; "ADC"; "SUB"; "SBC"; "AND"; "XOR"; "CALL"; "DEFW"; "PUSH"; "POP"].

Definition plain_mnemonic (mnem : string) : bool :=
  existsb (String.eqb mnem) plain_mnemonics.

(** A declaration followed by a two-armed conditional. *)
Definition program_if_x : list sexp :=
  [slist [Atom "int16"; Atom "X"];
   slist [Atom "if"; Atom "X"; Atom "1"; Atom "2"]].

(** The state [program_if_x] ends in. *)
Definition state_if_x : compiler :=
  {| assembly_listing :=
       ["X:"; "    DEFW   0"; "    LD     HL,(X)"; "    LD     A,L";
        "    OR     A,H"; "    JP     Z,L100"; "    LD     HL,1";
        "    JP     L101"; "L100:"; "    LD     HL,2"; "L101:";
        "    RET    "];
     globals := [Atom "X"];
     next_label := 101 |}.

(** * The first generator

    [src/compiler/compile.py] is the generator the Z80 one grew out of: the
    same module-level functions ([starts_with_decimal_digit], [to_number],
    [is_pair], which are shared below), three register pairs, the two
    control destinations [CD_RET] and [CD_NEXT], and the forms of the seven
    binary operators, [int16] and [set].  Its [Compiler] has no label
    counter; the field is carried along unchanged. *)

Module V1.

Section Generator.

Context {repr : ObjRepr}.

(** [to_reg]: a dictionary with three keys. *)
Definition to_reg (dd : ddest) : res string :=
  match dd with
  | DD_BC => Ok "BC"
  | DD_DE => Ok "DE"
  | DD_HL => Ok "HL"
  | _ => Raise KeyError
  end.

Definition reg_half (dd : ddest) (i : nat) : M string :=
  lift (res_bind (to_reg dd) (fun r =>
        res_bind (str_index r i) (fun c => Ok (char_str c)))).

Definition asm (label : option pyval) (mnem : string) (oper : option string)
  : M unit :=
  match label with
  | Some _ => append_line (fmt label ++ ":")
  | None => ret tt
  end ;;
  append_line ("    " ++ ljust6 mnem ++ " " ++
               match oper with Some o => o | None => "" end).

Definition cg_push_hl : M unit := asm None "PUSH" (Some "HL").
Definition cg_push_de : M unit := asm None "PUSH" (Some "DE").
Definition cg_pop_de : M unit := asm None "POP" (Some "DE").

Definition cg_goto (cd : cdest) : M unit :=
  if cd_eqb cd CD_NEXT then ret tt
  else if cd_eqb cd CD_RET then asm None "RET" None
  else raise (ValueError ("Unknown control destination: " ++ cd_str cd)).

Definition cg_op_pair (op1 op2 : string) (dd ds : ddest) : M unit :=
  src <- lift (to_reg ds) ;;
  dst <- lift (to_reg dd) ;;
  d1 <- lift (str_index dst 1) ;;
  s1 <- lift (str_index src 1) ;;
  asm None op1 (Some (char_str d1 ++ "," ++ char_str s1)) ;;
  d0 <- lift (str_index dst 0) ;;
  s0 <- lift (str_index src 0) ;;
  asm None op2 (Some (char_str d0 ++ "," ++ char_str s0)).

Definition cg_ld16 (dd : ddest) (n : option pyval) : M unit :=
  r <- lift (to_reg dd) ;;
  asm None "LD" (Some (r ++ "," ++ fmt n)).

Definition cg_ld16_r16 (dd ds : ddest) : M unit :=
  if dd_eqb ds dd then ret tt
  else cg_op_pair "LD" "LD" dd ds.

Definition cg_ld8_r8 (rd rs : string) : M unit :=
  asm None "LD" (Some (rd ++ "," ++ rs)).

Definition cg_ld16_gv (dd : ddest) (t : sexp) : M unit :=
  r <- lift (to_reg dd) ;;
  asm None "LD" (Some (r ++ ",(" ++ py_str t ++ ")")).

Definition cg_op16 (dd ds1 ds2 : ddest) (cd : cdest) (op1 op2 : string)
  : M unit :=
  a1 <- reg_half ds1 1 ;;
  asm None "LD" (Some ("A," ++ a1)) ;;
  b1 <- reg_half ds2 1 ;;
  asm None op1 (Some ("A," ++ b1)) ;;
  d1 <- reg_half dd 1 ;;
  asm None "LD" (Some (d1 ++ ",A")) ;;
  a0 <- reg_half ds1 0 ;;
  asm None "LD" (Some ("A," ++ a0)) ;;
  b0 <- reg_half ds2 0 ;;
  asm None op2 (Some ("A," ++ b0)) ;;
  d0 <- reg_half dd 0 ;;
  asm None "LD" (Some (d0 ++ ",A")) ;;
  cg_goto cd.

Definition cg_add (dd ds1 ds2 : ddest) (cd : cdest) : M unit :=
  let do_add (d a b : ddest) : M unit :=
    if dd_eqb d DD_HL && dd_eqb a DD_HL then
      r <- lift (to_reg b) ;;
      asm None "ADD" (Some ("HL," ++ r))
    else cg_op16 dd ds1 ds2 cd "ADD" "ADC" in
  (if dd_eqb dd DD_HL && dd_eqb ds2 DD_HL
   then do_add dd ds2 ds1
   else do_add dd ds1 ds2) ;;
  cg_goto cd.

Definition cg_bit_and (dd ds1 ds2 : ddest) (cd : cdest) : M unit :=
  cg_op16 dd ds1 ds2 cd "AND" "AND".

Definition cg_bit_or (dd ds1 ds2 : ddest) (cd : cdest) : M unit :=
  cg_op16 dd ds1 ds2 cd "OR" "OR".

Definition cg_bit_xor (dd ds1 ds2 : ddest) (cd : cdest) : M unit :=
  cg_op16 dd ds1 ds2 cd "XOR" "XOR".

Definition cg_subtract (dd ds1 ds2 : ddest) (cd : cdest) : M unit :=
  cg_op16 dd ds1 ds2 cd "SUB" "SBC".

Definition cg_call_libfn (fn_name : string) (cd : cdest) : M unit :=
  if negb (cd_eqb cd CD_RET) then
    asm None "CALL" (Some fn_name) ;;
    cg_goto cd
  else asm None "JP" (Some fn_name).

Definition cg_divide (dd ds1 ds2 : ddest) (cd : cdest) : M unit :=
  r1 <- lift (to_reg ds1) ;;
  r2 <- lift (to_reg ds2) ;;
  cg_call_libfn ("divide_" ++ r1 ++ "_" ++ r2) cd ;;
  cg_ld16_r16 dd DD_HL.

Definition cg_multiply (dd ds1 ds2 : ddest) (cd : cdest) : M unit :=
  r1 <- lift (to_reg ds1) ;;
  r2 <- lift (to_reg ds2) ;;
  cg_call_libfn ("multiply_" ++ r1 ++ "_" ++ r2) cd ;;
  cg_ld16_r16 dd DD_HL.

Variable self_cg_form : sexp -> ddest -> cdest -> M unit.

Definition cg_binop (op : emitter) (node : sexp) (dd : ddest) (cd : cdest)
  : M unit :=
  a <~ cdr_car node ;;
  (if is_pair a then
     b <~ cdr_cdr_car node ;;
     self_cg_form b DD_HL CD_NEXT ;;
     cg_push_hl ;;
     a' <~ cdr_car node ;;
     self_cg_form a' DD_HL CD_NEXT ;;
     cg_pop_de
   else
     b <~ cdr_cdr_car node ;;
     self_cg_form b DD_DE CD_NEXT ;;
     a' <~ cdr_car node ;;
     self_cg_form a' DD_HL CD_NEXT) ;;
  op dd DD_HL DD_DE cd.

(** The [while] loop of [declare_variables]. *)
Fixpoint declare_variables_loop (varlist : sexp) : M unit :=
  match varlist with
  | Nil => ret tt
  | _ =>
      name <~ with_car varlist ;;
      gs <- get_globals ;;
      if py_in name gs then
        raise (ValueError ("Variable already defined: " ++ py_str name))
      else
        append_global name ;;
        asm (Some (PObj name)) "DEFW" (Some "0") ;;
        rest <~ with_cdr varlist ;;
        declare_variables_loop rest
  end.

Definition declare_variables (node : sexp) : M unit :=
  varlist <~ with_cdr node ;;
  declare_variables_loop varlist.

Definition cg_set_var (node : sexp) (dd : ddest) (cd : cdest) : M unit :=
  v <~ cdr_car node ;;
  e <~ cdr_cdr_car node ;;
  self_cg_form e DD_HL CD_NEXT ;;
  asm None "LD" (Some ("(" ++ py_str v ++ "),HL")) ;;
  cg_ld16_r16 dd DD_HL ;;
  cg_goto cd.

(** The body of [cg_form]; the control destination of an atom is not
    realised. *)
Definition cg_form_body (node : sexp) (dd : ddest) (cd : cdest) : M unit :=
  if is_pair node then
    head <~ with_car node ;;
    if is_str head "+" then cg_binop cg_add node dd cd
    else if is_str head "-" then cg_binop cg_subtract node dd cd
    else if is_str head "*" then cg_binop cg_multiply node dd cd
    else if is_str head "/" then cg_binop cg_divide node dd cd
    else if is_str head "&" then cg_binop cg_bit_and node dd cd
    else if is_str head "|" then cg_binop cg_bit_or node dd cd
    else if is_str head "^" then cg_binop cg_bit_xor node dd cd
    else if is_str head "int16" then declare_variables node
    else if is_str head "set" then cg_set_var node dd cd
    else raise (ValueError ("Unsupported: " ++ py_str head))
  else
    is_lit <- lift (starts_with_decimal_digit node) ;;
    if is_lit then
      n <- lift (to_number_obj node) ;;
      if dd_eqb dd DD_BC || dd_eqb dd DD_DE || dd_eqb dd DD_HL then
        cg_ld16 dd (opt_val n)
      else
        raise (ValueError
                 ("Unknown data destination: " ++ str_of_int (dd_code dd)))
    else
      gs <- get_globals ;;
      if py_in node gs then cg_ld16_gv dd node
      else raise (ValueError ("Symbol not declared: " ++ py_str node)).

End Generator.

Fixpoint cg_form {repr : ObjRepr}
         (node : sexp) (dd : ddest) (cd : cdest) {struct node} : M unit :=
  cg_form_body cg_form node dd cd.

(** [main]'s loop over the parsed forms. *)
Fixpoint main_loop {repr : ObjRepr} (tree : list sexp) : M unit :=
  match tree with
  | [] => ret tt
  | node :: rest =>
      cg_form node DD_HL CD_RET ;;
      main_loop rest
  end.

(** The listing a program produces, or the exception that ends the run. *)
Definition compile {repr : ObjRepr} (tree : list sexp)
  : res (list string) :=
  match main_loop tree init_compiler with
  | Ok (_, s) => Ok (assembly_listing s)
  | Raise e => Raise e
  end.

End V1.

(** The forms of the first generator's language: an atom that does not
    start with a minus sign, a binary operator whose two operands are such
    forms, a declaration, or an assignment of such a form. *)
Definition v1_heads : list string := ["+"; "-"; "*"; "/"; "&"; "|"; "^"].

Fixpoint v1_form (node : sexp) : bool :=
  match node with
  | Atom text =>
      match text with
      | String c _ => negb (Ascii.eqb c "-")
      | EmptyString => true
      end
  | Nil => true
  | Pair (Atom head) rest =>
      if existsb (String.eqb head) v1_heads then
        match rest with
        | Pair a (Pair b _) => v1_form a && v1_form b
        | _ => true
        end
      else if String.eqb head "int16" then true
      else if String.eqb head "set" then
        match rest with
        | Pair _ (Pair e _) => v1_form e
        | _ => true
        end
      else false
  | Pair _ _ => false
  end.

(** The three register pairs, and the two control destinations, of the
    first generator. *)
Definition pair_register (dd : ddest) : bool :=
  dd_eqb dd DD_BC || dd_eqb dd DD_DE || dd_eqb dd DD_HL.

Definition plain_cd (cd : cdest) : bool :=
  cd_eqb cd CD_NEXT || cd_eqb cd CD_RET.

(** ** The suffix predicates

    [is_octal], [is_hex] and [is_decimal] look at the last character of a
    token; nothing in the generator calls them. *)

(** [text[-1]]. *)
Fixpoint str_last (text : string) : res ascii :=
  match text with
  | EmptyString => Raise IndexError
  | String c EmptyString => Ok c
  | String _ rest => str_last rest
  end.

Definition is_octal (t : string) : res bool :=
  res_bind (str_last t) (fun c => Ok (char_in c "o" "O")).

Definition is_hex (t : string) : res bool :=
  res_bind (str_last t) (fun c => Ok (char_in c "h" "H")).

(** [(not is_octal(t)) and (not is_hex(t))]: [is_hex] is not called when
    [is_octal] holds. *)
Definition is_decimal (t : string) : res bool :=
  res_bind (is_octal t) (fun o =>
    if negb o then res_bind (is_hex t) (fun h => Ok (negb h))
    else Ok false).

(** The lines that read a port into a register pair, low byte first. *)
Definition input_word_lines (hi lo : string) : list string :=
  ["    IN     A,(C)"; ("    LD     " ++ lo ++ ",A")%string; "    INC    BC";
   "    IN     A,(C)"; ("    LD     " ++ hi ++ ",A")%string].

(** The lines that store [DE] at the address in [HL], low byte first. *)
Definition store_word_lines : list string :=
  ["    LD     A,E"; "    LD     (HL),A"; "    INC    HL";
   "    LD     A,D"; "    LD     (HL),A"].

(** The lines that send [DE] to the port in [BC], low byte first. *)
Definition output_word_lines : list string :=
  ["    LD     A,E"; "    OUT    (C),A"; "    INC    BC";
   "    LD     A,D"; "    OUT    (C),A"].

(** The lines that load a register pair from the address in [src], low
    byte first. *)
Definition load_word_lines (hi lo src : string) : list string :=
  [("    LD     " ++ lo ++ ",(" ++ src ++ ")")%string;
   ("    INC    " ++ src)%string;
   ("    LD     " ++ hi ++ ",(" ++ src ++ ")")%string].

(** The state after one label was allocated by [make_label]. *)
Definition label_allocated (s : compiler) : compiler :=
  {| assembly_listing := assembly_listing s;
     globals := globals s;
     next_label := next_label s + 1 |}.

(** * Properties *)

Example to_number_dec : to_number "101" = Ok (Some 101).
Proof. reflexivity. Qed.
Example to_number_hex : to_number "0x1F" = Ok (Some 31).
Proof. reflexivity. Qed.
Example to_number_oct : to_number "017" = Ok (Some 15).
Proof. reflexivity. Qed.
Example to_number_bin : to_number "0b101" = Ok (Some 5).
Proof. reflexivity. Qed.
Example to_number_bad_oct : to_number "08" = Raise (InvalidLiteral 8 "08").
Proof. reflexivity. Qed.
Example to_number_symbol : to_number "foo" = Ok None.
Proof. reflexivity. Qed.
Example str_of_int_neg : str_of_int (-32) = "-32".
Proof. reflexivity. Qed.

(** ** Unfolding [cg_form] and [cg_input] *)

Lemma cg_form_unfold {repr : ObjRepr} (node : sexp) (dd : ddest) (cd : cdest) :
  cg_form node dd cd =
  if dd_eqb dd DD_ZFLAG then
    cg_form_body cg_form node DD_HL CD_NEXT ;;
    asm None "LD" (Some "A,L") ;;
    asm None "OR" (Some "A,H") ;;
    cg_goto cd
  else cg_form_body cg_form node dd cd.
Proof. destruct node; reflexivity. Qed.

Lemma cg_form_not_zflag {repr : ObjRepr} (node : sexp) (dd : ddest) (cd : cdest) :
  dd <> DD_ZFLAG ->
  cg_form node dd cd = cg_form_body cg_form node dd cd.
Proof.
  intros Hdd. rewrite cg_form_unfold.
  destruct dd; try reflexivity. congruence.
Qed.

(** The recursion of [cg_input]: the method is its body with itself as the
    callee.  The activation entered with [DD_HL] never re-enters. *)
Lemma cg_input_body_hl {repr : ObjRepr}
      (self_cg_form callee1 callee2 : sexp -> ddest -> cdest -> M unit)
      (node : sexp) (cd : cdest) :
  cg_input_body self_cg_form callee1 node DD_HL cd
  = cg_input_body self_cg_form callee2 node DD_HL cd.
Proof. reflexivity. Qed.

Lemma cg_input_unfold {repr : ObjRepr}
      (self_cg_form : sexp -> ddest -> cdest -> M unit)
      (node : sexp) (dd : ddest) (cd : cdest) :
  cg_input self_cg_form node dd cd
  = cg_input_body self_cg_form (cg_input self_cg_form) node dd cd.
Proof.
  unfold cg_input at 1. unfold cg_input_body at 1 3.
  unfold cg_input.
  rewrite (cg_input_body_hl self_cg_form
             (cg_input_body self_cg_form (fun _ _ _ => ret tt))
             (fun _ _ _ => ret tt) node CD_NEXT).
  reflexivity.
Qed.

(** ** The generator only extends its state

    The listing and the symbol table are append-only and the label counter
    never decreases, for every generator and hence for [cg_form]. *)

Lemma extends_refl (s : compiler) : extends s s.
Proof.
  split.
  - exists []. now rewrite app_nil_r.
  - exists []. now rewrite app_nil_r.
  - lia.
Qed.

Lemma extends_trans (s1 s2 s3 : compiler) :
  extends s1 s2 -> extends s2 s3 -> extends s1 s3.
Proof.
  intros [[l1 H1] [g1 G1] L1] [[l2 H2] [g2 G2] L2]. split.
  - exists (l1 ++ l2)%list. now rewrite H2, H1, app_assoc.
  - exists (g1 ++ g2)%list. now rewrite G2, G1, app_assoc.
  - lia.
Qed.

Lemma grows_ret {A} (a : A) : grows (ret a).
Proof. intros s a' s' H. inversion H; subst. apply extends_refl. Qed.

Lemma grows_raise {A} (e : exn) : grows (@raise A e).
Proof. intros s a s' H. discriminate H. Qed.

Lemma grows_lift {A} (r : res A) : grows (lift r).
Proof.
  intros s a s' H. unfold lift in H. destruct r; inversion H; subst.
  apply extends_refl.
Qed.

Lemma grows_bind {A B} (m : M A) (f : A -> M B) :
  grows m -> (forall a, grows (f a)) -> grows (bind m f).
Proof.
  intros Hm Hf s b s' H. unfold bind in H.
  destruct (m s) as [[a s1]|e] eqn:E; [|discriminate].
  eapply extends_trans; [eapply Hm, E | eapply Hf, H].
Qed.

Lemma grows_append_line (line : string) : grows (append_line line).
Proof.
  intros s a s' H. inversion H; subst. split; simpl.
  - now exists [line].
  - exists []. now rewrite app_nil_r.
  - lia.
Qed.

Lemma grows_append_global (name : sexp) : grows (append_global name).
Proof.
  intros s a s' H. inversion H; subst. split; simpl.
  - exists []. now rewrite app_nil_r.
  - now exists [name].
  - lia.
Qed.

Lemma grows_get_globals : grows get_globals.
Proof. intros s a s' H. inversion H; subst. apply extends_refl. Qed.

Lemma grows_make_label : grows make_label.
Proof.
  intros s a s' H. inversion H; subst. split; simpl.
  - exists []. now rewrite app_nil_r.
  - exists []. now rewrite app_nil_r.
  - lia.
Qed.

Lemma grows_with_car {A} (node : sexp) (k : sexp -> M A) :
  (forall a d, node = Pair a d -> grows (k a)) -> grows (with_car node k).
Proof.
  intros H. destruct node; simpl; try apply grows_raise. now apply (H _ node2).
Qed.

Lemma grows_with_cdr {A} (node : sexp) (k : sexp -> M A) :
  (forall a d, node = Pair a d -> grows (k d)) -> grows (with_cdr node k).
Proof.
  intros H. destruct node; simpl; try apply grows_raise. now apply (H node1).
Qed.

Lemma grows_repeat_gen (n : nat) (body : M unit) :
  grows body -> grows (repeat_gen n body).
Proof.
  intros Hb. induction n; simpl.
  - apply grows_ret.
  - apply grows_bind; auto.
Qed.

Create HintDb grows.
#[export] Hint Resolve grows_ret grows_raise grows_lift grows_append_line
  grows_append_global grows_get_globals grows_make_label : grows.

(** One step of a [grows] proof: a primitive, a sequencing, an attribute
    access, or a case split on what the generator tests. *)
Ltac grow_step :=
  first
    [ solve [auto with grows]
    | progress cbn [with_car with_cdr]
    | apply grows_bind; [| intros ?]
    | apply grows_with_car; intros ? ? ?; subst
    | apply grows_with_cdr; intros ? ? ?; subst
    | apply grows_repeat_gen
    | match goal with
      | |- grows (if ?b then _ else _) => destruct b
      | |- grows (match ?x with _ => _ end) => destruct x
      end ].

Ltac grow := repeat grow_step.

Section LeafGrowth.

Context {repr : ObjRepr}.

Lemma grows_cg_emit_label (l : option pyval) : grows (cg_emit_label l).
Proof. unfold cg_emit_label. grow. Qed.

Lemma grows_asm (l : option pyval) (mnem : string) (oper : option string) :
  grows (asm l mnem oper).
Proof. unfold asm. grow. apply grows_cg_emit_label. Qed.

Hint Resolve grows_cg_emit_label grows_asm : grows.

Lemma grows_cg_goto_int (n : Z) : grows (cg_goto_int n).
Proof. unfold cg_goto_int. grow. Qed.

Hint Resolve grows_cg_goto_int : grows.

Lemma grows_cg_goto (cd : cdest) : grows (cg_goto cd).
Proof.
  induction cd as [n | t IHt f IHf]; simpl.
  - apply grows_cg_goto_int.
  - grow.
Qed.

Hint Resolve grows_cg_goto : grows.

Lemma grows_reg_half (dd : ddest) (i : nat) : grows (reg_half dd i).
Proof. unfold reg_half. grow. Qed.

Hint Resolve grows_reg_half : grows.

Lemma grows_cg_op_pair (op1 op2 : string) (dd ds : ddest) :
  grows (cg_op_pair op1 op2 dd ds).
Proof. unfold cg_op_pair. grow. Qed.

Hint Resolve grows_cg_op_pair : grows.

Lemma grows_cg_ld16 (dd : ddest) (n : option pyval) : grows (cg_ld16 dd n).
Proof. unfold cg_ld16. grow. Qed.

Lemma grows_cg_ld16_r16 (dd ds : ddest) : grows (cg_ld16_r16 dd ds).
Proof. unfold cg_ld16_r16. grow. Qed.

Lemma grows_cg_ld16_gv (dd : ddest) (t : sexp) : grows (cg_ld16_gv dd t).
Proof. unfold cg_ld16_gv, cg_ld16_gv_reg. grow. Qed.

Lemma grows_cg_op16 (dd ds1 ds2 : ddest) (cd : cdest) (op1 op2 : string) :
  grows (cg_op16 dd ds1 ds2 cd op1 op2).
Proof. unfold cg_op16. grow. Qed.

Hint Resolve grows_cg_ld16 grows_cg_ld16_r16 grows_cg_ld16_gv
  grows_cg_op16 : grows.

Lemma grows_cg_call_libfn (fn_name : string) (cd : cdest) :
  grows (cg_call_libfn fn_name cd).
Proof. unfold cg_call_libfn. grow. Qed.

Hint Resolve grows_cg_call_libfn : grows.

Lemma grows_cg_add (dd ds1 ds2 : ddest) (cd : cdest) :
  grows (cg_add dd ds1 ds2 cd).
Proof. unfold cg_add. grow. Qed.

Lemma grows_cg_subtract (dd ds1 ds2 : ddest) (cd : cdest) :
  grows (cg_subtract dd ds1 ds2 cd).
Proof. unfold cg_subtract. grow. Qed.

Lemma grows_cg_bit_and (dd ds1 ds2 : ddest) (cd : cdest) :
  grows (cg_bit_and dd ds1 ds2 cd).
Proof. unfold cg_bit_and. grow. Qed.

Lemma grows_cg_bit_or (dd ds1 ds2 : ddest) (cd : cdest) :
  grows (cg_bit_or dd ds1 ds2 cd).
Proof. unfold cg_bit_or. grow. Qed.

Lemma grows_cg_bit_xor (dd ds1 ds2 : ddest) (cd : cdest) :
  grows (cg_bit_xor dd ds1 ds2 cd).
Proof. unfold cg_bit_xor. grow. Qed.

Lemma grows_cg_divide (dd ds1 ds2 : ddest) (cd : cdest) :
  grows (cg_divide dd ds1 ds2 cd).
Proof. unfold cg_divide. grow. Qed.

Lemma grows_cg_multiply (dd ds1 ds2 : ddest) (cd : cdest) :
  grows (cg_multiply dd ds1 ds2 cd).
Proof. unfold cg_multiply. grow. Qed.

End LeafGrowth.

#[export] Hint Resolve grows_cg_emit_label grows_asm grows_cg_goto_int
  grows_cg_goto grows_reg_half grows_cg_op_pair grows_cg_ld16
  grows_cg_ld16_r16 grows_cg_ld16_gv grows_cg_op16 grows_cg_call_libfn
  grows_cg_add grows_cg_subtract grows_cg_bit_and grows_cg_bit_or
  grows_cg_bit_xor grows_cg_divide grows_cg_multiply : grows.

Ltac grow_with tac := repeat first [tac | grow_step].

Section FormGrowth.

Context {repr : ObjRepr}.
Variable self_cg_form : sexp -> ddest -> cdest -> M unit.
Variable bound : nat.
Hypothesis self_grows :
  forall n dd cd, (size n < bound)%nat -> grows (self_cg_form n dd cd).

Ltac grow_forms :=
  unfold cdr_car, cdr_cdr_car, cdr_cdr_cdr_car, cdr_cdr_cdr, cdr_cdr;
  grow_with ltac:(apply self_grows; simpl in *; lia).

Lemma grows_cg_binop (op : emitter) (node : sexp) (dd : ddest) (cd : cdest) :
  (forall d s1 s2 c, grows (op d s1 s2 c)) ->
  (size node <= bound)%nat ->
  grows (cg_binop self_cg_form op node dd cd).
Proof. intros Hop Hsz. unfold cg_binop. grow_forms. Qed.

Lemma grows_do_variable_shift (cnt : sexp) (n_cnt : option Z) :
  (size cnt < bound)%nat ->
  grows (do_variable_shift self_cg_form cnt n_cnt).
Proof. intros Hsz. unfold do_variable_shift. grow_forms. Qed.

Lemma grows_cg_shift_right_logical (node : sexp) (dd : ddest) (cd : cdest) :
  (size node <= bound)%nat ->
  grows (cg_shift_right_logical self_cg_form node dd cd).
Proof.
  intros Hsz. unfold cg_shift_right_logical, cdr_car, cdr_cdr_car, cdr_cdr.
  grow_with ltac:(first
    [ apply self_grows; simpl in *; lia
    | apply grows_do_variable_shift; simpl in *; lia ]).
Qed.

Lemma grows_cg_highbyte (node : sexp) (dd : ddest) (cd : cdest) :
  (size node <= bound)%nat -> grows (cg_highbyte self_cg_form node dd cd).
Proof. intros Hsz. unfold cg_highbyte. grow_forms. Qed.

Lemma grows_cg_lowbyte (node : sexp) (dd : ddest) (cd : cdest) :
  (size node <= bound)%nat -> grows (cg_lowbyte self_cg_form node dd cd).
Proof. intros Hsz. unfold cg_lowbyte. grow_forms. Qed.

Lemma grows_cg_input_body (self_cg_input : sexp -> ddest -> cdest -> M unit)
      (node : sexp) (dd : ddest) (cd : cdest) :
  (forall d c, grows (self_cg_input node d c)) ->
  (size node <= bound)%nat ->
  grows (cg_input_body self_cg_form self_cg_input node dd cd).
Proof. intros Hin Hsz. unfold cg_input_body. grow_forms. Qed.

Lemma grows_cg_input (node : sexp) (dd : ddest) (cd : cdest) :
  (size node <= bound)%nat -> grows (cg_input self_cg_form node dd cd).
Proof.
  intros Hsz. unfold cg_input.
  apply grows_cg_input_body; auto. intros d c.
  apply grows_cg_input_body; auto. intros; apply grows_ret.
Qed.

Lemma grows_cg_output (node : sexp) (dd : ddest) (cd : cdest) :
  (size node <= bound)%nat -> grows (cg_output self_cg_form node dd cd).
Proof. intros Hsz. unfold cg_output, cg_push_hl, cg_pop_de. grow_forms. Qed.

Lemma grows_cg_peek (node : sexp) (dd : ddest) (cd : cdest) :
  (size node <= bound)%nat -> grows (cg_peek self_cg_form node dd cd).
Proof. intros Hsz. unfold cg_peek. grow_forms. Qed.

Lemma grows_cg_poke (node : sexp) (dd : ddest) (cd : cdest) :
  (size node <= bound)%nat -> grows (cg_poke self_cg_form node dd cd).
Proof. intros Hsz. unfold cg_poke, cg_push_hl, cg_pop_de. grow_forms. Qed.

Lemma grows_cg_address_of (node : sexp) (dd : ddest) (cd : cdest) :
  grows (cg_address_of node dd cd).
Proof. unfold cg_address_of. grow. Qed.

Lemma grows_cg_statements_loop (node : sexp) (dd : ddest) (cd : cdest)
      (handled : bool) :
  (size node <= bound)%nat ->
  grows (cg_statements_loop self_cg_form node dd cd handled).
Proof.
  revert handled.
  induction node as [t | | a IHa d IHd]; intros handled Hsz; simpl.
  - apply grows_raise.
  - apply grows_ret.
  - simpl in Hsz.
    destruct d; (apply grows_bind;
      [apply self_grows; simpl; lia | intros _; apply IHd; simpl in *; lia]).
Qed.

Lemma grows_cg_statements (node : sexp) (dd : ddest) (cd : cdest) :
  (size node <= bound)%nat ->
  grows (cg_statements self_cg_form node dd cd).
Proof.
  intros Hsz. unfold cg_statements. apply grows_bind.
  - now apply grows_cg_statements_loop.
  - intros handled. grow.
Qed.

Lemma grows_cg_sub (node : sexp) (dd : ddest) (cd : cdest) :
  (size node <= bound)%nat -> grows (cg_sub self_cg_form node dd cd).
Proof.
  intros Hsz. unfold cg_sub, cdr_car, cdr_cdr.
  grow_with ltac:(apply grows_cg_statements; simpl in *; lia).
Qed.

Lemma grows_cg_if (node : sexp) (dd : ddest) (cd : cdest) :
  (size node <= bound)%nat -> grows (cg_if self_cg_form node dd cd).
Proof. intros Hsz. unfold cg_if. grow_forms. Qed.

Lemma grows_declare_variables_loop (varlist : sexp) :
  grows (declare_variables_loop varlist).
Proof.
  induction varlist as [t | | a IHa d IHd]; simpl.
  - apply grows_raise.
  - apply grows_ret.
  - grow.
Qed.

Lemma grows_declare_variables (node : sexp) : grows (declare_variables node).
Proof.
  unfold declare_variables.
  grow_with ltac:(apply grows_declare_variables_loop).
Qed.

Lemma grows_cg_set_var (node : sexp) (dd : ddest) (cd : cdest) :
  (size node <= bound)%nat -> grows (cg_set_var self_cg_form node dd cd).
Proof. intros Hsz. unfold cg_set_var. grow_forms. Qed.

Lemma grows_cg_literal (n : option pyval) (dd : ddest) (cd : cdest) :
  grows (cg_literal n dd cd).
Proof. unfold cg_literal. grow. Qed.

Lemma grows_cg_atom (node : sexp) (dd : ddest) (cd : cdest) :
  grows (cg_atom node dd cd).
Proof. unfold cg_atom. grow_with ltac:(apply grows_cg_literal). Qed.

Lemma grows_cg_pair (node : sexp) (dd : ddest) (cd : cdest) :
  (size node <= bound)%nat -> grows (cg_pair self_cg_form node dd cd).
Proof.
  intros Hsz. unfold cg_pair.
  apply grows_with_car; intros head rest ->.
  repeat match goal with
         | |- grows (if is_str ?h ?t then _ else _) => destruct (is_str h t)
         end.
  all: try solve [apply grows_cg_binop; auto with grows].
  - apply grows_declare_variables.
  - now apply grows_cg_set_var.
  - now apply grows_cg_if.
  - now apply grows_cg_sub.
  - simpl. apply grows_cg_statements. simpl in Hsz; lia.
  - apply grows_cg_address_of.
  - now apply grows_cg_poke.
  - now apply grows_cg_peek.
  - now apply grows_cg_output.
  - now apply grows_cg_input.
  - now apply grows_cg_highbyte.
  - now apply grows_cg_lowbyte.
  - now apply grows_cg_shift_right_logical.
  - unfold cg_shift_left. auto with grows.
  - grow.
Qed.

Lemma grows_cg_form_body (node : sexp) (dd : ddest) (cd : cdest) :
  (size node <= bound)%nat -> grows (cg_form_body self_cg_form node dd cd).
Proof.
  intros Hsz. unfold cg_form_body. destruct (is_pair node).
  - now apply grows_cg_pair.
  - apply grows_cg_atom.
Qed.

End FormGrowth.

Lemma grows_cg_form_bounded {repr : ObjRepr} (k : nat) :
  forall node dd cd, (size node < k)%nat -> grows (cg_form node dd cd).
Proof.
  induction k as [|k IH]; intros node dd cd Hsz; [lia|].
  rewrite cg_form_unfold.
  assert (Hbody : forall d c, grows (cg_form_body cg_form node d c)).
  { intros d c. apply grows_cg_form_body with (bound := size node); [|lia].
    intros n d' c' Hn. apply IH. lia. }
  destruct (dd_eqb dd DD_ZFLAG); grow; apply Hbody.
Qed.

(** The listing and the symbol table are append-only and the label counter
    is non-decreasing across any successful call of [cg_form]. *)
Lemma cg_form_grows {repr : ObjRepr} (node : sexp) (dd : ddest) (cd : cdest) :
  grows (cg_form node dd cd).
Proof. apply (grows_cg_form_bounded (S (size node))). lia. Qed.

(** ** Generators that only emit lines *)

Lemma with_lines_nil (s : compiler) : with_lines s [] = s.
Proof. destruct s. unfold with_lines. simpl. now rewrite app_nil_r. Qed.

Lemma with_lines_app (s : compiler) (l1 l2 : list string) :
  with_lines (with_lines s l1) l2 = with_lines s (l1 ++ l2).
Proof. unfold with_lines. simpl. now rewrite app_assoc. Qed.

Lemma skipn_length_app {A} (l tail : list A) :
  skipn (List.length l) (l ++ tail) = tail.
Proof. induction l; simpl; auto. Qed.

Lemma emits_ret : emits (ret tt) (Ok []).
Proof. intros s. now rewrite with_lines_nil. Qed.

Lemma emits_raise (e : exn) : emits (raise e) (Raise e).
Proof. intros s. reflexivity. Qed.

Lemma emits_append_line (line : string) : emits (append_line line) (Ok [line]).
Proof. intros s. reflexivity. Qed.

Lemma emits_seq (m k : M unit) (r1 r2 : res (list string)) :
  emits m r1 -> emits k r2 -> emits (m ;; k) (then_lines r1 r2).
Proof.
  intros Hm Hk s. unfold bind. rewrite Hm.
  destruct r1 as [l1|e1]; simpl; [|reflexivity].
  rewrite Hk. destruct r2 as [l2|e2]; simpl; [|reflexivity].
  now rewrite with_lines_app.
Qed.

Lemma emits_lift {A} (r : res A) (k : A -> M unit) (rk : A -> res (list string)) :
  (forall a, emits (k a) (rk a)) ->
  emits (x <- lift r ;; k x) (res_bind r rk).
Proof.
  intros Hk s. unfold bind, lift. destruct r as [a|e]; simpl; [|reflexivity].
  apply Hk.
Qed.

Lemma emits_lines_of (m : M unit) (r : res (list string)) (s : compiler) :
  emits m r -> lines_of m s = r.
Proof.
  intros Hm. unfold lines_of. rewrite Hm. destruct r; [|reflexivity].
  simpl. now rewrite skipn_length_app.
Qed.

Section LeafEmission.

Context {repr : ObjRepr}.

Lemma emits_asm (mnem : string) (oper : option string) :
  emits (asm None mnem oper) (Ok [instr mnem oper]).
Proof. intros s. reflexivity. Qed.

Lemma emits_cg_goto_int (n : Z) : exists r, emits (cg_goto_int n) r.
Proof.
  unfold cg_goto_int.
  destruct (n =? 1); [eexists; apply emits_ret|].
  destruct (n =? 0); [eexists; apply emits_asm|].
  destruct (CD_LABEL <=? n); eexists; [apply emits_asm | apply emits_raise].
Qed.

(** What [cg_goto] emits depends on the control destination only. *)
Lemma emits_cg_goto (cd : cdest) : exists r, emits (cg_goto cd) r.
Proof.
  induction cd as [n | t _ f [rf IHf]]; simpl.
  - apply emits_cg_goto_int.
  - destruct (cd_eqb t CD_NEXT).
    + destruct (cd_eqb f CD_NEXT); [eexists; apply emits_ret|].
      destruct (cd_eqb f CD_RET); eexists; apply emits_asm.
    + destruct (cd_eqb t CD_RET); [|eexists; apply emits_ret].
      destruct (cd_eqb f CD_NEXT); [eexists; apply emits_asm|].
      destruct (cd_eqb f CD_RET); [apply emits_cg_goto_int|].
      eexists. apply emits_seq; [apply emits_asm | apply IHf].
Qed.

Lemma emits_cg_op_pair (op1 op2 : string) (dd ds : ddest) :
  exists r, emits (cg_op_pair op1 op2 dd ds) r.
Proof.
  unfold cg_op_pair. eexists.
  eapply emits_lift; intros src.
  eapply emits_lift; intros dst.
  eapply emits_lift; intros d1.
  eapply emits_lift; intros s1.
  apply emits_seq; [apply emits_asm|].
  eapply emits_lift; intros d0.
  eapply emits_lift; intros s0.
  apply emits_asm.
Qed.

(** Likewise for the register-to-register move. *)
Lemma emits_cg_ld16_r16 (dd ds : ddest) : exists r, emits (cg_ld16_r16 dd ds) r.
Proof.
  unfold cg_ld16_r16.
  destruct (dd_eqb ds dd); [eexists; apply emits_ret|].
  destruct (negb (dd_eqb dd DD_A)); [apply emits_cg_op_pair|].
  unfold reg_half. eexists.
  eapply emits_lift; intros lo.
  apply emits_asm.
Qed.

End LeafEmission.

(** ** The [DD_ZFLAG] destination *)

Lemma cg_form_zflag_run {repr : ObjRepr} (node : sexp) (cd : cdest) :
  cg_form node DD_ZFLAG cd =
  (cg_form node DD_HL CD_NEXT ;;
   asm None "LD" (Some "A,L") ;;
   asm None "OR" (Some "A,H") ;;
   cg_goto cd).
Proof.
  rewrite (cg_form_unfold node DD_ZFLAG).
  rewrite (cg_form_not_zflag node DD_HL CD_NEXT) by discriminate.
  reflexivity.
Qed.

(** C3. For every node and every control destination, generating with
    [dd = DD_ZFLAG] behaves as generating the node with [(DD_HL, CD_NEXT)],
    then [LD A,L], [OR A,H], then [cg_goto cd]; the lines it appends are
    the lines of the [(DD_HL, CD_NEXT)] run, followed by these two
    instructions, followed by the lines of [cg_goto cd] (which are the
    same from any state [s0]).  When either part raises, so does the
    whole. *)
Theorem zflag_appends_hl_lines_then_test_then_goto
        {repr : ObjRepr} (node : sexp) (cd : cdest) (s s0 : compiler) :
  cg_form node DD_ZFLAG cd s =
    (cg_form node DD_HL CD_NEXT ;;
     asm None "LD" (Some "A,L") ;;
     asm None "OR" (Some "A,H") ;;
     cg_goto cd) s
  /\ lines_of (cg_form node DD_ZFLAG cd) s =
     res_bind (lines_of (cg_form node DD_HL CD_NEXT) s) (fun body =>
     res_bind (lines_of (cg_goto cd) s0) (fun tail =>
       Ok (body ++ ["    LD     A,L"; "    OR     A,H"] ++ tail)%list)).
Proof.
  split; [now rewrite cg_form_zflag_run|].
  destruct (emits_cg_goto cd) as [r Hr].
  rewrite (emits_lines_of _ _ s0 Hr).
  unfold lines_of at 1. rewrite cg_form_zflag_run. unfold lines_of, bind.
  destruct (cg_form node DD_HL CD_NEXT s) as [[[] s1]|e] eqn:E; [|reflexivity].
  destruct (cg_form_grows node DD_HL CD_NEXT _ _ _ E) as [[body Hbody] _ _].
  rewrite !emits_asm. rewrite Hr. rewrite Hbody, skipn_length_app.
  destruct r as [tail|e]; [|reflexivity].
  simpl. rewrite Hbody, <- !app_assoc, skipn_length_app. reflexivity.
Qed.

(** ** Scenario: Fahrenheit to Celsius *)

(** C4. The top-level form [fahrenheit], that is [( * (/ (- 101 32) 180) 100)]
    (the product of a quotient and 100), generated with
    [dd = DD_HL] and [cd = CD_RET], yields the listing below: it contains
    the byte-wise subtraction sequence, later a [CALL divide_HL_DE], and
    its final line is [JP multiply_HL_DE]. *)
Theorem fahrenheit_listing {repr : ObjRepr} :
  exists listing pre mid post,
    lines_of (cg_form fahrenheit DD_HL CD_RET) init_compiler = Ok listing
    /\ compile [fahrenheit] = Ok listing
    /\ listing =
       ["    LD     HL,100"; "    PUSH   HL"; "    LD     HL,180";
        "    PUSH   HL"; "    LD     DE,32"; "    LD     HL,101";
        "    LD     A,L"; "    SUB    A,E"; "    LD     L,A";
        "    LD     A,H"; "    SBC    A,D"; "    LD     H,A";
        "    POP    DE"; "    CALL   divide_HL_DE"; "    POP    DE";
        "    JP     multiply_HL_DE"]
    /\ listing =
       (pre ++ subtract_hl_de ++ mid ++ ["    CALL   divide_HL_DE"] ++ post)%list
    /\ last listing "" = "    JP     multiply_HL_DE".
Proof.
  eexists.
  exists ["    LD     HL,100"; "    PUSH   HL"; "    LD     HL,180";
          "    PUSH   HL"; "    LD     DE,32"; "    LD     HL,101"].
  exists ["    POP    DE"].
  exists ["    POP    DE"; "    JP     multiply_HL_DE"].
  split; [vm_compute; reflexivity|].
  repeat split; reflexivity.
Qed.

(** ** Statement sequences *)

Lemma cg_statements_loop_proper
      (self_cg_form : sexp -> ddest -> cdest -> M unit)
      (init : list sexp) (last : sexp) (dd : ddest) (cd : cdest) :
  forall handled s,
    cg_statements_loop self_cg_form (slist (init ++ [last])) dd cd handled s =
    (run_each self_cg_form init ;; self_cg_form last dd cd ;; ret true) s.
Proof.
  induction init as [|stmt init IH]; intros handled s.
  - reflexivity.
  - assert (Hstep :
      cg_statements_loop self_cg_form (slist ((stmt :: init) ++ [last]))
                         dd cd handled s
      = (self_cg_form stmt DD_HL CD_NEXT ;;
         cg_statements_loop self_cg_form (slist (init ++ [last]))
                            dd cd handled) s)
      by (destruct init; reflexivity).
    rewrite Hstep. cbn [run_each]. unfold bind at 1 2 3.
    destruct (self_cg_form stmt DD_HL CD_NEXT s) as [[[] s1]|e]; [|reflexivity].
    rewrite IH. reflexivity.
Qed.

(** [cg_statements] on a non-empty proper list: every statement but the
    last is generated with [(DD_HL, CD_NEXT)], the last with the [(dd, cd)]
    that [cg_statements] was given. *)
Lemma cg_statements_proper
      (self_cg_form : sexp -> ddest -> cdest -> M unit)
      (init : list sexp) (last : sexp) (dd : ddest) (cd : cdest) :
  cg_statements self_cg_form (slist (init ++ [last])) dd cd =r=
  (run_each self_cg_form init ;; self_cg_form last dd cd).
Proof.
  intros s. unfold cg_statements, bind at 1.
  rewrite cg_statements_loop_proper. unfold bind.
  destruct (run_each self_cg_form init s) as [[[] s1]|e]; [|reflexivity].
  destruct (self_cg_form last dd cd s1) as [[[] s2]|e]; reflexivity.
Qed.

(** The [do] branch of [cg_form] hands [CD_RET] to [cg_statements],
    whatever control destination it was called with. *)
Lemma do_form_ignores_cd {repr : ObjRepr}
      (stmts : sexp) (dd : ddest) (cd : cdest) :
  dd <> DD_ZFLAG ->
  cg_form (Pair (Atom "do") stmts) dd cd
  = cg_statements cg_form stmts dd CD_RET.
Proof. intros Hdd. now rewrite cg_form_not_zflag. Qed.

(** C2, evaluated at [(do 1)] with [dd = DD_HL] and [cd = CD_NEXT]: the
    last statement is generated with [CD_RET], not with the enclosing
    [CD_NEXT], so a [RET] follows the load; generated on its own with
    [CD_NEXT] the statement emits the load only. *)
Theorem do_with_next_still_returns {repr : ObjRepr} :
  lines_of (cg_form do_one DD_HL CD_NEXT) init_compiler
  = Ok ["    LD     HL,1"; "    RET    "]
  /\ lines_of (cg_form do_one DD_HL CD_NEXT) init_compiler
     = lines_of (cg_form (Atom "1") DD_HL CD_RET) init_compiler
  /\ lines_of (cg_form (Atom "1") DD_HL CD_NEXT) init_compiler
     = Ok ["    LD     HL,1"].
Proof. repeat split; vm_compute; reflexivity. Qed.

(** ** Binary operators *)

Lemma cg_binop_run {repr : ObjRepr}
      (op : emitter) (head a b rest : sexp) (dd : ddest) (cd : cdest) :
  cg_binop cg_form op (Pair head (Pair a (Pair b rest))) dd cd
  = binop_by_first_operand op a b dd cd.
Proof.
  unfold cg_binop, binop_by_first_operand, cdr_car, cdr_cdr_car, cdr_cdr.
  cbn [with_car with_cdr]. destruct (is_pair a); reflexivity.
Qed.

Lemma cg_pair_binop {repr : ObjRepr}
      (self_cg_form : sexp -> ddest -> cdest -> M unit)
      (head : string) (op : emitter) (rest : sexp) (dd : ddest) (cd : cdest) :
  binop_emitter head = Some op ->
  cg_pair self_cg_form (Pair (Atom head) rest) dd cd
  = cg_binop self_cg_form op (Pair (Atom head) rest) dd cd.
Proof.
  unfold binop_emitter, cg_pair. cbn [with_car is_str]. intros H.
  repeat match type of H with
         | (if String.eqb head ?t then _ else _) = _ =>
             destruct (String.eqb head t);
             [injection H as <-; reflexivity|]
         end.
  discriminate H.
Qed.

(** C1, as amended.  For [(op A B)] with [op] one of [+ - * / & | ^]:
    [cg_binop] looks at the FIRST operand.  When [A] is a pair it generates
    [B] into [HL], pushes [HL], generates [A] into [HL] and pops [DE]; when
    [A] is not a pair it generates [B] into [DE] and then [A] into [HL]; in
    both cases the operator's emitter then runs with sources [(HL, DE)] and
    the [dd] and [cd] that [cg_binop] received, which are those of
    [cg_form] whenever [dd] is not [DD_ZFLAG]. *)
Theorem binop_chooses_by_first_operand {repr : ObjRepr}
        (head : string) (op : emitter) (a b rest : sexp) :
  binop_emitter head = Some op ->
  (forall dd cd,
      cg_binop cg_form op (Pair (Atom head) (Pair a (Pair b rest))) dd cd
      = binop_by_first_operand op a b dd cd)
  /\ (forall dd cd,
         dd <> DD_ZFLAG ->
         cg_form (Pair (Atom head) (Pair a (Pair b rest))) dd cd
         = binop_by_first_operand op a b dd cd).
Proof.
  intros Hop. split; intros dd cd.
  - apply cg_binop_run.
  - intros Hdd. rewrite cg_form_not_zflag by assumption.
    unfold cg_form_body. cbn [is_pair].
    rewrite (cg_pair_binop _ _ _ _ _ _ Hop). apply cg_binop_run.
Qed.

Lemma binop_chooses_by_first_operand_witness :
  binop_emitter "+" = Some cg_add
  /\ lines_of (cg_form nested_sum DD_HL CD_RET) init_compiler
     = lines_of (binop_by_first_operand cg_add (Atom "1")
                   (slist [Atom "+"; Atom "2"; Atom "3"]) DD_HL CD_RET)
                init_compiler.
Proof.
  split; [reflexivity|].
  unfold nested_sum. cbn [slist].
  rewrite (proj2 (binop_chooses_by_first_operand
                    "+" cg_add (Atom "1")
                    (Pair (Atom "+") (Pair (Atom "2") (Pair (Atom "3") Nil)))
                    Nil eq_refl) DD_HL CD_RET) by discriminate.
  reflexivity.
Defined.

(** C1 as stated fails: in [(+ 1 (+ 2 3))] the second operand is a pair,
    yet nothing is pushed: the second operand goes to [DE] directly.  In
    [(+ (+ 2 3) 1)] the second operand is an atom, yet it is generated into
    [HL] and pushed. *)
Lemma binop_second_operand_counterexample :
  lines_of (cg_form nested_sum DD_HL CD_RET) init_compiler
  = Ok ["    LD     DE,3"; "    LD     HL,2"; "    LD     A,L";
        "    ADD    A,E"; "    LD     E,A"; "    LD     A,H";
        "    ADC    A,D"; "    LD     D,A"; "    LD     HL,1";
        "    ADD    HL,DE"; "    RET    "]
  /\ lines_of (cg_form nested_sum DD_HL CD_RET) init_compiler
     <> lines_of (binop_by_second_operand cg_add (Atom "1")
                    (slist [Atom "+"; Atom "2"; Atom "3"]) DD_HL CD_RET)
                 init_compiler
  /\ lines_of (cg_form nested_sum_left DD_HL CD_RET)
              init_compiler
     = Ok ["    LD     HL,1"; "    PUSH   HL"; "    LD     DE,3";
           "    LD     HL,2"; "    ADD    HL,DE"; "    POP    DE";
           "    ADD    HL,DE"; "    RET    "]
  /\ lines_of (cg_form nested_sum_left DD_HL CD_RET)
              init_compiler
     <> lines_of (binop_by_second_operand cg_add
                    (slist [Atom "+"; Atom "2"; Atom "3"]) (Atom "1")
                    DD_HL CD_RET)
                 init_compiler.
Proof.
  repeat split; try (vm_compute; reflexivity); vm_compute; discriminate.
Qed.

(** ** Lines of a generator followed by fixed emissions *)

Lemma lines_of_seq_emits (m k : M unit) (r : res (list string)) (s : compiler) :
  grows m -> emits k r ->
  lines_of (m ;; k) s = then_lines (lines_of m s) r.
Proof.
  intros Hm Hk. unfold lines_of, bind.
  destruct (m s) as [[[] s1]|e] eqn:E; [|reflexivity].
  destruct (Hm _ _ _ E) as [[body Hbody] _ _].
  rewrite Hk, Hbody, skipn_length_app.
  destruct r as [tail|e]; [|reflexivity].
  simpl. now rewrite Hbody, <- app_assoc, skipn_length_app.
Qed.

Lemma same_run_lines {A} (m1 m2 : M A) (s : compiler) :
  m1 =r= m2 -> lines_of m1 s = lines_of m2 s.
Proof. intros H. unfold lines_of. now rewrite H. Qed.

(** ** Byte extraction and right shift ignore [dd] *)

Lemma cg_highbyte_run {repr : ObjRepr}
      (head e rest : sexp) (dd : ddest) (cd : cdest) :
  cg_highbyte cg_form (Pair head (Pair e rest)) dd cd
  = (cg_form e DD_HL CD_NEXT ;;
     asm None "LD" (Some "L,H") ;;
     asm None "LD" (Some "H,0") ;;
     cg_goto cd).
Proof. reflexivity. Qed.

Lemma cg_lowbyte_run {repr : ObjRepr}
      (head e rest : sexp) (dd : ddest) (cd : cdest) :
  cg_lowbyte cg_form (Pair head (Pair e rest)) dd cd
  = (cg_form e DD_HL CD_NEXT ;;
     asm None "LD" (Some "H,0") ;;
     cg_goto cd).
Proof. reflexivity. Qed.

(** Through the dispatcher, for any two destinations other than
    [DD_ZFLAG], the three forms generate alike. *)
Lemma cg_form_byte_shift_ignore_dd {repr : ObjRepr}
      (head : string) (rest : sexp) (dd1 dd2 : ddest) (cd : cdest) :
  In head ["highbyte"; "lowbyte"; ">>"] ->
  dd1 <> DD_ZFLAG -> dd2 <> DD_ZFLAG ->
  cg_form (Pair (Atom head) rest) dd1 cd
  = cg_form (Pair (Atom head) rest) dd2 cd.
Proof.
  intros Hin H1 H2. rewrite !cg_form_not_zflag by assumption.
  simpl in Hin. destruct Hin as [<-|[<-|[<-|[]]]]; reflexivity.
Qed.

(** ** Assignment *)

Lemma cg_set_var_run {repr : ObjRepr}
      (head e rest : sexp) (v : string) (dd : ddest) (cd : cdest) :
  cg_set_var cg_form (Pair head (Pair (Atom v) (Pair e rest))) dd cd
  = (cg_form e DD_HL CD_NEXT ;;
     asm None "LD" (Some ("(" ++ v ++ "),HL")) ;;
     cg_ld16_r16 dd DD_HL ;;
     cg_goto cd).
Proof. reflexivity. Qed.

(** C9. [(set V EXPR)] never looks [V] up.  For every destination pair
    there is one fixed continuation [after] (the lines of the move into
    [dd] and of [cg_goto cd], or the exception they raise) such that, for
    every name [V], declared or not, every [EXPR] and every state: the run
    raises what generating [EXPR] into [HL] raises; otherwise it appends,
    after the lines of [EXPR], the line [LD (V),HL] and then [after].
    Through [cg_form] the same holds whenever [dd] is not [DD_ZFLAG]. *)
Theorem set_never_checks_target {repr : ObjRepr} (dd : ddest) (cd : cdest) :
  exists after : res (list string),
    after = lines_of (cg_ld16_r16 dd DD_HL ;; cg_goto cd) init_compiler
    /\ forall (head e rest : sexp) (v : string) (s : compiler),
      cg_set_var cg_form (Pair head (Pair (Atom v) (Pair e rest))) dd cd s
      = match cg_form e DD_HL CD_NEXT s with
        | Raise x => Raise x
        | Ok (_, s1) =>
            match after with
            | Ok ls =>
                Ok (tt, with_lines s1 (("    LD     (" ++ v ++ "),HL") :: ls))
            | Raise x => Raise x
            end
        end
      /\ (dd <> DD_ZFLAG ->
          cg_form (Pair (Atom "set") (Pair (Atom v) (Pair e rest))) dd cd s
          = cg_set_var cg_form
              (Pair (Atom "set") (Pair (Atom v) (Pair e rest))) dd cd s).
Proof.
  destruct (emits_cg_ld16_r16 dd DD_HL) as [r1 H1].
  destruct (emits_cg_goto cd) as [r2 H2].
  pose proof (emits_seq _ _ _ _ H1 H2) as H12.
  exists (then_lines r1 r2). split.
  - symmetry. now apply emits_lines_of.
  - intros head e rest v s. split.
    + rewrite cg_set_var_run. unfold bind at 1.
      destruct (cg_form e DD_HL CD_NEXT s) as [[[] s1]|x]; [|reflexivity].
      pose proof (emits_seq _ _ _ _
                    (emits_asm "LD" (Some ("(" ++ v ++ "),HL"))) H12 s1) as H.
      cbv beta in H. rewrite H.
      destruct (then_lines r1 r2); reflexivity.
    + intros Hdd. now rewrite cg_form_not_zflag.
Qed.

Lemma set_never_checks_target_witness :
  py_in (Atom "Y") (globals init_compiler) = false
  /\ cg_form set_y_5 DD_HL CD_RET init_compiler
     = Ok (tt, with_lines init_compiler
                 ["    LD     HL,5"; "    LD     (Y),HL"; "    RET    "]).
Proof.
  split; [reflexivity|].
  destruct (set_never_checks_target DD_HL CD_RET) as [after [Hafter H]].
  destruct (H (Atom "set") (Atom "5") Nil "Y" init_compiler) as [Hrun Hform].
  unfold set_y_5. cbn [slist].
  rewrite Hform by discriminate. rewrite Hrun, Hafter. reflexivity.
Defined.

(** ** Declarations *)

Lemma declare_one_fresh {repr : ObjRepr} (head : sexp) (x : string)
      (s : compiler) :
  py_in (Atom x) (globals s) = false ->
  declare_variables (Pair head (Pair (Atom x) Nil)) s = Ok (tt, declared s x).
Proof.
  intros Hfresh. unfold declare_variables. cbn [with_cdr].
  cbn [declare_variables_loop with_car].
  unfold bind, get_globals. rewrite Hfresh. unfold declared. simpl.
  now rewrite <- app_assoc.
Qed.

(** C7. When [X] is not in the symbol table, [(int16 X)] appends exactly
    the lines [X:] and [DEFW 0] (and records [X]); no [RET] follows, for
    any control destination, [CD_RET] included.  When [X] is in the symbol
    table, [(int16 X ...)] and [(sub X ...)] raise the redeclaration
    [ValueError], which nothing catches. *)
Theorem declaration_lines_and_redeclaration {repr : ObjRepr}
        (x : string) (s : compiler) :
  (py_in (Atom x) (globals s) = false ->
   declare_variables (Pair (Atom "int16") (Pair (Atom x) Nil)) s
   = Ok (tt, declared s x)
   /\ (forall dd cd,
          dd <> DD_ZFLAG ->
          cg_form (Pair (Atom "int16") (Pair (Atom x) Nil)) dd cd s
          = Ok (tt, declared s x)
          /\ lines_of (cg_form (Pair (Atom "int16") (Pair (Atom x) Nil)) dd cd) s
             = Ok [x ++ ":"; "    DEFW   0"]))
  /\ (py_in (Atom x) (globals s) = true ->
      forall rest dd cd,
        cg_form (Pair (Atom "int16") (Pair (Atom x) rest)) dd cd s
        = Raise (ValueError ("Variable already defined: " ++ x))
        /\ cg_form (Pair (Atom "sub") (Pair (Atom x) rest)) dd cd s
           = Raise (ValueError ("Symbol already defined: " ++ x))).
Proof.
  split.
  - intros Hfresh. split; [now apply declare_one_fresh|].
    intros dd cd Hdd. rewrite cg_form_not_zflag by assumption.
    assert (Hrun :
      cg_form_body cg_form (Pair (Atom "int16") (Pair (Atom x) Nil)) dd cd s
      = Ok (tt, declared s x)) by now apply declare_one_fresh.
    split; [exact Hrun|].
    unfold lines_of. rewrite Hrun. simpl. now rewrite skipn_length_app.
  - intros Hdecl rest dd cd.
    assert (Hint : forall d c,
      cg_form_body cg_form (Pair (Atom "int16") (Pair (Atom x) rest)) d c s
      = Raise (ValueError ("Variable already defined: " ++ x))).
    { intros d c. unfold cg_form_body, cg_pair, declare_variables.
      cbn [is_pair with_car with_cdr is_str String.eqb Ascii.eqb Bool.eqb].
      cbn [declare_variables_loop with_car].
      unfold bind, get_globals. now rewrite Hdecl. }
    assert (Hsub : forall d c,
      cg_form_body cg_form (Pair (Atom "sub") (Pair (Atom x) rest)) d c s
      = Raise (ValueError ("Symbol already defined: " ++ x))).
    { intros d c. unfold cg_form_body, cg_pair, cg_sub, cdr_car, cdr_cdr.
      cbn [is_pair with_car with_cdr is_str String.eqb Ascii.eqb Bool.eqb].
      unfold bind, get_globals. now rewrite Hdecl. }
    rewrite !cg_form_unfold.
    destruct (dd_eqb dd DD_ZFLAG); [|now split].
    split; unfold bind at 1; [now rewrite Hint | now rewrite Hsub].
Qed.

Lemma declaration_lines_and_redeclaration_witness :
  py_in (Atom "X") (globals init_compiler) = false
  /\ lines_of (cg_form int16_x DD_HL CD_RET) init_compiler
     = Ok ["X:"; "    DEFW   0"]
  /\ py_in (Atom "X") (globals (declared init_compiler "X")) = true
  /\ cg_form int16_x DD_HL CD_RET (declared init_compiler "X")
     = Raise (ValueError "Variable already defined: X")
  /\ cg_form sub_x DD_HL CD_RET (declared init_compiler "X")
     = Raise (ValueError "Symbol already defined: X").
Proof.
  split; [reflexivity|]. split.
  - exact (proj2 (proj2 (proj1 (declaration_lines_and_redeclaration
                                  "X" init_compiler) eq_refl)
                    DD_HL CD_RET ltac:(discriminate))).
  - split; [reflexivity|].
    exact (proj2 (declaration_lines_and_redeclaration
                    "X" (declared init_compiler "X")) eq_refl Nil DD_HL CD_RET).
Defined.

(** Nothing catches the exception: the whole compilation ends with it. *)
Example redeclaration_is_fatal :
  compile [int16_x; int16_x] = Raise (ValueError "Variable already defined: X")
  /\ compile [int16_x; sub_x] = Raise (ValueError "Symbol already defined: X").
Proof. split; reflexivity. Qed.

(** ** Labels *)

Lemma label_inv_init : label_inv init_compiler.
Proof. unfold label_inv, init_compiler, CD_LABEL. simpl. lia. Qed.

Lemma label_inv_extends (s s' : compiler) :
  extends s s' -> label_inv s -> label_inv s'.
Proof. intros [_ _ H] Hs. unfold label_inv in *. lia. Qed.

(** C8, as amended.  Label ids are greater than OR EQUAL TO [CD_LABEL]:
    the counter is at least [CD_LABEL - 1] initially and after every
    successful generation; under that invariant [make_label] returns the
    new counter value, which is at least [CD_LABEL]; a later call, directly
    or after generating any form, returns a strictly greater id; and the
    label [id] is emitted as the line [L<id>:]. *)
Theorem labels_from_CD_LABEL_increasing {repr : ObjRepr} :
  label_inv init_compiler
  /\ (forall node dd cd s s',
         label_inv s -> cg_form node dd cd s = Ok (tt, s') -> label_inv s')
  /\ (forall s id1 s1,
         label_inv s ->
         make_label s = Ok (id1, s1) ->
         CD_LABEL <= id1
         /\ next_label s1 = id1
         /\ label_inv s1
         /\ (forall id2 s2, make_label s1 = Ok (id2, s2) -> id1 < id2)
         /\ (forall node dd cd s2 id2 s3,
                cg_form node dd cd s1 = Ok (tt, s2) ->
                make_label s2 = Ok (id2, s3) ->
                id1 < id2)
         /\ emits (cg_emit_label (Some (PInt id1)))
                  (Ok [("L" ++ str_of_int id1) ++ ":"])).
Proof.
  split; [apply label_inv_init|]. split.
  - intros node dd cd s s' Hs Hrun.
    eapply label_inv_extends; [|exact Hs].
    eapply cg_form_grows, Hrun.
  - intros s id1 s1 Hs Hmk. unfold make_label in Hmk.
    injection Hmk as <- <-. unfold label_inv, CD_LABEL in *. simpl.
    split; [lia|]. split; [reflexivity|]. split; [lia|].
    split; [|split].
    + intros id2 s2 H2. unfold make_label in H2. injection H2 as <- _.
      simpl. lia.
    + intros node dd cd s2 id2 s3 Hrun H2.
      destruct (cg_form_grows node dd cd _ _ _ Hrun) as [_ _ Hle].
      unfold make_label in H2. injection H2 as <- _. simpl in Hle. lia.
    + intros s0. reflexivity.
Qed.

Lemma labels_from_CD_LABEL_increasing_witness :
  label_inv init_compiler
  /\ make_label init_compiler
     = Ok (100, {| assembly_listing := []; globals := []; next_label := 100 |})
  /\ CD_LABEL <= 100.
Proof.
  split; [apply label_inv_init|]. split; [reflexivity|].
  exact (proj1 (proj2 (proj2 (labels_from_CD_LABEL_increasing
                                (repr := plain_repr)))
                  init_compiler 100 _ label_inv_init eq_refl)).
Defined.

(** C8 as stated fails: the first label a compiler hands out is
    [CD_LABEL] itself, which is not strictly greater than [CD_LABEL]. *)
Lemma first_label_counterexample :
  ~ (forall id s', make_label init_compiler = Ok (id, s') -> CD_LABEL < id).
Proof.
  intros H. specialize (H 100 _ eq_refl). unfold CD_LABEL in H. lia.
Qed.

(** ** Token classification in the atom case *)

Lemma ord_inj (a b : ascii) : ord a = ord b -> a = b.
Proof.
  unfold ord. intros H. apply Nat2Z.inj in H.
  rewrite <- (ascii_nat_embedding a), <- (ascii_nat_embedding b).
  now rewrite H.
Qed.

Lemma digit_is_zero_or_positive (c : ascii) :
  char_between "0" c "9" = true ->
  Ascii.eqb c "0" = false ->
  char_between "1" c "9" = true.
Proof.
  unfold char_between. intros H Hne.
  apply andb_true_iff in H as [H1 H2].
  apply Z.leb_le in H1. apply Z.leb_le in H2.
  apply Ascii.eqb_neq in Hne.
  assert (ord c <> ord "0"%char) by (intros E; apply Hne, ord_inj, E).
  apply andb_true_iff. split; apply Z.leb_le.
  - change (ord "0") with 48 in *. change (ord "1") with 49. lia.
  - exact H2.
Qed.

(** A token that starts with a decimal digit parses to a number or is an
    invalid literal; [to_number] never answers [None] for it. *)
Lemma to_number_digit_not_none (c : ascii) (rest : string) :
  char_between "0" c "9" = true ->
  to_number (String c rest) <> Ok None.
Proof.
  intros Hc. unfold to_number.
  cbn [String.length Nat.leb str_index String.get res_bind].
  destruct (Ascii.eqb c "0") eqn:E0.
  - repeat match goal with
           | |- (if ?b then _ else _) <> _ => destruct b
           | |- res_bind ?r _ <> _ => destruct r; cbn [res_bind]
           end; discriminate.
  - rewrite (digit_is_zero_or_positive c Hc E0).
    destruct (py_int _ 10); cbn [res_bind]; discriminate.
Qed.

Lemma cg_form_minus_token {repr : ObjRepr}
      (rest : string) (z : Z) (dd : ddest) (cd : cdest) :
  dd <> DD_ZFLAG ->
  to_number rest = Ok (Some z) ->
  cg_form (Atom (String "-" rest)) dd cd = cg_literal (Some (PInt (- z))) dd cd.
Proof.
  intros Hdd Hnum. rewrite cg_form_not_zflag by assumption.
  unfold cg_form_body, cg_atom. cbn [is_pair].
  change (starts_with_decimal_digit (Atom (String "-" rest))) with (@Ok bool false).
  change (str_index (String "-" rest) 0) with (Ok "-"%char).
  change (str_from 1 (String "-" rest)) with rest.
  rewrite Hnum. reflexivity.
Qed.

Lemma cg_form_symbol_token {repr : ObjRepr}
      (c : ascii) (rest : string) (dd : ddest) (cd : cdest) :
  dd <> DD_ZFLAG ->
  char_between "0" c "9" = false ->
  c <> "-"%char ->
  cg_form (Atom (String c rest)) dd cd = cg_symbol (String c rest) dd cd.
Proof.
  intros Hdd Hdigit Hminus. rewrite cg_form_not_zflag by assumption.
  unfold cg_form_body, cg_atom, cg_symbol. cbn [is_pair].
  change (starts_with_decimal_digit (Atom (String c rest)))
    with (Ok (char_between "0" c "9")).
  rewrite Hdigit.
  change (str_index (String c rest) 0) with (Ok c).
  apply Ascii.eqb_neq in Hminus.
  unfold bind, lift. rewrite Hminus. reflexivity.
Qed.

(** C6, as amended.  Under every destination other than [DD_ZFLAG]:
    a token whose first character is [-] and whose remainder [to_number]
    parses to [z] is generated as the literal [- z], the load
    [LD reg,-z] followed by [cg_goto cd]; when the remainder
    starts with a decimal digit, [to_number] parses it or rejects it as an
    invalid literal, so such a token is never anything but a literal.  A
    token whose first character is neither a decimal digit nor [-] is a
    symbol reference: it loads the global when the name is declared and
    raises [Symbol not declared] when it is not.  (Nothing is said of a
    token that starts with [-] and does not continue with a digit.) *)
Theorem minus_digit_is_literal_other_is_symbol {repr : ObjRepr}
        (c : ascii) (rest : string) (dd : ddest) (cd : cdest) (s : compiler) :
  dd <> DD_ZFLAG ->
  (forall z,
      to_number rest = Ok (Some z) ->
      cg_form (Atom (String "-" rest)) dd cd = cg_literal (Some (PInt (- z))) dd cd
      /\ forall r,
        to_reg dd = Ok r ->
        cg_form (Atom (String "-" rest)) dd cd
        = (asm None "LD" (Some (r ++ "," ++ str_of_int (- z))) ;; cg_goto cd))
  /\ (forall d rest',
         rest = String d rest' ->
         char_between "0" d "9" = true ->
         to_number rest <> Ok None)
  /\ (char_between "0" c "9" = false ->
      c <> "-"%char ->
      (py_in (Atom (String c rest)) (globals s) = true ->
       cg_form (Atom (String c rest)) dd cd s
       = (cg_ld16_gv dd (Atom (String c rest)) ;; cg_goto cd) s)
      /\ (py_in (Atom (String c rest)) (globals s) = false ->
          cg_form (Atom (String c rest)) dd cd s
          = Raise (ValueError ("Symbol not declared: " ++ String c rest)))).
Proof.
  intros Hdd. split; [|split].
  - intros z Hnum.
    rewrite (cg_form_minus_token rest z dd cd Hdd Hnum).
    split; [reflexivity|]. intros r Hr.
    unfold cg_literal, cg_ld16. rewrite Hr.
    destruct dd; try discriminate Hr; reflexivity.
  - intros d rest' -> Hd. now apply to_number_digit_not_none.
  - intros Hdigit Hminus.
    rewrite (cg_form_symbol_token c rest dd cd Hdd Hdigit Hminus).
    split; intros Hin; unfold cg_symbol, bind, get_globals;
      cbv beta; rewrite Hin; reflexivity.
Qed.

Lemma minus_digit_is_literal_other_is_symbol_witness :
  DD_HL <> DD_ZFLAG
  /\ to_number "12" = Ok (Some 12)
  /\ lines_of (cg_form (Atom "-12") DD_HL CD_RET) init_compiler
     = Ok ["    LD     HL,-12"; "    RET    "]
  /\ char_between "0" "X" "9" = false
  /\ "X"%char <> "-"%char
  /\ py_in (Atom "X") (globals (declared init_compiler "X")) = true
  /\ lines_of (cg_form (Atom "X") DD_HL CD_RET) (declared init_compiler "X")
     = Ok ["    LD     HL,(X)"; "    RET    "]
  /\ py_in (Atom "X") (globals init_compiler) = false
  /\ cg_form (Atom "X") DD_HL CD_RET init_compiler
     = Raise (ValueError "Symbol not declared: X").
Proof.
  assert (Hhl : DD_HL <> DD_ZFLAG) by discriminate.
  assert (Hx : "X"%char <> "-"%char) by discriminate.
  split; [exact Hhl|]. split; [reflexivity|]. split.
  { rewrite (proj2 (proj1 (minus_digit_is_literal_other_is_symbol
                             "-" "12" DD_HL CD_RET init_compiler Hhl)
                      12 eq_refl) "HL" eq_refl).
    reflexivity. }
  split; [reflexivity|]. split; [exact Hx|]. split; [reflexivity|]. split.
  { unfold lines_of.
    rewrite (proj1 (proj2 (proj2 (minus_digit_is_literal_other_is_symbol
                      "X" "" DD_HL CD_RET (declared init_compiler "X") Hhl))
                      eq_refl Hx) eq_refl).
    reflexivity. }
  split; [reflexivity|].
  exact (proj2 (proj2 (proj2 (minus_digit_is_literal_other_is_symbol
                  "X" "" DD_HL CD_RET init_compiler Hhl)) eq_refl Hx) eq_refl).
Defined.

(** C6 as stated fails on [-foo].  Declared, the claim has it load the
    global, the listing of [cg_symbol]; undeclared, raise [Symbol not
    declared].  The generator takes the token for a negative literal and
    ends with a [TypeError] either way; the bare token [-] ends with the
    [ValueError] of [to_number]. *)
Lemma minus_symbol_counterexample :
  compile [int16_minus_foo; Atom "-foo"] = Raise TypeError
  /\ lines_of (cg_symbol "-foo" DD_HL CD_RET) (declared init_compiler "-foo")
     = Ok ["    LD     HL,(-foo)"; "    RET    "]
  /\ compile [Atom "-foo"] = Raise TypeError
  /\ lines_of (cg_symbol "-foo" DD_HL CD_RET) init_compiler
     = Raise (ValueError "Symbol not declared: -foo")
  /\ compile [Atom "-"] = Raise (ValueError "to_number called with empty token").
Proof. repeat split; reflexivity. Qed.

(** ** Right shift *)

Lemma emits_shift_pairs {repr : ObjRepr} (n : nat) :
  emits (repeat_gen n shift_pair) (Ok (shift_pairs n)).
Proof.
  induction n as [|n IH].
  - apply emits_ret.
  - cbn [repeat_gen]. unfold shift_pair at 1.
    exact (emits_seq _ _ _ _
             (emits_seq _ _ _ _ (emits_asm "SRL" (Some "H"))
                (emits_asm "RL" (Some "L"))) IH).
Qed.

Lemma shift_unrolled_lines {repr : ObjRepr}
      (e : sexp) (n : nat) (cd : cdest) (s : compiler) :
  lines_of (shift_unrolled e n cd) s
  = res_bind (lines_of (cg_form e DD_HL CD_NEXT) s) (fun body =>
    res_bind (lines_of (cg_goto cd) s) (fun tail =>
      Ok (body ++ shift_pairs n ++ tail)%list)).
Proof.
  destruct (emits_cg_goto cd) as [r Hr].
  rewrite (emits_lines_of _ _ s Hr). unfold shift_unrolled.
  rewrite (lines_of_seq_emits _ _ _ s (cg_form_grows e DD_HL CD_NEXT)
             (emits_seq _ _ _ _ (emits_shift_pairs n) Hr)).
  destruct (lines_of (cg_form e DD_HL CD_NEXT) s); [|reflexivity].
  destruct r; reflexivity.
Qed.

Lemma shift_literal_small {repr : ObjRepr}
      (head e rest : sexp) (t : string) (n : Z) (dd : ddest) (cd : cdest) :
  starts_with_decimal_digit (Atom t) = Ok true ->
  to_number t = Ok (Some n) ->
  n <= 4 ->
  cg_shift_right_logical cg_form (Pair head (Pair e (Pair (Atom t) rest))) dd cd
  =r= shift_unrolled e (Z.to_nat n) cd.
Proof.
  intros Hlit Hnum Hn s.
  unfold cg_shift_right_logical, shift_unrolled, cdr_car, cdr_cdr_car, cdr_cdr.
  cbn [with_car with_cdr]. unfold bind at 1. rewrite Hlit. cbn [lift].
  unfold bind at 1. cbn [to_number_obj]. rewrite Hnum. cbn [lift].
  destruct (4 <? n) eqn:E; [apply Z.ltb_lt in E; lia|]. reflexivity.
Qed.

Lemma shift_literal_large {repr : ObjRepr}
      (head e rest : sexp) (t : string) (n : Z) (dd : ddest) (cd : cdest) :
  starts_with_decimal_digit (Atom t) = Ok true ->
  to_number t = Ok (Some n) ->
  5 <= n ->
  cg_shift_right_logical cg_form (Pair head (Pair e (Pair (Atom t) rest))) dd cd
  =r= shift_loop e (Atom t) false cd.
Proof.
  intros Hlit Hnum Hn s.
  unfold cg_shift_right_logical, shift_loop, cdr_car, cdr_cdr_car, cdr_cdr.
  cbn [with_car with_cdr]. unfold bind at 1. rewrite Hlit. cbn [lift].
  unfold bind at 1. cbn [to_number_obj]. rewrite Hnum. cbn [lift].
  destruct (4 <? n) eqn:E; [|apply Z.ltb_ge in E; lia].
  unfold do_variable_shift, bind.
  destruct (cg_form e DD_HL CD_NEXT s) as [[[] s1]|x]; [|reflexivity].
  destruct (make_label s1) as [[k s2]|x]; [|reflexivity].
  destruct (cg_form (Atom t) DD_B CD_NEXT s2) as [[[] s3]|x]; reflexivity.
Qed.

Lemma shift_symbol_count {repr : ObjRepr}
      (head e rest : sexp) (t : string) (dd : ddest) (cd : cdest) :
  starts_with_decimal_digit (Atom t) = Ok false ->
  cg_shift_right_logical cg_form (Pair head (Pair e (Pair (Atom t) rest))) dd cd
  =r= shift_loop e (Atom t) true cd.
Proof.
  intros Hlit s.
  unfold cg_shift_right_logical, shift_loop, cdr_car, cdr_cdr_car, cdr_cdr.
  cbn [with_car with_cdr]. unfold bind at 1. rewrite Hlit. cbn [lift].
  unfold do_variable_shift, bind.
  cbn [ret].
  destruct (cg_form e DD_HL CD_NEXT s) as [[[] s1]|x]; [|reflexivity].
  destruct (make_label s1) as [[k s2]|x]; [|reflexivity].
  destruct (cg_form (Atom t) DD_B CD_NEXT s2) as [[[] s3]|x]; [|reflexivity].
  destruct (make_label s3) as [[k' s4]|x]; reflexivity.
Qed.

(** The listing of the loop for a literal count of five or more: the
    operand's lines, [LD B,n], the loop at a fresh label, then [cg_goto]. *)
Lemma shift_literal_large_lines {repr : ObjRepr}
      (head e rest : sexp) (t : string) (n : Z) (dd : ddest) (cd : cdest)
      (s s1 : compiler) :
  starts_with_decimal_digit (Atom t) = Ok true ->
  to_number t = Ok (Some n) ->
  5 <= n ->
  cg_form e DD_HL CD_NEXT s = Ok (tt, s1) ->
  cg_shift_right_logical cg_form (Pair head (Pair e (Pair (Atom t) rest))) dd cd s
  = match lines_of (cg_goto cd) s with
    | Ok tail =>
        Ok (tt, with_lines_labels s1
                  (("    LD     B," ++ str_of_int n)
                     :: loop_lines (next_label s1 + 1) ++ tail) 1)
    | Raise x => Raise x
    end.
Proof.
  intros Hlit Hnum Hn He.
  rewrite (shift_literal_large head e rest t n dd cd Hlit Hnum Hn s).
  destruct (emits_cg_goto cd) as [r Hr]. rewrite (emits_lines_of _ _ s Hr).
  unfold shift_loop, bind at 1. rewrite He.
  unfold bind at 1. unfold bind at 1. cbn [make_label].
  unfold bind at 1.
  rewrite (cg_form_not_zflag (Atom t) DD_B CD_NEXT) by discriminate.
  unfold cg_form_body, cg_atom. cbn [is_pair]. unfold bind at 1.
  rewrite Hlit. cbn [lift]. unfold bind at 1. cbn [to_number_obj].
  rewrite Hnum. cbn [lift opt_val].
  change (cg_literal (Some (PInt n)) DD_B CD_NEXT)
    with (asm None "LD" (Some ("B," ++ str_of_int n)) ;; ret tt).
  unfold bind at 1. rewrite emits_asm. cbn [ret].
  unfold bind at 1. cbn [asm cg_emit_label].
  unfold bind, append_line. cbn.
  rewrite Hr. destruct r as [tail|x]; [|reflexivity].
  unfold with_lines, with_lines_labels, loop_lines, instr. cbn.
  rewrite <- !app_assoc. reflexivity.
Qed.

(** The listing of the guarded loop for a count that names a declared
    global (a token starting with neither a digit nor a minus sign). *)
Lemma shift_symbol_count_lines {repr : ObjRepr}
      (head e rest : sexp) (c : ascii) (t : string) (dd : ddest) (cd : cdest)
      (s s1 : compiler) :
  char_between "0" c "9" = false ->
  c <> "-"%char ->
  cg_form e DD_HL CD_NEXT s = Ok (tt, s1) ->
  py_in (Atom (String c t)) (globals s1) = true ->
  cg_shift_right_logical cg_form
    (Pair head (Pair e (Pair (Atom (String c t)) rest))) dd cd s
  = match lines_of (cg_goto cd) s with
    | Ok tail =>
        Ok (tt, with_lines_labels s1
                  (["    LD     A,(" ++ String c t ++ ")"; "    LD     B,A"]
                     ++ guard_lines (next_label s1 + 1 + 1)
                     ++ loop_lines (next_label s1 + 1)
                     ++ [("L" ++ str_of_int (next_label s1 + 1 + 1)) ++ ":"]
                     ++ tail) 2)
    | Raise x => Raise x
    end.
Proof.
  intros Hdigit Hminus He Hin.
  assert (Hlit : starts_with_decimal_digit (Atom (String c t)) = Ok false)
    by (cbn; now rewrite Hdigit).
  rewrite (shift_symbol_count head e rest (String c t) dd cd Hlit s).
  destruct (emits_cg_goto cd) as [r Hr]. rewrite (emits_lines_of _ _ s Hr).
  unfold shift_loop, bind at 1. rewrite He.
  unfold bind at 1. unfold bind at 1. cbn [make_label].
  unfold bind at 1.
  rewrite (cg_form_symbol_token c t DD_B CD_NEXT) by (discriminate || assumption).
  unfold cg_symbol, bind at 1, get_globals. cbn [globals]. rewrite Hin.
  cbn. rewrite Hr. destruct r as [tail|x]; [|reflexivity].
  unfold with_lines, with_lines_labels, loop_lines, guard_lines. cbn.
  rewrite <- !app_assoc. cbn.
  replace (next_label s1 + 2) with (next_label s1 + 1 + 1) by lia.
  reflexivity.
Qed.

(** A compound count is never generated: classifying it subscripts a
    [Pair]. *)
Lemma shift_compound_count_raises {repr : ObjRepr}
      (head e c1 c2 rest : sexp) (dd : ddest) (cd : cdest) (s : compiler) :
  cg_shift_right_logical cg_form
    (Pair head (Pair e (Pair (Pair c1 c2) rest))) dd cd s
  = Raise TypeError.
Proof. reflexivity. Qed.

(** C5, as amended: for a COUNT that is an atom.  A count token that
    starts with a decimal digit and has value [n]: for [n = 0] the
    operand's lines are followed by [cg_goto cd] alone; for [0 <= n <= 4]
    by exactly [n] pairs [SRL H], [RL L]; for [n >= 5] by [LD B,n] and the
    [DJNZ] loop, without the zero guard.  A count token that does not start
    with a decimal digit gets the loop with the guard [LD A,B], [OR A,A],
    [JZ Lskip] between the load of [B] and the loop, and the label [Lskip]
    after it.  So, among atoms, the guard is there exactly when the count
    is not a literal. *)
Theorem shift_right_by_atom_count {repr : ObjRepr}
        (head e rest : sexp) (t : string) (dd : ddest) (cd : cdest) :
  (forall n,
      starts_with_decimal_digit (Atom t) = Ok true ->
      to_number t = Ok (Some n) ->
      (n = 0 ->
       cg_shift_right_logical cg_form
         (Pair head (Pair e (Pair (Atom t) rest))) dd cd
       =r= (cg_form e DD_HL CD_NEXT ;; cg_goto cd))
      /\ (0 <= n <= 4 ->
          cg_shift_right_logical cg_form
            (Pair head (Pair e (Pair (Atom t) rest))) dd cd
          =r= shift_unrolled e (Z.to_nat n) cd
          /\ forall s,
            lines_of (cg_shift_right_logical cg_form
                        (Pair head (Pair e (Pair (Atom t) rest))) dd cd) s
            = res_bind (lines_of (cg_form e DD_HL CD_NEXT) s) (fun body =>
              res_bind (lines_of (cg_goto cd) s) (fun tail =>
                Ok (body ++ shift_pairs (Z.to_nat n) ++ tail)%list)))
      /\ (5 <= n ->
          cg_shift_right_logical cg_form
            (Pair head (Pair e (Pair (Atom t) rest))) dd cd
          =r= shift_loop e (Atom t) false cd
          /\ forall s s1,
            cg_form e DD_HL CD_NEXT s = Ok (tt, s1) ->
            cg_shift_right_logical cg_form
              (Pair head (Pair e (Pair (Atom t) rest))) dd cd s
            = match lines_of (cg_goto cd) s with
              | Ok tail =>
                  Ok (tt, with_lines_labels s1
                            (("    LD     B," ++ str_of_int n)
                               :: loop_lines (next_label s1 + 1) ++ tail) 1)
              | Raise x => Raise x
              end))
  /\ (starts_with_decimal_digit (Atom t) = Ok false ->
      cg_shift_right_logical cg_form
        (Pair head (Pair e (Pair (Atom t) rest))) dd cd
      =r= shift_loop e (Atom t) true cd
      /\ forall c t' s s1,
        t = String c t' ->
        c <> "-"%char ->
        cg_form e DD_HL CD_NEXT s = Ok (tt, s1) ->
        py_in (Atom t) (globals s1) = true ->
        cg_shift_right_logical cg_form
          (Pair head (Pair e (Pair (Atom t) rest))) dd cd s
        = match lines_of (cg_goto cd) s with
          | Ok tail =>
              Ok (tt, with_lines_labels s1
                        (["    LD     A,(" ++ t ++ ")"; "    LD     B,A"]
                           ++ guard_lines (next_label s1 + 1 + 1)
                           ++ loop_lines (next_label s1 + 1)
                           ++ [("L" ++ str_of_int (next_label s1 + 1 + 1)) ++ ":"]
                           ++ tail) 2)
          | Raise x => Raise x
          end).
Proof.
  split.
  - intros n Hlit Hnum. split; [|split].
    + intros -> s.
      rewrite (shift_literal_small head e rest t 0 dd cd Hlit Hnum) by lia.
      unfold shift_unrolled. cbn [Z.to_nat repeat_gen]. unfold bind.
      destruct (cg_form e DD_HL CD_NEXT s) as [[[] s1]|x]; reflexivity.
    + intros Hn.
      pose proof (shift_literal_small head e rest t n dd cd Hlit Hnum
                    ltac:(lia)) as Hrun.
      split; [exact Hrun|]. intros s.
      rewrite (same_run_lines _ _ s Hrun). apply shift_unrolled_lines.
    + intros Hn. split.
      * now apply (shift_literal_large head e rest t n).
      * intros s s1 He. now apply shift_literal_large_lines.
  - intros Hlit. split; [now apply shift_symbol_count|].
    intros c t' s s1 -> Hminus He Hin.
    apply shift_symbol_count_lines; try assumption.
    cbn in Hlit. now injection Hlit.
Qed.

Lemma shift_right_by_atom_count_witness :
  (starts_with_decimal_digit (Atom "3") = Ok true
   /\ to_number "3" = Ok (Some 3)
   /\ 0 <= 3 <= 4
   /\ lines_of (cg_shift_right_logical cg_form (shift_x_by "3") DD_HL CD_RET)
               (declared init_compiler "X")
      = Ok ["    LD     HL,(X)"; "    SRL    H"; "    RL     L";
            "    SRL    H"; "    RL     L"; "    SRL    H"; "    RL     L";
            "    RET    "])
  /\ (starts_with_decimal_digit (Atom "5") = Ok true
      /\ to_number "5" = Ok (Some 5)
      /\ 5 <= 5
      /\ lines_of (cg_shift_right_logical cg_form (shift_x_by "5") DD_HL CD_RET)
                  (declared init_compiler "X")
         = Ok ["    LD     HL,(X)"; "    LD     B,5"; "L100:"; "    SRL    H";
               "    RL     L"; "    DJNZ   L100"; "    RET    "])
  /\ (starts_with_decimal_digit (Atom "X") = Ok false
      /\ lines_of (cg_shift_right_logical cg_form (shift_x_by "X") DD_HL CD_RET)
                  (declared init_compiler "X")
         = Ok ["    LD     HL,(X)"; "    LD     A,(X)"; "    LD     B,A";
               "    LD     A,B"; "    OR     A,A"; "    JZ     L101"; "L100:";
               "    SRL    H"; "    RL     L"; "    DJNZ   L100"; "L101:";
               "    RET    "]).
Proof.
  split; [|split].
  - split; [reflexivity|]. split; [reflexivity|]. split; [lia|].
    unfold shift_x_by. cbn [slist].
    rewrite (proj2 (proj1 (proj2 (proj1
               (shift_right_by_atom_count (Atom ">>") (Atom "X") Nil "3"
                  DD_HL CD_RET) 3 eq_refl eq_refl)) ltac:(lia))
               (declared init_compiler "X")).
    reflexivity.
  - split; [reflexivity|]. split; [reflexivity|]. split; [lia|].
    unfold shift_x_by. cbn [slist]. unfold lines_of.
    rewrite (proj2 (proj2 (proj2 (proj1
               (shift_right_by_atom_count (Atom ">>") (Atom "X") Nil "5"
                  DD_HL CD_RET) 5 eq_refl eq_refl)) ltac:(lia))
               (declared init_compiler "X")
               (with_lines (declared init_compiler "X") ["    LD     HL,(X)"])
               eq_refl).
    reflexivity.
  - split; [reflexivity|].
    unfold shift_x_by. cbn [slist]. unfold lines_of.
    rewrite (proj2 (proj2
               (shift_right_by_atom_count (Atom ">>") (Atom "X") Nil "X"
                  DD_HL CD_RET) eq_refl)
               "X"%char "" (declared init_compiler "X")
               (with_lines (declared init_compiler "X") ["    LD     HL,(X)"])
               eq_refl ltac:(discriminate) eq_refl eq_refl).
    reflexivity.
Defined.

Example shift_by_zero_lines :
  lines_of (cg_form (shift_x_by "0") DD_HL CD_RET) (declared init_compiler "X")
  = Ok ["    LD     HL,(X)"; "    RET    "].
Proof. reflexivity. Qed.

Example shift_by_five_lines :
  lines_of (cg_form (shift_x_by "5") DD_HL CD_RET) (declared init_compiler "X")
  = Ok ["    LD     HL,(X)"; "    LD     B,5"; "L100:"; "    SRL    H";
        "    RL     L"; "    DJNZ   L100"; "    RET    "].
Proof. reflexivity. Qed.

Example shift_by_variable_lines :
  lines_of (cg_form (shift_x_by "X") DD_HL CD_RET) (declared init_compiler "X")
  = Ok ["    LD     HL,(X)"; "    LD     A,(X)"; "    LD     B,A";
        "    LD     A,B"; "    OR     A,A"; "    JZ     L101"; "L100:";
        "    SRL    H"; "    RL     L"; "    DJNZ   L100"; "L101:";
        "    RET    "].
Proof. reflexivity. Qed.

(** C5 as stated fails for a count that is not an atom: [(>> 1 (@ X))]
    has a non-literal count, whose generation into [B] succeeds on its own
    and for which the guarded loop would be the listing below; the
    generator raises [TypeError] instead. *)
Lemma shift_count_counterexample :
  cg_form shift_by_address DD_HL CD_RET (declared init_compiler "X")
  = Raise TypeError
  /\ compile [int16_x; shift_by_address] = Raise TypeError
  /\ lines_of (cg_form address_of_x DD_B CD_NEXT) (declared init_compiler "X")
     = Ok ["    LD     B,X"]
  /\ lines_of (shift_loop (Atom "1") address_of_x true CD_RET)
              (declared init_compiler "X")
     = Ok ["    LD     HL,1"; "    LD     B,X"; "    LD     A,B";
           "    OR     A,A"; "    JZ     L101"; "L100:"; "    SRL    H";
           "    RL     L"; "    DJNZ   L100"; "L101:"; "    RET    "].
Proof. repeat split; reflexivity. Qed.

(** ** The right shift leaves its value in [HL] *)

(** The listing of the guarded loop for any count token that does not
    start with a decimal digit: the operand's lines, the lines that
    generating the count into [B] appends, the zero guard, the loop, the
    label after it, then [cg_goto]. *)
Lemma shift_guarded_loop_lines {repr : ObjRepr}
      (head e rest : sexp) (t : string) (dd : ddest) (cd : cdest)
      (s s1 s3 : compiler) :
  starts_with_decimal_digit (Atom t) = Ok false ->
  cg_form e DD_HL CD_NEXT s = Ok (tt, s1) ->
  cg_form (Atom t) DD_B CD_NEXT (label_allocated s1) = Ok (tt, s3) ->
  cg_shift_right_logical cg_form
    (Pair head (Pair e (Pair (Atom t) rest))) dd cd s
  = match lines_of (cg_goto cd) s with
    | Ok tail =>
        Ok (tt, with_lines_labels s3
                  (guard_lines (next_label s3 + 1)
                     ++ loop_lines (next_label s1 + 1)
                     ++ [("L" ++ str_of_int (next_label s3 + 1)) ++ ":"]
                     ++ tail) 1)
    | Raise x => Raise x
    end.
Proof.
  intros Hlit He Hcnt.
  rewrite (shift_symbol_count head e rest t dd cd Hlit s).
  destruct (emits_cg_goto cd) as [r Hr]. rewrite (emits_lines_of _ _ s Hr).
  unfold shift_loop, bind at 1. rewrite He.
  unfold bind at 1. unfold bind at 1. cbn [make_label].
  unfold bind at 1. fold (label_allocated s1). rewrite Hcnt.
  cbn. rewrite Hr. destruct r as [tail|x]; [|reflexivity].
  unfold with_lines, with_lines_labels, loop_lines, guard_lines. cbn.
  rewrite <- !app_assoc. reflexivity.
Qed.

(** C10. [cg_highbyte], [cg_lowbyte] and [cg_shift_right_logical] do not
    depend on the data destination: for any node, [cd] and state, two
    destinations give the same run, hence the same appended lines.  The
    value stays in [HL], whatever [dd1] is: the operand is generated into
    [HL], and what follows its lines is fixed.  For the two byte forms
    these are the instructions on [H] and [L] and then [cg_goto cd].  For
    the shift with a literal count of at most four they are that many
    pairs [SRL H], [RL L] and then [cg_goto cd]; with a literal count of
    five or more, [LD B,n], the [DJNZ] loop over [SRL H], [RL L] and then
    [cg_goto cd]; with any other count token, the lines that load the
    count into [B], the zero guard, the same loop, its exit label and then
    [cg_goto cd]; a compound count raises [TypeError] before any line.  No
    case has a move into [dd1]. *)
Theorem byte_and_shift_ignore_dd {repr : ObjRepr}
        (node head e rest : sexp) (t : string) (cd : cdest) (dd1 dd2 : ddest)
        (s : compiler) :
  (cg_highbyte cg_form node dd1 cd s = cg_highbyte cg_form node dd2 cd s
   /\ cg_lowbyte cg_form node dd1 cd s = cg_lowbyte cg_form node dd2 cd s
   /\ cg_shift_right_logical cg_form node dd1 cd s
      = cg_shift_right_logical cg_form node dd2 cd s)
  /\ (lines_of (cg_highbyte cg_form node dd1 cd) s
      = lines_of (cg_highbyte cg_form node dd2 cd) s
      /\ lines_of (cg_lowbyte cg_form node dd1 cd) s
         = lines_of (cg_lowbyte cg_form node dd2 cd) s
      /\ lines_of (cg_shift_right_logical cg_form node dd1 cd) s
         = lines_of (cg_shift_right_logical cg_form node dd2 cd) s)
  /\ lines_of (cg_highbyte cg_form (Pair head (Pair e rest)) dd1 cd) s
     = res_bind (lines_of (cg_form e DD_HL CD_NEXT) s) (fun body =>
       res_bind (lines_of (cg_goto cd) s) (fun tail =>
         Ok (body ++ ["    LD     L,H"; "    LD     H,0"] ++ tail)%list))
  /\ lines_of (cg_lowbyte cg_form (Pair head (Pair e rest)) dd1 cd) s
     = res_bind (lines_of (cg_form e DD_HL CD_NEXT) s) (fun body =>
       res_bind (lines_of (cg_goto cd) s) (fun tail =>
         Ok (body ++ ["    LD     H,0"] ++ tail)%list))
  /\ (forall n,
         starts_with_decimal_digit (Atom t) = Ok true ->
         to_number t = Ok (Some n) ->
         (n <= 4 ->
          lines_of (cg_shift_right_logical cg_form
                      (Pair head (Pair e (Pair (Atom t) rest))) dd1 cd) s
          = res_bind (lines_of (cg_form e DD_HL CD_NEXT) s) (fun body =>
            res_bind (lines_of (cg_goto cd) s) (fun tail =>
              Ok (body ++ shift_pairs (Z.to_nat n) ++ tail)%list)))
         /\ (5 <= n ->
             forall s1,
               cg_form e DD_HL CD_NEXT s = Ok (tt, s1) ->
               cg_shift_right_logical cg_form
                 (Pair head (Pair e (Pair (Atom t) rest))) dd1 cd s
               = match lines_of (cg_goto cd) s with
                 | Ok tail =>
                     Ok (tt, with_lines_labels s1
                               (("    LD     B," ++ str_of_int n)
                                  :: loop_lines (next_label s1 + 1) ++ tail) 1)
                 | Raise x => Raise x
                 end))
  /\ (starts_with_decimal_digit (Atom t) = Ok false ->
      forall s1 s3,
        cg_form e DD_HL CD_NEXT s = Ok (tt, s1) ->
        cg_form (Atom t) DD_B CD_NEXT (label_allocated s1) = Ok (tt, s3) ->
        cg_shift_right_logical cg_form
          (Pair head (Pair e (Pair (Atom t) rest))) dd1 cd s
        = match lines_of (cg_goto cd) s with
          | Ok tail =>
              Ok (tt, with_lines_labels s3
                        (guard_lines (next_label s3 + 1)
                           ++ loop_lines (next_label s1 + 1)
                           ++ [("L" ++ str_of_int (next_label s3 + 1)) ++ ":"]
                           ++ tail) 1)
          | Raise x => Raise x
          end)
  /\ (forall c1 c2,
         cg_shift_right_logical cg_form
           (Pair head (Pair e (Pair (Pair c1 c2) rest))) dd1 cd s
         = Raise TypeError).
Proof.
  split; [repeat split|]. split; [repeat split|].
  split; [|split; [|split; [|split]]].
  - destruct (emits_cg_goto cd) as [r Hr].
    rewrite (emits_lines_of _ _ s Hr). rewrite cg_highbyte_run.
    rewrite (lines_of_seq_emits _ _ _ s (cg_form_grows e DD_HL CD_NEXT)
               (emits_seq _ _ _ _ (emits_asm "LD" (Some "L,H"))
                  (emits_seq _ _ _ _ (emits_asm "LD" (Some "H,0")) Hr))).
    destruct (lines_of (cg_form e DD_HL CD_NEXT) s); [|reflexivity].
    destruct r; reflexivity.
  - destruct (emits_cg_goto cd) as [r Hr].
    rewrite (emits_lines_of _ _ s Hr). rewrite cg_lowbyte_run.
    rewrite (lines_of_seq_emits _ _ _ s (cg_form_grows e DD_HL CD_NEXT)
               (emits_seq _ _ _ _ (emits_asm "LD" (Some "H,0")) Hr)).
    destruct (lines_of (cg_form e DD_HL CD_NEXT) s); [|reflexivity].
    destruct r; reflexivity.
  - intros n Hlit Hnum. split.
    + intros Hn.
      rewrite (same_run_lines _ _ s
                 (shift_literal_small head e rest t n dd1 cd Hlit Hnum Hn)).
      apply shift_unrolled_lines.
    + intros Hn s1 He. now apply shift_literal_large_lines.
  - intros Hlit s1 s3 He Hcnt. now apply shift_guarded_loop_lines.
  - intros c1 c2. apply shift_compound_count_raises.
Qed.

Lemma byte_and_shift_ignore_dd_witness :
  (starts_with_decimal_digit (Atom "3") = Ok true
   /\ to_number "3" = Ok (Some 3)
   /\ 3 <= 4
   /\ lines_of (cg_shift_right_logical cg_form (shift_x_by "3") DD_DE CD_RET)
               (declared init_compiler "X")
      = Ok ["    LD     HL,(X)"; "    SRL    H"; "    RL     L";
            "    SRL    H"; "    RL     L"; "    SRL    H"; "    RL     L";
            "    RET    "])
  /\ (starts_with_decimal_digit (Atom "5") = Ok true
      /\ to_number "5" = Ok (Some 5)
      /\ 5 <= 5
      /\ lines_of (cg_shift_right_logical cg_form (shift_x_by "5") DD_DE CD_RET)
                  (declared init_compiler "X")
         = Ok ["    LD     HL,(X)"; "    LD     B,5"; "L100:"; "    SRL    H";
               "    RL     L"; "    DJNZ   L100"; "    RET    "])
  /\ (starts_with_decimal_digit (Atom "X") = Ok false
      /\ lines_of (cg_shift_right_logical cg_form (shift_x_by "X") DD_DE CD_RET)
                  (declared init_compiler "X")
         = Ok ["    LD     HL,(X)"; "    LD     A,(X)"; "    LD     B,A";
               "    LD     A,B"; "    OR     A,A"; "    JZ     L101"; "L100:";
               "    SRL    H"; "    RL     L"; "    DJNZ   L100"; "L101:";
               "    RET    "]).
Proof.
  split; [|split].
  - split; [reflexivity|]. split; [reflexivity|]. split; [lia|].
    unfold shift_x_by. cbn [slist].
    rewrite (proj1 (proj1 (proj2 (proj2 (proj2 (proj2
               (byte_and_shift_ignore_dd Nil (Atom ">>") (Atom "X") Nil "3"
                  CD_RET DD_DE DD_HL (declared init_compiler "X"))))))
               3 eq_refl eq_refl) ltac:(lia)).
    reflexivity.
  - split; [reflexivity|]. split; [reflexivity|]. split; [lia|].
    unfold shift_x_by. cbn [slist]. unfold lines_of.
    rewrite (proj2 (proj1 (proj2 (proj2 (proj2 (proj2
               (byte_and_shift_ignore_dd Nil (Atom ">>") (Atom "X") Nil "5"
                  CD_RET DD_DE DD_HL (declared init_compiler "X"))))))
               5 eq_refl eq_refl) ltac:(lia)
               (with_lines (declared init_compiler "X") ["    LD     HL,(X)"])
               eq_refl).
    reflexivity.
  - split; [reflexivity|].
    unfold shift_x_by. cbn [slist]. unfold lines_of.
    rewrite (proj1 (proj2 (proj2 (proj2 (proj2 (proj2
               (byte_and_shift_ignore_dd Nil (Atom ">>") (Atom "X") Nil "X"
                  CD_RET DD_DE DD_HL (declared init_compiler "X")))))))
               eq_refl
               (with_lines (declared init_compiler "X") ["    LD     HL,(X)"])
               (with_lines (label_allocated
                              (with_lines (declared init_compiler "X")
                                 ["    LD     HL,(X)"]))
                  ["    LD     A,(X)"; "    LD     B,A"])
               eq_refl eq_refl).
    reflexivity.
Defined.

(** * Further properties of the generator *)

(** ** A proof scheme for relations between the state before and after

    Whatever relation [R] is reflexive and transitive and is established by
    a label line, by an instruction line with one of the [mnemonics], by a
    label allocation, by a [PUSH HL] ... [POP DE] bracket around a run that
    establishes it, and by a declaration made after the membership test,
    is established by every successful run of [cg_form]. *)

Section Respect.

Context {repr : ObjRepr}.
Variable R : compiler -> compiler -> Prop.
Hypothesis R_refl : forall s, R s s.
Hypothesis R_trans : forall s1 s2 s3, R s1 s2 -> R s2 s3 -> R s1 s3.
Hypothesis R_label_line : forall l, respects R (cg_emit_label l).
Hypothesis R_instr :
  forall mnem oper,
    emitted_mnemonic mnem = true -> respects R (append_line (instr mnem oper)).
Hypothesis R_make_label : respects R make_label.
Hypothesis R_bracket :
  forall m : M unit, respects R m -> respects R (cg_push_hl ;; m ;; cg_pop_de).
Hypothesis R_declare :
  forall (name : sexp) (e : exn) (k : M unit),
    respects R k ->
    respects R (gs <- get_globals ;;
                if py_in name gs then raise e else append_global name ;; k).

Lemma respects_ret {A} (a : A) : respects R (ret a).
Proof. intros s a' s' H. inversion H; subst. apply R_refl. Qed.

Lemma respects_raise {A} (e : exn) : respects R (@raise A e).
Proof. intros s a s' H. discriminate H. Qed.

Lemma respects_lift {A} (r : res A) : respects R (lift r).
Proof.
  intros s a s' H. unfold lift in H. destruct r; inversion H; subst.
  apply R_refl.
Qed.

Lemma respects_get_globals : respects R get_globals.
Proof. intros s a s' H. inversion H; subst. apply R_refl. Qed.

Lemma respects_bind {A B} (m : M A) (f : A -> M B) :
  respects R m -> (forall a, respects R (f a)) -> respects R (bind m f).
Proof.
  intros Hm Hf s b s' H. unfold bind in H.
  destruct (m s) as [[a s1]|e] eqn:E; [|discriminate].
  eapply R_trans; [eapply Hm, E | eapply Hf, H].
Qed.

Lemma respects_with_car {A} (node : sexp) (k : sexp -> M A) :
  (forall a d, node = Pair a d -> respects R (k a)) ->
  respects R (with_car node k).
Proof.
  intros H. destruct node; simpl; try apply respects_raise.
  now apply (H _ node2).
Qed.

Lemma respects_with_cdr {A} (node : sexp) (k : sexp -> M A) :
  (forall a d, node = Pair a d -> respects R (k d)) ->
  respects R (with_cdr node k).
Proof.
  intros H. destruct node; simpl; try apply respects_raise.
  now apply (H node1).
Qed.

Lemma respects_repeat_gen (n : nat) (body : M unit) :
  respects R body -> respects R (repeat_gen n body).
Proof.
  intros Hb. induction n; simpl.
  - apply respects_ret.
  - apply respects_bind; auto.
Qed.

Lemma respects_asm (l : option pyval) (mnem : string) (oper : option string) :
  emitted_mnemonic mnem = true -> respects R (asm l mnem oper).
Proof.
  intros Hm. unfold asm. apply respects_bind; [apply R_label_line|].
  intros _. now apply R_instr.
Qed.

(** One step: a primitive, a bracket, a declaration, a sequencing, an
    attribute access, or a case split. *)
Ltac resp_step :=
  first
    [ apply respects_ret | apply respects_raise | apply respects_lift
    | apply respects_get_globals | apply R_make_label | apply R_label_line
    | apply respects_asm; reflexivity
    | progress cbn [with_car with_cdr]
    | apply R_bracket
    | apply R_declare
    | apply respects_bind; [| intros ?]
    | apply respects_with_car; intros ? ? ?; subst
    | apply respects_with_cdr; intros ? ? ?; subst
    | apply respects_repeat_gen
    | match goal with
      | |- respects R (if ?b then _ else _) => destruct b
      | |- respects R (match ?x with _ => _ end) => destruct x
      end ].

Ltac resp_with tac := repeat first [tac | resp_step].

Lemma respects_cg_goto_int (n : Z) : respects R (cg_goto_int n).
Proof. unfold cg_goto_int. resp_with fail. Qed.

Lemma respects_cg_goto (cd : cdest) : respects R (cg_goto cd).
Proof.
  induction cd as [n | t IHt f IHf]; simpl.
  - apply respects_cg_goto_int.
  - resp_with ltac:(first [apply respects_cg_goto_int | exact IHf]).
Qed.

Lemma respects_reg_half (dd : ddest) (i : nat) : respects R (reg_half dd i).
Proof. unfold reg_half. resp_with fail. Qed.

Ltac resp_leaf :=
  resp_with ltac:(first [apply respects_cg_goto | apply respects_reg_half]).

Lemma respects_cg_op_pair (dd ds : ddest) :
  respects R (cg_op_pair "LD" "LD" dd ds).
Proof. unfold cg_op_pair. resp_leaf. Qed.

Lemma respects_cg_ld16 (dd : ddest) (n : option pyval) :
  respects R (cg_ld16 dd n).
Proof. unfold cg_ld16. resp_leaf. Qed.

Lemma respects_cg_ld16_r16 (dd ds : ddest) : respects R (cg_ld16_r16 dd ds).
Proof.
  unfold cg_ld16_r16. resp_with ltac:(first
    [apply respects_cg_op_pair | apply respects_reg_half]).
Qed.

Lemma respects_cg_ld16_gv (dd : ddest) (t : sexp) : respects R (cg_ld16_gv dd t).
Proof. unfold cg_ld16_gv, cg_ld16_gv_reg. resp_leaf. Qed.

Lemma respects_cg_op16 (dd ds1 ds2 : ddest) (cd : cdest) (op1 op2 : string) :
  emitted_mnemonic op1 = true ->
  emitted_mnemonic op2 = true ->
  respects R (cg_op16 dd ds1 ds2 cd op1 op2).
Proof.
  intros H1 H2. unfold cg_op16.
  resp_with ltac:(first
    [ apply respects_cg_goto | apply respects_reg_half
    | apply respects_asm; assumption ]).
Qed.

Lemma respects_cg_call_libfn (fn_name : string) (cd : cdest) :
  respects R (cg_call_libfn fn_name cd).
Proof. unfold cg_call_libfn. resp_leaf. Qed.

(** The seven operator emitters. *)
Lemma respects_emitters (dd ds1 ds2 : ddest) (cd : cdest) :
  respects R (cg_add dd ds1 ds2 cd)
  /\ respects R (cg_subtract dd ds1 ds2 cd)
  /\ respects R (cg_multiply dd ds1 ds2 cd)
  /\ respects R (cg_divide dd ds1 ds2 cd)
  /\ respects R (cg_bit_and dd ds1 ds2 cd)
  /\ respects R (cg_bit_or dd ds1 ds2 cd)
  /\ respects R (cg_bit_xor dd ds1 ds2 cd).
Proof.
  unfold cg_add, cg_subtract, cg_multiply, cg_divide, cg_bit_and, cg_bit_or,
    cg_bit_xor.
  repeat split;
    resp_with ltac:(first
      [ apply respects_cg_goto | apply respects_cg_call_libfn
      | apply respects_cg_ld16_r16
      | apply respects_cg_op16; reflexivity ]).
Qed.

Section RespectForms.

Variable self_cg_form : sexp -> ddest -> cdest -> M unit.
Variable bound : nat.
Hypothesis self_respects :
  forall n dd cd, (size n < bound)%nat -> respects R (self_cg_form n dd cd).

Ltac resp_forms :=
  unfold cdr_car, cdr_cdr_car, cdr_cdr_cdr_car, cdr_cdr_cdr, cdr_cdr;
  resp_with ltac:(first
    [ apply self_respects; simpl in *; lia
    | apply respects_cg_goto | apply respects_reg_half
    | apply respects_cg_ld16_r16 | apply respects_cg_ld16
    | apply respects_cg_ld16_gv | apply respects_cg_call_libfn ]).

Lemma respects_cg_binop (op : emitter) (node : sexp) (dd : ddest) (cd : cdest) :
  (forall d s1 s2 c, respects R (op d s1 s2 c)) ->
  (size node <= bound)%nat ->
  respects R (cg_binop self_cg_form op node dd cd).
Proof.
  intros Hop Hsz. unfold cg_binop.
  unfold cdr_car, cdr_cdr_car, cdr_cdr_cdr_car, cdr_cdr_cdr, cdr_cdr.
  resp_with ltac:(first [apply self_respects; simpl in *; lia | apply Hop]).
Qed.

Lemma respects_do_variable_shift (cnt : sexp) (n_cnt : option Z) :
  (size cnt < bound)%nat ->
  respects R (do_variable_shift self_cg_form cnt n_cnt).
Proof. intros Hsz. unfold do_variable_shift. resp_forms. Qed.

Lemma respects_cg_shift_right_logical (node : sexp) (dd : ddest) (cd : cdest) :
  (size node <= bound)%nat ->
  respects R (cg_shift_right_logical self_cg_form node dd cd).
Proof.
  intros Hsz. unfold cg_shift_right_logical, cdr_car, cdr_cdr_car, cdr_cdr.
  resp_with ltac:(first
    [ apply self_respects; simpl in *; lia
    | apply respects_do_variable_shift; simpl in *; lia
    | apply respects_cg_goto ]).
Qed.

Lemma respects_cg_highbyte (node : sexp) (dd : ddest) (cd : cdest) :
  (size node <= bound)%nat -> respects R (cg_highbyte self_cg_form node dd cd).
Proof. intros Hsz. unfold cg_highbyte. resp_forms. Qed.

Lemma respects_cg_lowbyte (node : sexp) (dd : ddest) (cd : cdest) :
  (size node <= bound)%nat -> respects R (cg_lowbyte self_cg_form node dd cd).
Proof. intros Hsz. unfold cg_lowbyte. resp_forms. Qed.

Lemma respects_cg_input_body
      (self_cg_input : sexp -> ddest -> cdest -> M unit)
      (node : sexp) (dd : ddest) (cd : cdest) :
  (forall d c, respects R (self_cg_input node d c)) ->
  (size node <= bound)%nat ->
  respects R (cg_input_body self_cg_form self_cg_input node dd cd).
Proof.
  intros Hin Hsz. unfold cg_input_body.
  unfold cdr_car, cdr_cdr_car, cdr_cdr.
  resp_with ltac:(first
    [ apply self_respects; simpl in *; lia | apply Hin
    | apply respects_cg_goto ]).
Qed.

Lemma respects_cg_input (node : sexp) (dd : ddest) (cd : cdest) :
  (size node <= bound)%nat -> respects R (cg_input self_cg_form node dd cd).
Proof.
  intros Hsz. unfold cg_input.
  apply respects_cg_input_body; auto. intros d c.
  apply respects_cg_input_body; auto. intros; apply respects_ret.
Qed.

Lemma respects_cg_output (node : sexp) (dd : ddest) (cd : cdest) :
  (size node <= bound)%nat -> respects R (cg_output self_cg_form node dd cd).
Proof. intros Hsz. unfold cg_output. resp_forms. Qed.

Lemma respects_cg_peek (node : sexp) (dd : ddest) (cd : cdest) :
  (size node <= bound)%nat -> respects R (cg_peek self_cg_form node dd cd).
Proof. intros Hsz. unfold cg_peek. resp_forms. Qed.

Lemma respects_cg_poke (node : sexp) (dd : ddest) (cd : cdest) :
  (size node <= bound)%nat -> respects R (cg_poke self_cg_form node dd cd).
Proof. intros Hsz. unfold cg_poke. resp_forms. Qed.

Lemma respects_cg_address_of (node : sexp) (dd : ddest) (cd : cdest) :
  respects R (cg_address_of node dd cd).
Proof. unfold cg_address_of. resp_forms. Qed.

Lemma respects_cg_statements_loop (node : sexp) (dd : ddest) (cd : cdest)
      (handled : bool) :
  (size node <= bound)%nat ->
  respects R (cg_statements_loop self_cg_form node dd cd handled).
Proof.
  revert handled.
  induction node as [t | | a IHa d IHd]; intros handled Hsz; simpl.
  - apply respects_raise.
  - apply respects_ret.
  - simpl in Hsz.
    destruct d; (apply respects_bind;
      [ apply self_respects; simpl; lia
      | intros _; apply IHd; simpl in *; lia ]).
Qed.

Lemma respects_cg_statements (node : sexp) (dd : ddest) (cd : cdest) :
  (size node <= bound)%nat ->
  respects R (cg_statements self_cg_form node dd cd).
Proof.
  intros Hsz. unfold cg_statements. apply respects_bind.
  - now apply respects_cg_statements_loop.
  - intros handled. destruct (negb handled);
      [apply respects_cg_goto | apply respects_ret].
Qed.

Lemma respects_cg_sub (node : sexp) (dd : ddest) (cd : cdest) :
  (size node <= bound)%nat -> respects R (cg_sub self_cg_form node dd cd).
Proof.
  intros Hsz. unfold cg_sub, cdr_car, cdr_cdr.
  resp_with ltac:(apply respects_cg_statements; simpl in *; lia).
Qed.

Lemma respects_cg_if (node : sexp) (dd : ddest) (cd : cdest) :
  (size node <= bound)%nat -> respects R (cg_if self_cg_form node dd cd).
Proof. intros Hsz. unfold cg_if. resp_forms. Qed.

Lemma respects_declare_variables_loop (varlist : sexp) :
  respects R (declare_variables_loop varlist).
Proof.
  induction varlist as [t | | a IHa d IHd]; simpl.
  - apply respects_raise.
  - apply respects_ret.
  - resp_with ltac:(exact IHd).
Qed.

Lemma respects_declare_variables (node : sexp) :
  respects R (declare_variables node).
Proof.
  unfold declare_variables.
  resp_with ltac:(apply respects_declare_variables_loop).
Qed.

Lemma respects_cg_set_var (node : sexp) (dd : ddest) (cd : cdest) :
  (size node <= bound)%nat -> respects R (cg_set_var self_cg_form node dd cd).
Proof. intros Hsz. unfold cg_set_var. resp_forms. Qed.

Lemma respects_cg_literal (n : option pyval) (dd : ddest) (cd : cdest) :
  respects R (cg_literal n dd cd).
Proof. unfold cg_literal. resp_forms. Qed.

Lemma respects_cg_atom (node : sexp) (dd : ddest) (cd : cdest) :
  respects R (cg_atom node dd cd).
Proof.
  unfold cg_atom.
  resp_with ltac:(first
    [ apply respects_cg_literal | apply respects_cg_ld16_gv
    | apply respects_cg_goto ]).
Qed.

Lemma respects_cg_pair (node : sexp) (dd : ddest) (cd : cdest) :
  (size node <= bound)%nat -> respects R (cg_pair self_cg_form node dd cd).
Proof.
  intros Hsz. unfold cg_pair.
  apply respects_with_car; intros head rest ->.
  repeat match goal with
         | |- respects R (if is_str ?h ?t then _ else _) =>
             destruct (is_str h t)
         end.
  all: try match goal with
           | |- respects R (cg_binop _ _ _ _ _) =>
               solve [apply respects_cg_binop; auto; intros;
                      apply respects_emitters]
           end.
  - apply respects_declare_variables.
  - now apply respects_cg_set_var.
  - now apply respects_cg_if.
  - now apply respects_cg_sub.
  - simpl. apply respects_cg_statements. simpl in Hsz; lia.
  - apply respects_cg_address_of.
  - now apply respects_cg_poke.
  - now apply respects_cg_peek.
  - now apply respects_cg_output.
  - now apply respects_cg_input.
  - now apply respects_cg_highbyte.
  - now apply respects_cg_lowbyte.
  - now apply respects_cg_shift_right_logical.
  - unfold cg_shift_left. apply respects_cg_goto.
  - resp_forms.
Qed.

Lemma respects_cg_form_body (node : sexp) (dd : ddest) (cd : cdest) :
  (size node <= bound)%nat ->
  respects R (cg_form_body self_cg_form node dd cd).
Proof.
  intros Hsz. unfold cg_form_body. destruct (is_pair node).
  - now apply respects_cg_pair.
  - apply respects_cg_atom.
Qed.

End RespectForms.

Lemma respects_cg_form_bounded (k : nat) :
  forall node dd cd, (size node < k)%nat -> respects R (cg_form node dd cd).
Proof.
  induction k as [|k IH]; intros node dd cd Hsz; [lia|].
  rewrite cg_form_unfold.
  assert (Hbody : forall d c, respects R (cg_form_body cg_form node d c)).
  { intros d c. apply respects_cg_form_body with (bound := size node); [|lia].
    intros n d' c' Hn. apply IH. lia. }
  destruct (dd_eqb dd DD_ZFLAG); [|apply Hbody].
  resp_with ltac:(first [apply Hbody | apply respects_cg_goto]).
Qed.

Lemma respects_cg_form (node : sexp) (dd : ddest) (cd : cdest) :
  respects R (cg_form node dd cd).
Proof. apply (respects_cg_form_bounded (S (size node))). lia. Qed.

Lemma respects_main_loop (tree : list sexp) : respects R (main_loop tree).
Proof.
  induction tree as [|node rest IH]; simpl.
  - apply respects_ret.
  - apply respects_bind; [apply respects_cg_form | intros _; exact IH].
Qed.

End Respect.

(** ** The symbol table never holds a name twice *)

Lemma sexp_eqb_eq (a b : sexp) : sexp_eqb a b = true <-> a = b.
Proof.
  revert b. induction a as [s | | a1 IH1 a2 IH2]; intros [t | | b1 b2];
    simpl; split; intros H; try discriminate; try reflexivity.
  - apply String.eqb_eq in H. now subst.
  - injection H as ->. apply String.eqb_refl.
  - apply andb_true_iff in H as [H1 H2].
    apply IH1 in H1. apply IH2 in H2. now subst.
  - injection H as -> ->. apply andb_true_iff. split.
    + now apply IH1.
    + now apply IH2.
Qed.

Lemma py_in_In (x : sexp) (lst : list sexp) : py_in x lst = true <-> In x lst.
Proof.
  induction lst as [|y rest IH]; simpl.
  - split; [discriminate | intros []].
  - rewrite orb_true_iff, IH, sexp_eqb_eq. split; intros [H|H]; auto.
Qed.

Lemma nodup_snoc (x : sexp) (lst : list sexp) :
  NoDup lst -> py_in x lst = false -> NoDup (lst ++ [x]).
Proof.
  intros Hnd Hx. assert (Hnot : ~ In x lst).
  { intros Hin. apply py_in_In in Hin. congruence. }
  clear Hx. induction Hnd as [|y rest Hy Hrest IH]; simpl.
  - constructor; [intros [] | constructor].
  - constructor.
    + intros Hin. apply in_app_or in Hin as [Hin|[->|[]]].
      * contradiction.
      * apply Hnot. now left.
    + apply IH. intros Hin. apply Hnot. now right.
Qed.

Section Unique.

Context {repr : ObjRepr}.

Lemma unique_label_line (l : option pyval) :
  respects keeps_unique (cg_emit_label l).
Proof.
  intros s a s' H Hnd. destruct l as [[n|o]|]; inversion H; subst; exact Hnd.
Qed.

Lemma unique_append_line (line : string) :
  respects keeps_unique (append_line line).
Proof. intros s a s' H Hnd. inversion H; subst. exact Hnd. Qed.

Lemma unique_make_label : respects keeps_unique make_label.
Proof. intros s a s' H Hnd. inversion H; subst. exact Hnd. Qed.

Lemma unique_bracket (m : M unit) :
  respects keeps_unique m ->
  respects keeps_unique (cg_push_hl ;; m ;; cg_pop_de).
Proof.
  intros Hm s a s' H Hnd. unfold bind in H. cbn in H.
  match type of H with
  | match m ?s1 with _ => _ end = _ =>
      destruct (m s1) as [[[] s2]|e] eqn:E; [|discriminate]
  end.
  inversion H; subst. cbn. exact (Hm _ _ _ E Hnd).
Qed.

Lemma unique_declare (name : sexp) (e : exn) (k : M unit) :
  respects keeps_unique k ->
  respects keeps_unique
    (gs <- get_globals ;;
     if py_in name gs then raise e else append_global name ;; k).
Proof.
  intros Hk s a s' H Hnd. unfold bind, get_globals in H.
  destruct (py_in name (globals s)) eqn:Hin; [discriminate|].
  cbn in H. apply (Hk _ _ _ H). cbn. now apply nodup_snoc.
Qed.

Lemma cg_form_keeps_unique (node : sexp) (dd : ddest) (cd : cdest) :
  respects keeps_unique (cg_form node dd cd).
Proof.
  apply respects_cg_form.
  - intros s H. exact H.
  - intros s1 s2 s3 H12 H23 H. auto.
  - apply unique_label_line.
  - intros mnem oper _. apply unique_append_line.
  - apply unique_make_label.
  - apply unique_bracket.
  - apply unique_declare.
Qed.

Lemma main_loop_keeps_unique (tree : list sexp) :
  respects keeps_unique (main_loop tree).
Proof.
  apply respects_main_loop.
  - intros s H. exact H.
  - intros s1 s2 s3 H12 H23 H. auto.
  - apply unique_label_line.
  - intros mnem oper _. apply unique_append_line.
  - apply unique_make_label.
  - apply unique_bracket.
  - apply unique_declare.
Qed.

End Unique.

(** ** Lines that are neither [PUSH HL] nor [POP DE] *)

Lemma ends_with_colon_app (name : string) :
  ends_with_colon (name ++ ":") = true.
Proof.
  induction name as [|c rest IH]; [reflexivity|].
  simpl. destruct (rest ++ ":")%string eqn:E; [|exact IH].
  destruct rest; discriminate E.
Qed.

Lemma label_line_not_stack (name : string) :
  (name ++ ":")%string <> push_line /\ (name ++ ":")%string <> pop_line.
Proof.
  split; intros H; pose proof (ends_with_colon_app name) as Hc;
    rewrite H in Hc; discriminate Hc.
Qed.

Lemma instr_not_stack (mnem : string) (oper : option string) :
  emitted_mnemonic mnem = true ->
  instr mnem oper <> push_line /\ instr mnem oper <> pop_line.
Proof.
  unfold emitted_mnemonic, mnemonics. cbn [existsb]. intros H.
  repeat match type of H with
         | (String.eqb mnem ?t || _)%bool = true =>
             apply orb_true_iff in H as [H|H];
             [apply String.eqb_eq in H; subst mnem;
              split; unfold instr, push_line, pop_line; cbn; discriminate|]
         end.
  discriminate H.
Qed.

Lemma stack_depth_app (l1 l2 : list string) (d : nat) :
  stack_depth (l1 ++ l2) d
  = match stack_depth l1 d with
    | Some d' => stack_depth l2 d'
    | None => None
    end.
Proof.
  revert d. induction l1 as [|line rest IH]; intros d; [reflexivity|].
  cbn [app stack_depth].
  destruct (String.eqb line push_line); [apply IH|].
  destruct (String.eqb line pop_line); [|apply IH].
  destruct d; [reflexivity | apply IH].
Qed.

(** Lines that run from depth [d] also run from any greater depth, and
    change it by as much. *)
Lemma stack_depth_raise (ls : list string) (d d' k : nat) :
  stack_depth ls d = Some d' ->
  stack_depth ls (d + k) = Some (d' + k)%nat.
Proof.
  revert d. induction ls as [|line rest IH]; intros d H; cbn [stack_depth] in *.
  - injection H as <-. reflexivity.
  - destruct (String.eqb line push_line); [exact (IH (S d) H)|].
    destruct (String.eqb line pop_line); [|exact (IH d H)].
    destruct d as [|d0]; [discriminate H|]. exact (IH d0 H).
Qed.

(** The depth changes by the number of pushes less the number of pops. *)
Lemma stack_depth_counts (ls : list string) (d d' : nat) :
  stack_depth ls d = Some d' ->
  (d + count_occ string_dec ls push_line
   = d' + count_occ string_dec ls pop_line)%nat.
Proof.
  revert d. induction ls as [|line rest IH]; intros d H; cbn [stack_depth] in H.
  - injection H as <-. reflexivity.
  - cbn [count_occ].
    destruct (String.eqb line push_line) eqn:Epush.
    + apply String.eqb_eq in Epush. subst line.
      destruct (string_dec push_line push_line) as [_|N]; [|contradiction].
      destruct (string_dec push_line pop_line) as [E|_]; [discriminate E|].
      specialize (IH _ H). lia.
    + apply String.eqb_neq in Epush.
      destruct (string_dec line push_line) as [E|_]; [contradiction|].
      destruct (String.eqb line pop_line) eqn:Epop.
      * apply String.eqb_eq in Epop. subst line.
        destruct (string_dec pop_line pop_line) as [_|N]; [|contradiction].
        destruct d as [|d0]; [discriminate H|].
        specialize (IH _ H). lia.
      * apply String.eqb_neq in Epop.
        destruct (string_dec line pop_line) as [E|_]; [contradiction|].
        exact (IH _ H).
Qed.

Lemma balanced_counts (ls : list string) :
  balanced ls ->
  count_occ string_dec ls push_line = count_occ string_dec ls pop_line.
Proof. intros H. exact (stack_depth_counts ls 0 0 H). Qed.

Lemma balanced_nil : balanced [].
Proof. reflexivity. Qed.

Lemma balanced_app (l1 l2 : list string) :
  balanced l1 -> balanced l2 -> balanced (l1 ++ l2).
Proof.
  unfold balanced. intros H1 H2. now rewrite stack_depth_app, H1.
Qed.

Lemma balanced_other (line : string) :
  line <> push_line -> line <> pop_line -> balanced [line].
Proof.
  intros H1 H2. unfold balanced. cbn [stack_depth].
  apply String.eqb_neq in H1, H2. now rewrite H1, H2.
Qed.

Lemma balanced_bracket (ls : list string) :
  balanced ls -> balanced (push_line :: ls ++ [pop_line]).
Proof.
  unfold balanced. intros H.
  change (stack_depth (ls ++ [pop_line]) 1 = Some 0%nat).
  rewrite stack_depth_app.
  change 1%nat with (0 + 1)%nat.
  rewrite (stack_depth_raise ls 0 0 1 H). reflexivity.
Qed.

(** ** Pushes and pops are balanced *)

Section Balance.

Context {repr : ObjRepr}.

Lemma appends_balanced_refl (s : compiler) : appends_balanced s s.
Proof. exists []. split; [now rewrite app_nil_r | apply balanced_nil]. Qed.

Lemma appends_balanced_trans (s1 s2 s3 : compiler) :
  appends_balanced s1 s2 -> appends_balanced s2 s3 -> appends_balanced s1 s3.
Proof.
  intros (l1 & H1 & B1) (l2 & H2 & B2). exists (l1 ++ l2)%list. split.
  - now rewrite H2, H1, app_assoc.
  - now apply balanced_app.
Qed.

Lemma balance_label_line (l : option pyval) :
  respects appends_balanced (cg_emit_label l).
Proof.
  intros s a s' H. destruct l as [[n|o]|]; inversion H; subst.
  - exists [(("L" ++ str_of_int n) ++ ":")%string]. split; [reflexivity|].
    apply balanced_other; apply (label_line_not_stack ("L" ++ str_of_int n)).
  - exists [(py_str o ++ ":")%string]. split; [reflexivity|].
    apply balanced_other; apply (label_line_not_stack (py_str o)).
  - apply appends_balanced_refl.
Qed.

Lemma balance_instr (mnem : string) (oper : option string) :
  emitted_mnemonic mnem = true ->
  respects appends_balanced (append_line (instr mnem oper)).
Proof.
  intros Hm s a s' H. inversion H; subst.
  exists [instr mnem oper]. split; [reflexivity|].
  apply balanced_other; now apply (instr_not_stack mnem oper).
Qed.

Lemma balance_make_label : respects appends_balanced make_label.
Proof.
  intros s a s' H. inversion H; subst. exists []. cbn.
  split; [now rewrite app_nil_r | apply balanced_nil].
Qed.

Lemma balance_bracket (m : M unit) :
  respects appends_balanced m ->
  respects appends_balanced (cg_push_hl ;; m ;; cg_pop_de).
Proof.
  intros Hm s a s' H. unfold bind in H. cbn in H.
  match type of H with
  | match m ?s1 with _ => _ end = _ =>
      destruct (m s1) as [[[] s2]|e] eqn:E; [|discriminate];
      destruct (Hm _ _ _ E) as (ls & Hls & Hbal)
  end.
  inversion H; subst. cbn in *. exists (push_line :: ls ++ [pop_line])%list.
  split; [|now apply balanced_bracket].
  rewrite Hls, <- !app_assoc. reflexivity.
Qed.

Lemma balance_declare (name : sexp) (e : exn) (k : M unit) :
  respects appends_balanced k ->
  respects appends_balanced
    (gs <- get_globals ;;
     if py_in name gs then raise e else append_global name ;; k).
Proof.
  intros Hk s a s' H. unfold bind, get_globals in H.
  destruct (py_in name (globals s)); [discriminate|].
  cbn in H. exact (Hk _ _ _ H).
Qed.

Lemma main_loop_appends_balanced (tree : list sexp) :
  respects appends_balanced (main_loop tree).
Proof.
  apply respects_main_loop.
  - apply appends_balanced_refl.
  - apply appends_balanced_trans.
  - apply balance_label_line.
  - apply balance_instr.
  - apply balance_make_label.
  - apply balance_bracket.
  - apply balance_declare.
Qed.

Lemma cg_form_appends_balanced (node : sexp) (dd : ddest) (cd : cdest) :
  respects appends_balanced (cg_form node dd cd).
Proof.
  apply respects_cg_form.
  - apply appends_balanced_refl.
  - apply appends_balanced_trans.
  - apply balance_label_line.
  - apply balance_instr.
  - apply balance_make_label.
  - apply balance_bracket.
  - apply balance_declare.
Qed.

End Balance.

(** ** Every line is a label line or a known instruction *)

Lemma emitted_mnemonic_In (mnem : string) :
  emitted_mnemonic mnem = true -> In mnem mnemonics.
Proof.
  unfold emitted_mnemonic. intros H.
  apply existsb_exists in H as (x & Hin & Heq).
  apply String.eqb_eq in Heq. now subst.
Qed.

Section WellFormed.

Context {repr : ObjRepr}.

Lemma well_formed_refl (s : compiler) : appends_well_formed s s.
Proof. exists []. split; [now rewrite app_nil_r | constructor]. Qed.

Lemma well_formed_trans (s1 s2 s3 : compiler) :
  appends_well_formed s1 s2 -> appends_well_formed s2 s3 ->
  appends_well_formed s1 s3.
Proof.
  intros (l1 & H1 & B1) (l2 & H2 & B2). exists (l1 ++ l2)%list. split.
  - now rewrite H2, H1, app_assoc.
  - apply Forall_app. now split.
Qed.

Lemma well_formed_label_line (l : option pyval) :
  respects appends_well_formed (cg_emit_label l).
Proof.
  intros s a s' H. destruct l as [[n|o]|]; inversion H; subst.
  - exists [(("L" ++ str_of_int n) ++ ":")%string]. split; [reflexivity|].
    constructor; [|constructor]. left. now exists ("L" ++ str_of_int n).
  - exists [(py_str o ++ ":")%string]. split; [reflexivity|].
    constructor; [|constructor]. left. now exists (py_str o).
  - apply well_formed_refl.
Qed.

Lemma well_formed_instr (mnem : string) (oper : option string) :
  emitted_mnemonic mnem = true ->
  respects appends_well_formed (append_line (instr mnem oper)).
Proof.
  intros Hm s a s' H. inversion H; subst.
  exists [instr mnem oper]. split; [reflexivity|].
  constructor; [|constructor]. right. left. exists mnem, oper.
  split; [now apply emitted_mnemonic_In | reflexivity].
Qed.

Lemma well_formed_make_label : respects appends_well_formed make_label.
Proof.
  intros s a s' H. inversion H; subst. exists []. cbn.
  split; [now rewrite app_nil_r | constructor].
Qed.

Lemma well_formed_bracket (m : M unit) :
  respects appends_well_formed m ->
  respects appends_well_formed (cg_push_hl ;; m ;; cg_pop_de).
Proof.
  intros Hm s a s' H. unfold bind in H. cbn in H.
  match type of H with
  | match m ?s1 with _ => _ end = _ =>
      destruct (m s1) as [[[] s2]|e] eqn:E; [|discriminate];
      destruct (Hm _ _ _ E) as (ls & Hls & Hok)
  end.
  inversion H; subst. cbn in *. exists (push_line :: ls ++ [pop_line])%list.
  split; [rewrite Hls, <- !app_assoc; reflexivity|].
  constructor.
  - right. right. now left.
  - apply Forall_app. split; [exact Hok|].
    constructor; [|constructor]. right. right. now right.
Qed.

Lemma well_formed_declare (name : sexp) (e : exn) (k : M unit) :
  respects appends_well_formed k ->
  respects appends_well_formed
    (gs <- get_globals ;;
     if py_in name gs then raise e else append_global name ;; k).
Proof.
  intros Hk s a s' H. unfold bind, get_globals in H.
  destruct (py_in name (globals s)); [discriminate|].
  cbn in H. exact (Hk _ _ _ H).
Qed.

Lemma main_loop_appends_well_formed (tree : list sexp) :
  respects appends_well_formed (main_loop tree).
Proof.
  apply respects_main_loop.
  - apply well_formed_refl.
  - apply well_formed_trans.
  - apply well_formed_label_line.
  - apply well_formed_instr.
  - apply well_formed_make_label.
  - apply well_formed_bracket.
  - apply well_formed_declare.
Qed.

Lemma cg_form_appends_well_formed (node : sexp) (dd : ddest) (cd : cdest) :
  respects appends_well_formed (cg_form node dd cd).
Proof.
  apply respects_cg_form.
  - apply well_formed_refl.
  - apply well_formed_trans.
  - apply well_formed_label_line.
  - apply well_formed_instr.
  - apply well_formed_make_label.
  - apply well_formed_bracket.
  - apply well_formed_declare.
Qed.

End WellFormed.

(** ** Whole programs *)

Lemma main_loop_app {repr : ObjRepr} (t1 t2 : list sexp) :
  main_loop (t1 ++ t2) =r= (main_loop t1 ;; main_loop t2).
Proof.
  induction t1 as [|node rest IH]; intros s; simpl.
  - reflexivity.
  - unfold bind at 1 2 3.
    destruct (cg_form node DD_HL CD_RET s) as [[[] s1]|e]; [|reflexivity].
    apply IH.
Qed.

Lemma main_loop_grows {repr : ObjRepr} (tree : list sexp) :
  grows (main_loop tree).
Proof.
  induction tree as [|node rest IH]; simpl.
  - apply grows_ret.
  - apply grows_bind; [apply cg_form_grows | intros _; exact IH].
Qed.

(** Forms are compiled in order into one growing listing: the listing of a
    program starts with the listing of each of its prefixes, and a prefix
    that fails makes the whole program fail with the same exception,
    whatever follows. *)
Theorem program_listing_extends_prefix {repr : ObjRepr} (t1 t2 : list sexp) :
  (forall listing,
      compile (t1 ++ t2) = Ok listing ->
      exists l1 l2, compile t1 = Ok l1 /\ listing = (l1 ++ l2)%list)
  /\ (forall e, compile t1 = Raise e -> compile (t1 ++ t2) = Raise e).
Proof.
  unfold compile. rewrite (main_loop_app t1 t2 init_compiler). unfold bind.
  destruct (main_loop t1 init_compiler) as [[[] s1]|e1] eqn:E1; split.
  - intros listing H.
    destruct (main_loop t2 s1) as [[[] s2]|e2] eqn:E2; [|discriminate].
    injection H as <-.
    destruct (main_loop_grows t2 _ _ _ E2) as [[l2 Hl2] _ _].
    now exists (assembly_listing s1), l2.
  - discriminate.
  - discriminate.
  - intros e H. exact H.
Qed.

Lemma program_listing_extends_prefix_witness :
  compile ([int16_x] ++ [sub_foo_sets_x])
  = Ok ["X:"; "    DEFW   0"; "foo:"; "    LD     HL,5";
        "    LD     (X),HL"; "    RET    "]
  /\ (exists l1 l2,
         compile [int16_x] = Ok l1
         /\ ["X:"; "    DEFW   0"; "foo:"; "    LD     HL,5";
             "    LD     (X),HL"; "    RET    "] = (l1 ++ l2)%list)
  /\ compile [Atom "Y"] = Raise (ValueError "Symbol not declared: Y")
  /\ compile ([Atom "Y"] ++ [int16_x])
     = Raise (ValueError "Symbol not declared: Y").
Proof.
  split; [reflexivity|]. split.
  - exact (proj1 (program_listing_extends_prefix [int16_x] [sub_foo_sets_x])
             _ eq_refl).
  - split; [reflexivity|].
    exact (proj2 (program_listing_extends_prefix [Atom "Y"] [int16_x])
             _ eq_refl).
Defined.

(** The symbol table never holds a name twice: generating any form from a
    state whose symbol table is duplicate-free leaves it duplicate-free,
    and so does compiling any program from the initial state. *)
Theorem symbol_table_stays_duplicate_free {repr : ObjRepr} :
  (forall node dd cd s s',
      NoDup (globals s) ->
      cg_form node dd cd s = Ok (tt, s') ->
      NoDup (globals s'))
  /\ (forall tree s',
         main_loop tree init_compiler = Ok (tt, s') -> NoDup (globals s')).
Proof.
  split.
  - intros node dd cd s s' Hnd H.
    exact (cg_form_keeps_unique node dd cd _ _ _ H Hnd).
  - intros tree s' H.
    apply (main_loop_keeps_unique tree _ _ _ H). constructor.
Qed.

Lemma symbol_table_stays_duplicate_free_witness :
  main_loop program_decl_sub init_compiler
  = Ok (tt, {| assembly_listing :=
                 ["X:"; "    DEFW   0"; "foo:"; "    LD     HL,5";
                  "    LD     (X),HL"; "    RET    "];
               globals := [Atom "X"; Atom "foo"];
               next_label := 99 |})
  /\ NoDup [Atom "X"; Atom "foo"].
Proof.
  split; [reflexivity|].
  exact (proj2 (symbol_table_stays_duplicate_free (repr := plain_repr))
           program_decl_sub _ eq_refl).
Defined.

(** Pushes and pops are properly nested.  Read in order from an empty
    stack, the lines appended by generating any form, and the lines of any
    compiled listing, never meet a [POP DE] on an empty stack and leave the
    stack empty at the end: every [POP DE] closes the nearest open
    [PUSH HL], and every [PUSH HL] is closed later.  So the two lines occur
    equally often.  Each of these lines is [PUSH HL], [POP DE], a label
    line, or an instruction line with one of the nineteen [mnemonics],
    none of which is [PUSH] or [POP]. *)
Theorem pushes_and_pops_are_balanced {repr : ObjRepr} :
  (forall node dd cd s s',
      cg_form node dd cd s = Ok (tt, s') ->
      exists ls,
        assembly_listing s' = (assembly_listing s ++ ls)%list
        /\ balanced ls
        /\ count_occ string_dec ls push_line
           = count_occ string_dec ls pop_line
        /\ Forall line_ok ls)
  /\ (forall tree listing,
         compile tree = Ok listing ->
         balanced listing
         /\ count_occ string_dec listing push_line
            = count_occ string_dec listing pop_line
         /\ Forall line_ok listing).
Proof.
  split.
  - intros node dd cd s s' H.
    destruct (cg_form_appends_balanced node dd cd _ _ _ H) as (ls & Hls & Hbal).
    destruct (cg_form_appends_well_formed node dd cd _ _ _ H)
      as (ls' & Hls' & Hok).
    rewrite Hls in Hls'. apply app_inv_head in Hls'. subst ls'.
    exists ls. repeat split; try assumption. now apply balanced_counts.
  - intros tree listing H. unfold compile in H.
    destruct (main_loop tree init_compiler) as [[[] s']|e] eqn:E;
      [|discriminate].
    injection H as <-.
    destruct (main_loop_appends_balanced tree _ _ _ E) as (ls & Hls & Hbal).
    destruct (main_loop_appends_well_formed tree _ _ _ E)
      as (ls' & Hls' & Hok).
    cbn in Hls, Hls'. rewrite Hls. rewrite Hls' in Hls. subst ls'.
    repeat split; try assumption. now apply balanced_counts.
Qed.

Lemma pushes_and_pops_are_balanced_witness :
  compile program_stack
  = Ok ["    LD     HL,1"; "    PUSH   HL"; "    LD     DE,3";
        "    LD     HL,2"; "    ADD    HL,DE"; "    POP    DE";
        "    ADD    HL,DE"; "    RET    "]
  /\ balanced ["    LD     HL,1"; "    PUSH   HL"; "    LD     DE,3";
               "    LD     HL,2"; "    ADD    HL,DE"; "    POP    DE";
               "    ADD    HL,DE"; "    RET    "]
  /\ Forall line_ok ["    LD     HL,1"; "    PUSH   HL"; "    LD     DE,3";
                     "    LD     HL,2"; "    ADD    HL,DE"; "    POP    DE";
                     "    ADD    HL,DE"; "    RET    "].
Proof.
  split; [reflexivity|].
  pose proof (proj2 (pushes_and_pops_are_balanced (repr := plain_repr))
                program_stack _ eq_refl) as (Hbal & _ & Hok).
  split; [exact Hbal | exact Hok].
Defined.

(** Nesting is more than equal counts: a [POP DE] before its [PUSH HL], or
    a [PUSH HL] left open, is not [balanced]. *)
Example unordered_stack_lines_are_not_balanced :
  ~ balanced [pop_line; push_line]
  /\ count_occ string_dec [pop_line; push_line] push_line
     = count_occ string_dec [pop_line; push_line] pop_line
  /\ ~ balanced [push_line; "    LD     HL,1"]
  /\ balanced [push_line; push_line; pop_line; "    LD     HL,1"; pop_line].
Proof.
  unfold balanced. repeat split; try reflexivity; intros H; discriminate H.
Qed.

(** Every line of a compiled listing is a label line, a name followed by a
    colon; or the line [PUSH HL]; or the line [POP DE]; or an instruction
    line: four spaces, one of the nineteen [mnemonics] left-justified in
    six columns, a space, and the operand.  With [PUSH] and [POP], which
    occur with these operands only, that makes twenty-one mnemonics. *)
Theorem listing_lines_are_well_formed {repr : ObjRepr}
        (tree : list sexp) (listing : list string) :
  compile tree = Ok listing -> Forall line_ok listing.
Proof.
  intros H. unfold compile in H.
  destruct (main_loop tree init_compiler) as [[[] s']|e] eqn:E;
    [|discriminate].
  injection H as <-.
  destruct (main_loop_appends_well_formed tree _ _ _ E) as (ls & Hls & Hok).
  cbn in Hls. now rewrite Hls.
Qed.

Lemma listing_lines_are_well_formed_witness :
  (compile program_decl_sub
   = Ok ["X:"; "    DEFW   0"; "foo:"; "    LD     HL,5";
         "    LD     (X),HL"; "    RET    "]
   /\ Forall line_ok ["X:"; "    DEFW   0"; "foo:"; "    LD     HL,5";
                      "    LD     (X),HL"; "    RET    "])
  /\ (compile program_stack
      = Ok ["    LD     HL,1"; "    PUSH   HL"; "    LD     DE,3";
            "    LD     HL,2"; "    ADD    HL,DE"; "    POP    DE";
            "    ADD    HL,DE"; "    RET    "]
      /\ Forall line_ok ["    LD     HL,1"; "    PUSH   HL"; "    LD     DE,3";
                         "    LD     HL,2"; "    ADD    HL,DE"; "    POP    DE";
                         "    ADD    HL,DE"; "    RET    "]).
Proof.
  split; (split; [reflexivity|]).
  - exact (listing_lines_are_well_formed (repr := plain_repr)
             program_decl_sub _ eq_refl).
  - exact (listing_lines_are_well_formed (repr := plain_repr)
             program_stack _ eq_refl).
Defined.

(** The classification tells the stack lines apart: an instruction line
    with one of the nineteen [mnemonics] is never a [PUSH] or [POP] line,
    whatever its operand. *)
Lemma plain_instruction_is_not_a_stack_line (mnem : string)
      (oper oper' : option string) :
  In mnem mnemonics ->
  instr mnem oper <> instr "PUSH" oper' /\ instr mnem oper <> instr "POP" oper'.
Proof.
  unfold mnemonics. cbn [In]. intros H.
  repeat match type of H with
         | _ \/ _ => destruct H as [<-|H];
                       [split; unfold instr; cbn; discriminate|]
         end.
  contradiction.
Qed.

(** Generation only extends the compiler's state: across any successful
    run of [cg_form], and across any program, earlier lines and earlier
    symbols stay where they are, a declared name stays declared and the
    label counter does not decrease. *)
Theorem generation_only_extends_the_state {repr : ObjRepr} :
  (forall node dd cd s s',
      cg_form node dd cd s = Ok (tt, s') ->
      extends s s'
      /\ forall name, py_in name (globals s) = true ->
                      py_in name (globals s') = true)
  /\ (forall tree s s',
         main_loop tree s = Ok (tt, s') -> extends s s').
Proof.
  split.
  - intros node dd cd s s' H.
    pose proof (cg_form_grows node dd cd _ _ _ H) as Hext.
    split; [exact Hext|]. intros name Hin.
    destruct Hext as [_ [gs Hgs] _]. rewrite Hgs.
    apply py_in_In. apply in_or_app. left. now apply py_in_In.
  - intros tree s s' H. exact (main_loop_grows tree _ _ _ H).
Qed.

Lemma generation_only_extends_the_state_witness :
  cg_form sub_foo_sets_x DD_HL CD_RET (declared init_compiler "X")
  = Ok (tt, {| assembly_listing :=
                 ["X:"; "    DEFW   0"; "foo:"; "    LD     HL,5";
                  "    LD     (X),HL"; "    RET    "];
               globals := [Atom "X"; Atom "foo"];
               next_label := 99 |})
  /\ extends (declared init_compiler "X")
             {| assembly_listing :=
                  ["X:"; "    DEFW   0"; "foo:"; "    LD     HL,5";
                   "    LD     (X),HL"; "    RET    "];
                globals := [Atom "X"; Atom "foo"];
                next_label := 99 |}.
Proof.
  split; [reflexivity|].
  exact (proj1 (proj1 (generation_only_extends_the_state (repr := plain_repr))
                  sub_foo_sets_x DD_HL CD_RET
                  (declared init_compiler "X") _ eq_refl)).
Defined.

(** ** Names that are not declared, sizes that are not supported *)

Lemma is_symbol_token_inv (name : string) :
  is_symbol_token name = true ->
  exists c rest,
    name = String c rest /\ char_between "0" c "9" = false /\ c <> "-"%char.
Proof.
  destruct name as [|c rest]; [discriminate|]. simpl. intros H.
  apply andb_true_iff in H as [H1 H2].
  apply negb_true_iff in H1. apply negb_true_iff in H2.
  apply Ascii.eqb_neq in H2. now exists c, rest.
Qed.

(** A head that is none of the [form_heads] reaches the last branch of the
    dispatcher. *)
Lemma cg_pair_other_head {repr : ObjRepr}
      (self_cg_form : sexp -> ddest -> cdest -> M unit)
      (name : string) (rest : sexp) (dd : ddest) (cd : cdest) :
  is_form_head name = false ->
  cg_pair self_cg_form (Pair (Atom name) rest) dd cd
  = (gs <- get_globals ;;
     if negb (py_in (Atom name) gs) then
       raise (ValueError ("Unsupported: " ++ name))
     else
       match rest with
       | Nil => cg_call_libfn name cd
       | _ => raise (ValueError
                       ("Arguments to subroutines not supported: " ++ name))
       end).
Proof.
  unfold is_form_head, form_heads. cbn [existsb]. intros H.
  repeat (apply orb_false_iff in H; destruct H as [?H H]).
  unfold cg_pair. cbn [with_car with_cdr is_str py_str].
  repeat match goal with
         | E : String.eqb name ?t = false |- _ => rewrite E; clear E
         end.
  destruct rest; reflexivity.
Qed.

(** When [cg_form] raises under every data destination other than
    [DD_ZFLAG], it raises under [DD_ZFLAG] too. *)
Lemma cg_form_raises {repr : ObjRepr}
      (node : sexp) (e : exn) (s : compiler) :
  (forall dd cd, dd <> DD_ZFLAG -> cg_form node dd cd s = Raise e) ->
  forall dd cd, cg_form node dd cd s = Raise e.
Proof.
  intros H dd cd.
  destruct (dd_eqb dd DD_ZFLAG) eqn:E.
  - rewrite cg_form_unfold, E.
    rewrite <- (cg_form_not_zflag node DD_HL CD_NEXT) by discriminate.
    unfold bind at 1. rewrite H by discriminate. reflexivity.
  - apply H. intros ->. discriminate.
Qed.

(** A name that is not in the symbol table is rejected wherever it is
    used, under every destination: as a symbol reference, as the target of
    the address-of operator, and as the head of a call. *)
Theorem undeclared_names_are_rejected {repr : ObjRepr}
        (name : string) (rest : sexp) (dd : ddest) (cd : cdest) (s : compiler) :
  py_in (Atom name) (globals s) = false ->
  (is_symbol_token name = true ->
   cg_form (Atom name) dd cd s
   = Raise (ValueError ("Symbol not declared: " ++ name)))
  /\ cg_form (Pair (Atom "@") (Pair (Atom name) rest)) dd cd s
     = Raise (ValueError
                ("@ operator reference to undeclared variable or procedure: "
                 ++ name))
  /\ (is_form_head name = false ->
      cg_form (Pair (Atom name) rest) dd cd s
      = Raise (ValueError ("Unsupported: " ++ name))).
Proof.
  intros Hin. split; [|split].
  - intros Hsym. apply is_symbol_token_inv in Hsym as (c & t & -> & Hd & Hm).
    apply cg_form_raises. intros d c' Hz.
    rewrite (cg_form_symbol_token c t d c') by assumption.
    unfold cg_symbol, bind, get_globals. now rewrite Hin.
  - apply cg_form_raises. intros d c' Hz.
    rewrite cg_form_not_zflag by assumption.
    unfold cg_form_body, cg_pair, cg_address_of, bind, get_globals.
    cbn. now rewrite Hin.
  - intros Hhead. apply cg_form_raises. intros d c' Hz.
    rewrite cg_form_not_zflag by assumption.
    unfold cg_form_body. cbn [is_pair].
    rewrite cg_pair_other_head by assumption.
    unfold bind, get_globals. now rewrite Hin.
Qed.

Lemma undeclared_names_are_rejected_witness :
  py_in (Atom "Y") (globals init_compiler) = false
  /\ is_symbol_token "Y" = true
  /\ is_form_head "Y" = false
  /\ compile [Atom "Y"] = Raise (ValueError "Symbol not declared: Y")
  /\ cg_form (slist [Atom "@"; Atom "Y"]) DD_HL CD_RET init_compiler
     = Raise (ValueError
                "@ operator reference to undeclared variable or procedure: Y")
  /\ cg_form (slist [Atom "Y"]) DD_HL CD_RET init_compiler
     = Raise (ValueError "Unsupported: Y").
Proof.
  split; [reflexivity|]. split; [reflexivity|]. split; [reflexivity|].
  split; [reflexivity|].
  pose proof (undeclared_names_are_rejected
                "Y" Nil DD_HL CD_RET init_compiler eq_refl) as (_ & Haddr & Hcall).
  split; [exact Haddr | exact (Hcall eq_refl)].
Defined.

(** The four memory and port forms accept the sizes [byte] and [word]
    only.  Any other size is rejected before an operand is generated or a
    register is chosen, under every destination, and the message names
    [poke] for all four forms. *)
Theorem unsupported_size_is_rejected {repr : ObjRepr}
        (sz addr datum rest : sexp) (dd : ddest) (cd : cdest) (s : compiler) :
  is_str sz "byte" = false ->
  is_str sz "word" = false ->
  let e := ValueError ("Unsupported poke size: " ++ py_str sz) in
  cg_form (Pair (Atom "peek") (Pair sz (Pair addr rest))) dd cd s = Raise e
  /\ cg_form (Pair (Atom "input") (Pair sz (Pair addr rest))) dd cd s = Raise e
  /\ cg_form (Pair (Atom "poke") (Pair sz (Pair addr (Pair datum rest)))) dd cd s
     = Raise e
  /\ cg_form (Pair (Atom "output") (Pair sz (Pair addr (Pair datum rest)))) dd cd s
     = Raise e.
Proof.
  intros Hb Hw e. subst e.
  repeat split; apply cg_form_raises; intros d c' Hz;
    rewrite cg_form_not_zflag by assumption;
    unfold cg_form_body, cg_pair, cg_peek, cg_input, cg_input_body,
      cg_poke, cg_output;
    cbn [is_pair with_car with_cdr cdr_car cdr_cdr cdr_cdr_car cdr_cdr_cdr
         cdr_cdr_cdr_car is_str String.eqb Ascii.eqb Bool.eqb];
    rewrite ?Hb, ?Hw; reflexivity.
Qed.

Lemma unsupported_size_is_rejected_witness :
  cg_form (slist [Atom "peek"; Atom "long"; Atom "1"]) DD_HL CD_RET init_compiler
  = Raise (ValueError "Unsupported poke size: long")
  /\ cg_form (slist [Atom "output"; Atom "long"; Atom "1"; Atom "2"])
             DD_HL CD_RET init_compiler
     = Raise (ValueError "Unsupported poke size: long").
Proof.
  pose proof (unsupported_size_is_rejected
                (Atom "long") (Atom "1") (Atom "2") Nil DD_HL CD_RET
                init_compiler eq_refl eq_refl) as (Hpeek & _ & _ & Hout).
  split; [exact Hpeek | exact Hout].
Defined.

(** ** Declaring several variables, and loading them *)

Lemma py_in_app (x : sexp) (l1 l2 : list sexp) :
  py_in x (l1 ++ l2) = py_in x l1 || py_in x l2.
Proof.
  induction l1 as [|y rest IH]; simpl; [reflexivity|].
  now rewrite IH, orb_assoc.
Qed.

Lemma py_in_atoms (x : string) (names : list string) :
  py_in (Atom x) (map Atom names) = true <-> In x names.
Proof.
  rewrite py_in_In, in_map_iff. split.
  - intros (y & [= ->] & Hy). exact Hy.
  - intros H. now exists x.
Qed.

Lemma declared_all_nil (s : compiler) : declared_all s [] = s.
Proof.
  destruct s. unfold declared_all. simpl. now rewrite !app_nil_r.
Qed.

Lemma declared_all_cons (s : compiler) (x : string) (names : list string) :
  declared_all (declared s x) names = declared_all s (x :: names).
Proof.
  unfold declared_all, declared. simpl. now rewrite <- !app_assoc.
Qed.

(** The loop over fresh, pairwise different names declares them all and
    goes on with what follows them. *)
Lemma declare_variables_loop_fresh {repr : ObjRepr}
      (names : list string) (tail : list sexp) (s : compiler) :
  NoDup names ->
  (forall n, In n names -> py_in (Atom n) (globals s) = false) ->
  declare_variables_loop (slist (map Atom names ++ tail)) s
  = declare_variables_loop (slist tail) (declared_all s names).
Proof.
  revert s. induction names as [|x rest IH]; intros s Hnd Hfresh.
  - now rewrite declared_all_nil.
  - inversion Hnd as [|? ? Hx Hrest]; subst.
    cbn [map app slist declare_variables_loop with_car with_cdr].
    unfold bind at 1, get_globals at 1.
    rewrite (Hfresh x) by now left.
    assert (Hstep : forall k : M unit,
               (append_global (Atom x) ;;
                asm (Some (PObj (Atom x))) "DEFW" (Some "0") ;; k) s
               = k (declared s x)).
    { intros k. unfold bind, append_global, asm, cg_emit_label, append_line,
        declared. cbn. now rewrite <- app_assoc. }
    rewrite Hstep.
    rewrite IH; [now rewrite declared_all_cons | assumption |].
    intros n Hn. unfold declared. cbn [globals].
    rewrite py_in_app, (Hfresh n) by now right.
    simpl. rewrite orb_false_r.
    destruct (String.eqb n x) eqn:E; [|reflexivity].
    apply String.eqb_eq in E. subst. contradiction.
Qed.

(** [(int16 N1 ... Nk)] with fresh, pairwise different names appends a
    label line and a [DEFW 0] line for each name in order and records the
    names; afterwards each of them that is a symbol token loads into any
    register pair or the accumulator with one [LD] from its address.  A
    name that is repeated or already declared stops the declaration with a
    [ValueError] naming it. *)
Theorem declared_variables_can_be_loaded {repr : ObjRepr}
        (names : list string) (dd : ddest) (cd : cdest) (s : compiler) :
  dd <> DD_ZFLAG ->
  NoDup names ->
  (forall n, In n names -> py_in (Atom n) (globals s) = false) ->
  cg_form (Pair (Atom "int16") (slist (map Atom names))) dd cd s
  = Ok (tt, declared_all s names)
  /\ (forall n dd' r,
         In n names -> is_symbol_token n = true ->
         to_reg dd' = Ok r -> dd' <> DD_B ->
         cg_form (Atom n) dd' CD_NEXT (declared_all s names)
         = Ok (tt, with_lines (declared_all s names)
                     [("    LD     " ++ r ++ ",(" ++ n ++ ")")%string]))
  /\ (forall x post,
         In x names \/ py_in (Atom x) (globals s) = true ->
         cg_form (Pair (Atom "int16") (slist (map Atom (names ++ x :: post))))
                 dd cd s
         = Raise (ValueError ("Variable already defined: " ++ x))).
Proof.
  intros Hz Hnd Hfresh. split; [|split].
  - rewrite cg_form_not_zflag by assumption.
    unfold cg_form_body, cg_pair. cbn [is_pair with_car is_str String.eqb Ascii.eqb Bool.eqb].
    unfold declare_variables. cbn [with_cdr].
    rewrite <- (app_nil_r (map Atom names)).
    rewrite declare_variables_loop_fresh by assumption.
    reflexivity.
  - intros n dd' r Hn Hsym Hreg HB.
    apply is_symbol_token_inv in Hsym as (c & t & -> & Hd & Hm).
    assert (Hz' : dd' <> DD_ZFLAG) by (intros ->; discriminate).
    rewrite (cg_form_symbol_token c t dd' CD_NEXT) by assumption.
    unfold cg_symbol, bind at 1, get_globals.
    assert (Hin : py_in (Atom (String c t)) (globals (declared_all s names)) = true).
    { unfold declared_all. cbn [globals]. rewrite py_in_app.
      apply orb_true_iff. right. now apply py_in_atoms. }
    rewrite Hin. unfold cg_ld16_gv.
    destruct (dd_eqb dd' DD_B) eqn:E; [destruct dd'; discriminate || congruence|].
    unfold cg_ld16_gv_reg, bind, lift. rewrite Hreg. reflexivity.
  - intros x post Hx.
    rewrite cg_form_not_zflag by assumption.
    unfold cg_form_body, cg_pair. cbn [is_pair with_car is_str String.eqb Ascii.eqb Bool.eqb].
    unfold declare_variables. cbn [with_cdr].
    rewrite map_app.
    rewrite declare_variables_loop_fresh by assumption.
    cbn [map slist declare_variables_loop with_car].
    unfold bind at 1, get_globals at 1.
    assert (Hin : py_in (Atom x) (globals (declared_all s names)) = true).
    { unfold declared_all. cbn [globals]. rewrite py_in_app.
      apply orb_true_iff. destruct Hx as [Hx|Hx]; [right|left; exact Hx].
      now apply py_in_atoms. }
    rewrite Hin. reflexivity.
Qed.

Lemma declared_variables_can_be_loaded_witness :
  cg_form (slist [Atom "int16"; Atom "X"; Atom "Y"]) DD_HL CD_RET init_compiler
  = Ok (tt, declared_all init_compiler ["X"; "Y"])
  /\ cg_form (Atom "Y") DD_DE CD_NEXT (declared_all init_compiler ["X"; "Y"])
     = Ok (tt, with_lines (declared_all init_compiler ["X"; "Y"])
                 ["    LD     DE,(Y)"])
  /\ cg_form (slist [Atom "int16"; Atom "X"; Atom "Y"; Atom "X"])
             DD_HL CD_RET init_compiler
     = Raise (ValueError "Variable already defined: X").
Proof.
  assert (Hnd : NoDup ["X"; "Y"]).
  { repeat constructor; simpl; intuition discriminate. }
  assert (Hfresh : forall n, In n ["X"; "Y"] ->
                             py_in (Atom n) (globals init_compiler) = false).
  { intros n _. reflexivity. }
  pose proof (declared_variables_can_be_loaded
                ["X"; "Y"] DD_HL CD_RET init_compiler
                ltac:(discriminate) Hnd Hfresh) as (Hdecl & Hload & Hdup).
  split; [exact Hdecl|]. split.
  - apply (Hload "Y" DD_DE "DE"); simpl; auto; discriminate.
  - apply (Hdup "X" []). left. simpl. auto.
Defined.

(** ** Subroutine calls *)



(** A declared name that is a built-in form head is still the form, not a
    call: after [(int16 do)], the form [(do)] is the empty statement list
    and ends in [RET], where a call would be [JP do]. *)
Example declared_form_head_is_the_form :
  is_form_head "do" = true
  /\ compile [slist [Atom "int16"; Atom "do"]; slist [Atom "do"]]
     = Ok ["do:"; "    DEFW   0"; "    RET    "]
  /\ compile [slist [Atom "int16"; Atom "run"]; slist [Atom "run"]]
     = Ok ["run:"; "    DEFW   0"; "    JP     run"].
Proof. repeat split; reflexivity. Qed.

(** ** Decimal literals *)

Lemma uint_value_of_uint_acc (d : Decimal.uint) (acc : positive) :
  Z.pos (Pos.of_uint_acc d acc) = uint_value d (Z.pos acc).
Proof.
  revert acc. induction d; intros acc; cbn [Pos.of_uint_acc uint_value];
    try reflexivity; rewrite IHd; f_equal; lia.
Qed.

Lemma uint_value_of_uint (d : Decimal.uint) :
  Z.of_N (Pos.of_uint d) = uint_value d 0.
Proof.
  induction d; cbn [Pos.of_uint uint_value Z.of_N]; try reflexivity;
    try exact IHd; rewrite uint_value_of_uint_acc; reflexivity.
Qed.

Lemma uint_value_to_uint (p : positive) :
  uint_value (Pos.to_uint p) 0 = Z.pos p.
Proof.
  rewrite <- uint_value_of_uint, DecimalPos.Unsigned.of_to. reflexivity.
Qed.

(** The scanner of [int] reads the digits of a numeral to their value. *)
Lemma scan_digits_numeral (d : Decimal.uint) (acc : Z) :
  scan_digits 10 (NilEmpty.string_of_uint d) acc false true
  = Some (uint_value d acc, "").
Proof.
  revert acc. induction d; intros acc; simpl; try reflexivity;
    rewrite IHd; reflexivity.
Qed.

(** The numeral of a positive number starts with a digit other than zero. *)
Lemma to_uint_leading (p : positive) :
  match Pos.to_uint p with
  | Decimal.Nil | Decimal.D0 _ => False
  | _ => True
  end.
Proof.
  pose proof (DecimalPos.Unsigned.to_of (Pos.to_uint p)) as H.
  rewrite DecimalPos.Unsigned.of_to in H. change (N.to_uint (N.pos p))
    with (Pos.to_uint p) in H.
  pose proof (DecimalPos.Unsigned.to_uint_nonzero p) as Hnz.
  pose proof (DecimalFacts.nzhead_nonzero (Pos.to_uint p)) as Hhead.
  revert H Hnz Hhead. generalize (Pos.to_uint p) as d.
  intros d H Hnz Hhead. destruct d as [|u| | | | | | | | |]; try exact I.
  - discriminate.
  - unfold Decimal.unorm in H.
    destruct (Decimal.nzhead (Decimal.D0 u)) as [|u0| | | | | | | | |] eqn:E';
      try discriminate.
    + injection H as ->. now elim Hnz.
    + now elim (Hhead u0).
Qed.

Lemma skip_prefix_no_zero (base : Z) (c : ascii) (rest : string) :
  Ascii.eqb c "0" = false -> skip_prefix base (String c rest) = String c rest.
Proof.
  intros H. unfold skip_prefix. destruct rest; [reflexivity|].
  now rewrite H.
Qed.

(** [int] in base ten on a text whose first character is a digit from 1
    to 9 and which the scanner reads to its end. *)
Lemma py_int_digits (c : ascii) (rest : string) (v : Z) :
  char_between "1" c "9" = true ->
  scan_digits 10 (String c rest) 0 false false = Some (v, "") ->
  py_int (String c rest) 10 = Ok v.
Proof.
  intros Hc Hscan.
  assert (Hne : forall k, char_between "1" k "9" = false ->
                          Ascii.eqb c k = false).
  { intros k Hk. destruct (Ascii.eqb c k) eqn:E; [|reflexivity].
    apply Ascii.eqb_eq in E. subst. congruence. }
  assert (Hspace : is_space c = false).
  { unfold char_between in Hc. unfold is_space.
    apply andb_true_iff in Hc as [H1 H2].
    apply Z.leb_le in H1, H2. change (ord "1") with 49 in H1.
    change (ord "9") with 57 in H2.
    repeat match goal with
           | |- context [?a <=? ?b] => destruct (Z.leb_spec a b)
           | |- context [?a =? ?b] => destruct (Z.eqb_spec a b)
           end; try reflexivity; lia. }
  unfold py_int. cbn [skip_spaces]. rewrite Hspace. cbn [take_sign].
  rewrite (Hne "+"%char), (Hne "-"%char) by reflexivity.
  rewrite skip_prefix_no_zero by (apply Hne; reflexivity).
  unfold underscore. rewrite (Hne "_"%char) by reflexivity.
  rewrite Hscan. cbn [skip_spaces]. now destruct v.
Qed.

Lemma scan_digits_step (c : ascii) (rest : string) (acc k : Z)
      (prev_us seen : bool) :
  Ascii.eqb c underscore = false ->
  digit_value c = Some k ->
  (k <? 10) = true ->
  scan_digits 10 (String c rest) acc prev_us seen
  = scan_digits 10 rest (acc * 10 + k) false true.
Proof.
  intros Hus Hd Hk. cbn [scan_digits]. now rewrite Hus, Hd, Hk.
Qed.

(** [int] reads a numeral without leading zero in base ten. *)
Lemma py_int_numeral (d : Decimal.uint) :
  match d with Decimal.Nil | Decimal.D0 _ => False | _ => True end ->
  exists c rest,
    NilEmpty.string_of_uint d = String c rest
    /\ char_between "1" c "9" = true
    /\ py_int (String c rest) 10 = Ok (uint_value d 0).
Proof.
  destruct d; intros H; try contradiction; clear H;
    cbn [NilEmpty.string_of_uint]; eexists; eexists;
    (split; [reflexivity|]); (split; [reflexivity|]);
    (apply py_int_digits; [reflexivity|]);
    erewrite scan_digits_step by reflexivity;
    cbn [uint_value]; apply scan_digits_numeral.
Qed.

(** [to_number] reads the decimal numeral of a number that is not
    negative back to that number. *)
Lemma to_number_decimal (n : Z) :
  0 <= n ->
  to_number (str_of_int n) = Ok (Some n)
  /\ exists c rest,
       str_of_int n = String c rest /\ char_between "0" c "9" = true.
Proof.
  intros Hn. destruct n as [|p|p]; [| |lia].
  - split; [reflexivity|]. now exists "0"%char, "".
  - unfold str_of_int. cbn [Z.to_int NilZero.string_of_int].
    pose proof (to_uint_leading p) as Hlead.
    pose proof (uint_value_to_uint p) as Hval.
    destruct (py_int_numeral (Pos.to_uint p) Hlead) as (c & rest & Hs & Hc & Hint).
    assert (Hnil : NilZero.string_of_uint (Pos.to_uint p)
                   = NilEmpty.string_of_uint (Pos.to_uint p)).
    { destruct (Pos.to_uint p); [contradiction | reflexivity ..]. }
    rewrite Hnil, Hs. split.
    + unfold to_number. cbn [String.length Nat.leb str_index String.get res_bind].
      assert (H0 : Ascii.eqb c "0" = false).
      { destruct (Ascii.eqb c "0") eqn:E; [|reflexivity].
        apply Ascii.eqb_eq in E. subst. discriminate. }
      rewrite H0, Hc, Hint, Hval. reflexivity.
    + exists c, rest. split; [reflexivity|].
      unfold char_between in *. apply andb_true_iff in Hc as [H1 H2].
      apply andb_true_iff. split; [|exact H2].
      apply Z.leb_le in H1. apply Z.leb_le. change (ord "1") with 49 in H1.
      change (ord "0") with 48. lia.
Qed.

Lemma cg_literal_load {repr : ObjRepr}
      (n : Z) (dd : ddest) (r : string) (cd : cdest) (s : compiler) :
  to_reg dd = Ok r ->
  cg_literal (Some (PInt n)) dd cd s = cg_goto cd (loaded s r n).
Proof.
  intros Hr. unfold cg_literal.
  assert (Hreg : is_register dd = true) by (destruct dd; try discriminate; reflexivity).
  rewrite Hreg. unfold cg_ld16, bind, lift. rewrite Hr. reflexivity.
Qed.

(** A decimal numeral of a number that is not negative compiles, for each
    of the five registers, to one [LD] of the same numeral followed by the
    transfer to the control destination; with a minus sign in front, to the
    [LD] of the negated number.  A minus sign alone is rejected with the
    [ValueError] of [to_number] for the empty token, under every
    destination. *)
Theorem decimal_literals_load_their_value {repr : ObjRepr}
        (n : Z) (dd : ddest) (r : string) (cd : cdest) (s : compiler) :
  0 <= n ->
  to_reg dd = Ok r ->
  to_number (str_of_int n) = Ok (Some n)
  /\ cg_form (Atom (str_of_int n)) dd cd s = cg_goto cd (loaded s r n)
  /\ cg_form (Atom (String "-" (str_of_int n))) dd cd s
     = cg_goto cd (loaded s r (- n))
  /\ (forall dd' cd',
         cg_form (Atom "-") dd' cd' s
         = Raise (ValueError "to_number called with empty token")).
Proof.
  intros Hn Hr.
  destruct (to_number_decimal n Hn) as (Hnum & c & rest & Hs & Hc).
  assert (Hz : dd <> DD_ZFLAG) by (intros ->; discriminate).
  split; [exact Hnum|]. split; [|split].
  - rewrite cg_form_not_zflag by assumption.
    unfold cg_form_body, cg_atom. cbn [is_pair].
    rewrite Hs in *.
    change (starts_with_decimal_digit (Atom (String c rest)))
      with (Ok (char_between "0" c "9")).
    rewrite Hc. unfold bind at 1, lift at 1.
    unfold bind at 1, lift at 1. cbn [to_number_obj]. rewrite Hnum.
    apply cg_literal_load. exact Hr.
  - rewrite (cg_form_minus_token (str_of_int n) n dd cd Hz Hnum).
    apply cg_literal_load. exact Hr.
  - apply cg_form_raises. intros d c' Hd.
    rewrite cg_form_not_zflag by assumption. reflexivity.
Qed.

Lemma decimal_literals_load_their_value_witness :
  to_number "1234" = Ok (Some 1234)
  /\ cg_form (Atom "1234") DD_DE CD_RET init_compiler
     = Ok (tt, with_lines init_compiler ["    LD     DE,1234"; "    RET    "])
  /\ cg_form (Atom "-1234") DD_DE CD_NEXT init_compiler
     = Ok (tt, with_lines init_compiler ["    LD     DE,-1234"]).
Proof.
  pose proof (decimal_literals_load_their_value
                1234 DD_DE "DE" CD_RET init_compiler ltac:(lia) eq_refl)
    as (Hnum & Hpos & _).
  pose proof (decimal_literals_load_their_value
                1234 DD_DE "DE" CD_NEXT init_compiler ltac:(lia) eq_refl)
    as (_ & _ & Hneg & _).
  split; [exact Hnum|]. split; [exact Hpos | exact Hneg].
Defined.

(** ** Destination errors cannot be reached from [main] *)

Lemma py_int_raises (text : string) (base : Z) (e : exn) :
  py_int text base = Raise e -> internal_error e = false.
Proof.
  unfold py_int. destruct (take_sign (skip_spaces text)) as [sign body].
  destruct (skip_prefix base body) as [|c rest]; [now intros [= <-]|].
  destruct (Ascii.eqb c underscore); [now intros [= <-]|].
  destruct (scan_digits base (String c rest) 0 false false) as [[v r]|];
    [|now intros [= <-]].
  destruct (skip_spaces r); [discriminate | now intros [= <-]].
Qed.

Lemma to_number_raises (t : string) (e : exn) :
  to_number t = Raise e -> internal_error e = false.
Proof.
  unfold to_number, str_index. intros H.
  repeat match type of H with
         | context [if ?b then _ else _] => destruct b
         | context [match String.get ?i ?t with _ => _ end] =>
             destruct (String.get i t)
         | context [res_bind (py_int ?t ?b) _] =>
             let E := fresh "E" in
             destruct (py_int t b) eqn:E; [| apply py_int_raises in E]
         | _ => progress cbn [res_bind] in H
         end; try discriminate H;
    injection H as <-; first [assumption | reflexivity].
Qed.

Section Safe.

Context {repr : ObjRepr}.

Lemma safe_ret {A} (a : A) : safe (ret a).
Proof. intros s Hs. exact Hs. Qed.

Lemma safe_raise {A} (e : exn) : internal_error e = false -> safe (@raise A e).
Proof. intros He s Hs. exact He. Qed.

Lemma safe_lift {A} (r : res A) :
  (forall e, r = Raise e -> internal_error e = false) -> safe (lift r).
Proof.
  intros Hr s Hs. unfold lift. destruct r as [a|e]; [exact Hs | now apply Hr].
Qed.

Lemma safe_get_globals : safe get_globals.
Proof. intros s Hs. exact Hs. Qed.

Lemma safe_append_global (name : sexp) : safe (append_global name).
Proof. intros s Hs. exact Hs. Qed.

Lemma safe_append_line (line : string) : safe (append_line line).
Proof. intros s Hs. exact Hs. Qed.

Lemma safe_bind {A B} (m : M A) (f : A -> M B) :
  safe m -> (forall a, safe (f a)) -> safe (bind m f).
Proof.
  intros Hm Hf s Hs. unfold bind. specialize (Hm s Hs).
  destruct (m s) as [[a s1]|e]; [apply Hf, Hm | exact Hm].
Qed.

(** What follows a label allocation may rely on the id being a label. *)
Lemma safe_make_label {B} (f : Z -> M B) :
  (forall id, CD_LABEL <= id -> safe (f id)) -> safe (bind make_label f).
Proof.
  intros Hf s Hs. unfold bind, make_label. unfold label_inv in Hs.
  apply Hf; unfold label_inv, CD_LABEL in *; cbn [next_label]; lia.
Qed.

Lemma safe_with_car {A} (node : sexp) (k : sexp -> M A) :
  (forall a d, node = Pair a d -> safe (k a)) -> safe (with_car node k).
Proof.
  intros H. destruct node; simpl; try (now apply safe_raise).
  now apply (H _ node2).
Qed.

Lemma safe_with_cdr {A} (node : sexp) (k : sexp -> M A) :
  (forall a d, node = Pair a d -> safe (k d)) -> safe (with_cdr node k).
Proof.
  intros H. destruct node; simpl; try (now apply safe_raise).
  now apply (H node1).
Qed.

Lemma safe_repeat_gen (n : nat) (body : M unit) :
  safe body -> safe (repeat_gen n body).
Proof.
  intros Hb. induction n; simpl.
  - apply safe_ret.
  - apply safe_bind; auto.
Qed.

Lemma safe_cg_emit_label (l : option pyval) : safe (cg_emit_label l).
Proof. intros s Hs. destruct l as [[n|o]|]; exact Hs. Qed.

Lemma safe_asm (l : option pyval) (mnem : string) (oper : option string) :
  safe (asm l mnem oper).
Proof.
  unfold asm. apply safe_bind; [apply safe_cg_emit_label|].
  intros _. apply safe_append_line.
Qed.

Lemma safe_to_reg (dd : ddest) :
  is_register dd = true -> safe (lift (to_reg dd)).
Proof.
  intros Hdd. apply safe_lift. destruct dd; try discriminate; discriminate.
Qed.

Lemma safe_str_index (text : string) (i : nat) : safe (lift (str_index text i)).
Proof.
  apply safe_lift. unfold str_index.
  destruct (String.get i text); [discriminate | now intros e [= <-]].
Qed.

Lemma safe_reg_half (dd : ddest) (i : nat) :
  is_register dd = true -> safe (reg_half dd i).
Proof.
  intros Hdd. unfold reg_half. apply safe_lift.
  destruct dd; try discriminate; cbn [to_reg res_bind]; unfold str_index;
    intros e; destruct (String.get i _); cbn [res_bind];
    try discriminate; now intros [= <-].
Qed.

Lemma safe_starts_with_decimal_digit (t : sexp) :
  safe (lift (starts_with_decimal_digit t)).
Proof.
  apply safe_lift. destruct t; simpl; try (now intros e [= <-]).
  unfold str_index. destruct (String.get 0 s); simpl;
    [discriminate | now intros e [= <-]].
Qed.

Lemma safe_to_number (t : string) : safe (lift (to_number t)).
Proof. apply safe_lift. intros e. apply to_number_raises. Qed.

Lemma safe_to_number_obj (t : sexp) : safe (lift (to_number_obj t)).
Proof.
  destruct t; simpl; try apply safe_to_number;
    apply safe_lift; now intros e [= <-].
Qed.

Lemma valid_cd_label (id : Z) : CD_LABEL <= id -> valid_cd (CD id) = true.
Proof.
  intros H. simpl. apply orb_true_iff. right. now apply Z.leb_le.
Qed.

Lemma is_register_zflag (dd : ddest) :
  dd <> DD_TMP -> dd_eqb dd DD_ZFLAG = false -> is_register dd = true.
Proof. destruct dd; intros H E; try reflexivity; [now elim H | discriminate E]. Qed.

Lemma is_register_not_tmp (dd : ddest) : is_register dd = true -> dd <> DD_TMP.
Proof. intros H ->. discriminate H. Qed.

(** One step: a primitive, a label allocation, a sequencing, an attribute
    access, or a case split. *)
Ltac safe_step :=
  first
    [ apply safe_ret | apply safe_raise; reflexivity
    | apply safe_get_globals | apply safe_append_global
    | apply safe_cg_emit_label | apply safe_asm
    | apply safe_str_index | apply safe_starts_with_decimal_digit
    | apply safe_to_number | apply safe_to_number_obj
    | apply safe_to_reg; first [assumption | reflexivity]
    | apply safe_reg_half; first [assumption | reflexivity]
    | progress cbn [with_car with_cdr]
    | apply safe_make_label; intros ? ?
    | apply safe_bind; [| intros ?]
    | apply safe_with_car; intros ? ? ?; subst
    | apply safe_with_cdr; intros ? ? ?; subst
    | apply safe_repeat_gen
    | match goal with
      | |- safe (if ?b then _ else _) => destruct b
      | |- safe (match ?x with _ => _ end) => destruct x
      end ].

Ltac safe_with tac := repeat first [tac | safe_step].

Lemma safe_cg_goto_int (n : Z) : valid_cd (CD n) = true -> safe (cg_goto_int n).
Proof.
  intros H. unfold cg_goto_int. simpl in H.
  destruct (n =? 1); [apply safe_ret|].
  destruct (n =? 0); [apply safe_asm|].
  simpl in H. rewrite H. apply safe_asm.
Qed.

Lemma safe_cg_goto (cd : cdest) : valid_cd cd = true -> safe (cg_goto cd).
Proof.
  induction cd as [n | t IHt f IHf]; intros H; cbn [cg_goto].
  - now apply safe_cg_goto_int.
  - cbn [valid_cd] in H.
    safe_with ltac:(first [apply safe_cg_goto_int; reflexivity | now apply IHf]).
Qed.

(** The side conditions on destinations. *)
Ltac safe_dest :=
  first
    [ assumption | reflexivity
    | apply valid_cd_label; assumption
    | cbn [valid_cd]; first [assumption | apply valid_cd_label; assumption]
    | apply is_register_not_tmp; first [assumption | reflexivity]
    | discriminate ].

Ltac safe_leaf :=
  safe_with ltac:(apply safe_cg_goto; safe_dest).

Lemma safe_cg_op_pair (dd ds : ddest) :
  is_register dd = true -> is_register ds = true ->
  safe (cg_op_pair "LD" "LD" dd ds).
Proof. intros Hd Hs. unfold cg_op_pair. safe_leaf. Qed.

Lemma safe_cg_ld16 (dd : ddest) (n : option pyval) :
  is_register dd = true -> safe (cg_ld16 dd n).
Proof. intros Hd. unfold cg_ld16. safe_leaf. Qed.

Lemma safe_cg_ld16_r16 (dd ds : ddest) :
  is_register dd = true -> is_register ds = true -> safe (cg_ld16_r16 dd ds).
Proof.
  intros Hd Hs. unfold cg_ld16_r16.
  safe_with ltac:(apply safe_cg_op_pair; assumption).
Qed.

Lemma safe_cg_ld16_gv (dd : ddest) (t : sexp) :
  is_register dd = true -> safe (cg_ld16_gv dd t).
Proof. intros Hd. unfold cg_ld16_gv, cg_ld16_gv_reg. safe_leaf. Qed.

Lemma safe_cg_op16 (dd ds1 ds2 : ddest) (cd : cdest) (op1 op2 : string) :
  is_register dd = true -> is_register ds1 = true -> is_register ds2 = true ->
  valid_cd cd = true ->
  safe (cg_op16 dd ds1 ds2 cd op1 op2).
Proof. intros Hd H1 H2 Hcd. unfold cg_op16. safe_leaf. Qed.

Lemma safe_cg_call_libfn (fn_name : string) (cd : cdest) :
  valid_cd cd = true -> safe (cg_call_libfn fn_name cd).
Proof. intros Hcd. unfold cg_call_libfn. safe_leaf. Qed.

(** The seven operator emitters. *)
Lemma safe_emitters (dd ds1 ds2 : ddest) (cd : cdest) :
  is_register dd = true -> is_register ds1 = true -> is_register ds2 = true ->
  valid_cd cd = true ->
  safe (cg_add dd ds1 ds2 cd)
  /\ safe (cg_subtract dd ds1 ds2 cd)
  /\ safe (cg_multiply dd ds1 ds2 cd)
  /\ safe (cg_divide dd ds1 ds2 cd)
  /\ safe (cg_bit_and dd ds1 ds2 cd)
  /\ safe (cg_bit_or dd ds1 ds2 cd)
  /\ safe (cg_bit_xor dd ds1 ds2 cd).
Proof.
  intros Hd H1 H2 Hcd.
  unfold cg_add, cg_subtract, cg_multiply, cg_divide, cg_bit_and, cg_bit_or,
    cg_bit_xor.
  repeat split;
    safe_with ltac:(first
      [ apply safe_cg_goto; safe_dest
      | apply safe_cg_call_libfn; safe_dest
      | apply safe_cg_ld16_r16; safe_dest
      | apply safe_cg_op16; safe_dest ]).
Qed.

Section SafeForms.

Variable self_cg_form : sexp -> ddest -> cdest -> M unit.
Variable bound : nat.
Hypothesis self_safe :
  forall n dd cd,
    (size n < bound)%nat -> dd <> DD_TMP -> valid_cd cd = true ->
    safe (self_cg_form n dd cd).

Ltac safe_self :=
  apply self_safe; [simpl in *; lia | safe_dest | safe_dest].

Ltac safe_forms :=
  unfold cdr_car, cdr_cdr_car, cdr_cdr_cdr_car, cdr_cdr_cdr, cdr_cdr;
  safe_with ltac:(first
    [ safe_self
    | apply safe_cg_goto; safe_dest
    | apply safe_cg_ld16_r16; safe_dest
    | apply safe_cg_ld16; safe_dest
    | apply safe_cg_ld16_gv; safe_dest
    | apply safe_cg_call_libfn; safe_dest ]).

Lemma safe_cg_binop (op : emitter) (node : sexp) (dd : ddest) (cd : cdest) :
  (forall d s1 s2 c,
      is_register d = true -> is_register s1 = true ->
      is_register s2 = true -> valid_cd c = true -> safe (op d s1 s2 c)) ->
  (size node <= bound)%nat ->
  is_register dd = true -> valid_cd cd = true ->
  safe (cg_binop self_cg_form op node dd cd).
Proof.
  intros Hop Hsz Hdd Hcd. unfold cg_binop, cg_push_hl, cg_pop_de.
  unfold cdr_car, cdr_cdr_car, cdr_cdr_cdr_car, cdr_cdr_cdr, cdr_cdr.
  safe_with ltac:(first [safe_self | apply Hop; safe_dest]).
Qed.

Lemma safe_do_variable_shift (cnt : sexp) (n_cnt : option Z) :
  (size cnt < bound)%nat ->
  safe (do_variable_shift self_cg_form cnt n_cnt).
Proof. intros Hsz. unfold do_variable_shift. safe_forms. Qed.

Lemma safe_cg_shift_right_logical (node : sexp) (dd : ddest) (cd : cdest) :
  (size node <= bound)%nat -> valid_cd cd = true ->
  safe (cg_shift_right_logical self_cg_form node dd cd).
Proof.
  intros Hsz Hcd.
  unfold cg_shift_right_logical, cdr_car, cdr_cdr_car, cdr_cdr.
  safe_with ltac:(first
    [ safe_self
    | apply safe_do_variable_shift; simpl in *; lia
    | apply safe_cg_goto; safe_dest ]).
Qed.

Lemma safe_cg_highbyte (node : sexp) (dd : ddest) (cd : cdest) :
  (size node <= bound)%nat -> valid_cd cd = true ->
  safe (cg_highbyte self_cg_form node dd cd).
Proof. intros Hsz Hcd. unfold cg_highbyte. safe_forms. Qed.

Lemma safe_cg_lowbyte (node : sexp) (dd : ddest) (cd : cdest) :
  (size node <= bound)%nat -> valid_cd cd = true ->
  safe (cg_lowbyte self_cg_form node dd cd).
Proof. intros Hsz Hcd. unfold cg_lowbyte. safe_forms. Qed.

Lemma safe_cg_input_body
      (self_cg_input : sexp -> ddest -> cdest -> M unit)
      (node : sexp) (dd : ddest) (cd : cdest) :
  (forall d c, is_register d = true -> valid_cd c = true ->
               safe (self_cg_input node d c)) ->
  (size node <= bound)%nat ->
  is_register dd = true -> valid_cd cd = true ->
  safe (cg_input_body self_cg_form self_cg_input node dd cd).
Proof.
  intros Hin Hsz Hdd Hcd. unfold cg_input_body.
  unfold cdr_car, cdr_cdr_car, cdr_cdr.
  safe_with ltac:(first
    [ safe_self | apply Hin; safe_dest | apply safe_cg_goto; safe_dest ]).
Qed.

Lemma safe_cg_input (node : sexp) (dd : ddest) (cd : cdest) :
  (size node <= bound)%nat ->
  is_register dd = true -> valid_cd cd = true ->
  safe (cg_input self_cg_form node dd cd).
Proof.
  intros Hsz Hdd Hcd. unfold cg_input.
  apply safe_cg_input_body; auto. intros d c Hd Hc.
  apply safe_cg_input_body; auto. intros; apply safe_ret.
Qed.

Lemma safe_cg_output (node : sexp) (dd : ddest) (cd : cdest) :
  (size node <= bound)%nat -> valid_cd cd = true ->
  safe (cg_output self_cg_form node dd cd).
Proof.
  intros Hsz Hcd. unfold cg_output, cg_push_hl, cg_pop_de. safe_forms.
Qed.

Lemma safe_cg_peek (node : sexp) (dd : ddest) (cd : cdest) :
  (size node <= bound)%nat ->
  is_register dd = true -> valid_cd cd = true ->
  safe (cg_peek self_cg_form node dd cd).
Proof. intros Hsz Hdd Hcd. unfold cg_peek. safe_forms. Qed.

Lemma safe_cg_poke (node : sexp) (dd : ddest) (cd : cdest) :
  (size node <= bound)%nat -> valid_cd cd = true ->
  safe (cg_poke self_cg_form node dd cd).
Proof.
  intros Hsz Hcd. unfold cg_poke, cg_push_hl, cg_pop_de. safe_forms.
Qed.

Lemma safe_cg_address_of (node : sexp) (dd : ddest) (cd : cdest) :
  is_register dd = true -> valid_cd cd = true ->
  safe (cg_address_of node dd cd).
Proof. intros Hdd Hcd. unfold cg_address_of. safe_forms. Qed.

Lemma safe_cg_statements_loop (node : sexp) (dd : ddest) (cd : cdest)
      (handled : bool) :
  (size node <= bound)%nat ->
  dd <> DD_TMP -> valid_cd cd = true ->
  safe (cg_statements_loop self_cg_form node dd cd handled).
Proof.
  intros Hsz Hdd Hcd. revert handled Hsz.
  induction node as [t | | a IHa d IHd]; intros handled Hsz; simpl.
  - now apply safe_raise.
  - apply safe_ret.
  - simpl in Hsz.
    destruct d; (apply safe_bind;
      [ apply self_safe; [simpl; lia | safe_dest | safe_dest]
      | intros _; apply IHd; simpl in *; lia ]).
Qed.

Lemma safe_cg_statements (node : sexp) (dd : ddest) (cd : cdest) :
  (size node <= bound)%nat ->
  dd <> DD_TMP -> valid_cd cd = true ->
  safe (cg_statements self_cg_form node dd cd).
Proof.
  intros Hsz Hdd Hcd. unfold cg_statements. apply safe_bind.
  - now apply safe_cg_statements_loop.
  - intros handled. destruct (negb handled);
      [now apply safe_cg_goto | apply safe_ret].
Qed.

Lemma safe_cg_sub (node : sexp) (dd : ddest) (cd : cdest) :
  (size node <= bound)%nat ->
  dd <> DD_TMP -> valid_cd cd = true ->
  safe (cg_sub self_cg_form node dd cd).
Proof.
  intros Hsz Hdd Hcd. unfold cg_sub, cdr_car, cdr_cdr.
  safe_with ltac:(apply safe_cg_statements;
                  [simpl in *; lia | assumption | assumption]).
Qed.

Lemma safe_cg_if (node : sexp) (dd : ddest) (cd : cdest) :
  (size node <= bound)%nat -> valid_cd cd = true ->
  safe (cg_if self_cg_form node dd cd).
Proof. intros Hsz Hcd. unfold cg_if. safe_forms. Qed.

Lemma safe_declare_variables_loop (varlist : sexp) :
  safe (declare_variables_loop varlist).
Proof.
  induction varlist as [t | | a IHa d IHd]; simpl.
  - now apply safe_raise.
  - apply safe_ret.
  - safe_with ltac:(exact IHd).
Qed.

Lemma safe_declare_variables (node : sexp) : safe (declare_variables node).
Proof.
  unfold declare_variables.
  safe_with ltac:(apply safe_declare_variables_loop).
Qed.

Lemma safe_cg_set_var (node : sexp) (dd : ddest) (cd : cdest) :
  (size node <= bound)%nat ->
  is_register dd = true -> valid_cd cd = true ->
  safe (cg_set_var self_cg_form node dd cd).
Proof. intros Hsz Hdd Hcd. unfold cg_set_var. safe_forms. Qed.

Lemma safe_cg_literal (n : option pyval) (dd : ddest) (cd : cdest) :
  is_register dd = true -> valid_cd cd = true ->
  safe (cg_literal n dd cd).
Proof.
  intros Hdd Hcd. unfold cg_literal. rewrite Hdd. safe_forms.
Qed.

Lemma safe_cg_atom (node : sexp) (dd : ddest) (cd : cdest) :
  is_register dd = true -> valid_cd cd = true ->
  safe (cg_atom node dd cd).
Proof.
  intros Hdd Hcd. unfold cg_atom.
  safe_with ltac:(first
    [ apply safe_cg_literal; assumption
    | apply safe_cg_ld16_gv; assumption
    | apply safe_cg_goto; assumption ]).
Qed.

Lemma safe_cg_pair (node : sexp) (dd : ddest) (cd : cdest) :
  (size node <= bound)%nat ->
  is_register dd = true -> valid_cd cd = true ->
  safe (cg_pair self_cg_form node dd cd).
Proof.
  intros Hsz Hdd Hcd. unfold cg_pair.
  pose proof (is_register_not_tmp dd Hdd) as Htmp.
  apply safe_with_car; intros head rest ->.
  repeat match goal with
         | |- safe (if is_str ?h ?t then _ else _) => destruct (is_str h t)
         end.
  all: try match goal with
           | |- safe (cg_binop _ _ _ _ _) =>
               solve [apply safe_cg_binop; auto; intros; now apply safe_emitters]
           end.
  - apply safe_declare_variables.
  - now apply safe_cg_set_var.
  - now apply safe_cg_if.
  - now apply safe_cg_sub.
  - simpl. apply safe_cg_statements; [simpl in Hsz; lia | assumption | reflexivity].
  - now apply safe_cg_address_of.
  - now apply safe_cg_poke.
  - now apply safe_cg_peek.
  - now apply safe_cg_output.
  - now apply safe_cg_input.
  - now apply safe_cg_highbyte.
  - now apply safe_cg_lowbyte.
  - now apply safe_cg_shift_right_logical.
  - unfold cg_shift_left. now apply safe_cg_goto.
  - safe_forms.
Qed.

Lemma safe_cg_form_body (node : sexp) (dd : ddest) (cd : cdest) :
  (size node <= bound)%nat ->
  is_register dd = true -> valid_cd cd = true ->
  safe (cg_form_body self_cg_form node dd cd).
Proof.
  intros Hsz Hdd Hcd. unfold cg_form_body. destruct (is_pair node).
  - now apply safe_cg_pair.
  - now apply safe_cg_atom.
Qed.

End SafeForms.

Lemma safe_cg_form_bounded (k : nat) :
  forall node dd cd,
    (size node < k)%nat -> dd <> DD_TMP -> valid_cd cd = true ->
    safe (cg_form node dd cd).
Proof.
  induction k as [|k IH]; intros node dd cd Hsz Hdd Hcd; [lia|].
  rewrite cg_form_unfold.
  assert (Hbody : forall d c, is_register d = true -> valid_cd c = true ->
                              safe (cg_form_body cg_form node d c)).
  { intros d c Hd Hc.
    apply safe_cg_form_body with (bound := size node); [|lia|assumption ..].
    intros n d' c' Hn Hd' Hc'. apply IH; [lia | assumption ..]. }
  destruct (dd_eqb dd DD_ZFLAG) eqn:E.
  - safe_with ltac:(first
      [ apply Hbody; reflexivity | now apply safe_cg_goto ]).
  - apply Hbody; [now apply is_register_zflag | assumption].
Qed.

Lemma safe_cg_form (node : sexp) (dd : ddest) (cd : cdest) :
  dd <> DD_TMP -> valid_cd cd = true -> safe (cg_form node dd cd).
Proof. apply (safe_cg_form_bounded (S (size node))). lia. Qed.

Lemma safe_main_loop (tree : list sexp) : safe (main_loop tree).
Proof.
  induction tree as [|node rest IH]; simpl.
  - apply safe_ret.
  - apply safe_bind; [|intros _; exact IH].
    apply safe_cg_form; [discriminate | reflexivity].
Qed.

End Safe.

(** The three destination errors are not reachable from [main]: started
    from a state whose label counter is at or above its initial value,
    with a data destination other than [DD_TMP] and a control destination
    that is [CD_RET], [CD_NEXT], a label id or a tuple of these, [cg_form]
    never ends in the [KeyError] of [to_reg], in [Unknown data
    destination] or in [Unknown control destination]; every destination
    it passes on to itself is again of this kind.  So no program makes the
    compiler fail with one of them. *)
Theorem destination_errors_are_unreachable {repr : ObjRepr} :
  (forall node dd cd s e,
      label_inv s -> dd <> DD_TMP -> valid_cd cd = true ->
      cg_form node dd cd s = Raise e -> internal_error e = false)
  /\ (forall tree e, compile tree = Raise e -> internal_error e = false).
Proof.
  split.
  - intros node dd cd s e Hs Hdd Hcd H.
    pose proof (safe_cg_form node dd cd Hdd Hcd s Hs) as Hsafe.
    now rewrite H in Hsafe.
  - intros tree e H. unfold compile in H.
    pose proof (safe_main_loop tree init_compiler label_inv_init) as Hsafe.
    destruct (main_loop tree init_compiler) as [[[] s]|e']; [discriminate|].
    injection H as <-. exact Hsafe.
Qed.

Lemma destination_errors_are_unreachable_witness :
  compile [slist [Atom "poke"; Atom "long"; Atom "1"; Atom "2"]]
  = Raise (ValueError "Unsupported poke size: long")
  /\ internal_error (ValueError "Unsupported poke size: long") = false
  /\ internal_error (ValueError "Symbol not declared: Y") = false.
Proof.
  split; [reflexivity|]. split.
  - exact (proj2 destination_errors_are_unreachable
             [slist [Atom "poke"; Atom "long"; Atom "1"; Atom "2"]] _ eq_refl).
  - exact (proj1 destination_errors_are_unreachable
             (Atom "Y") DD_ZFLAG (CD_BRANCH CD_NEXT (CD 100)) init_compiler _
             label_inv_init ltac:(discriminate) eq_refl eq_refl).
Defined.

(** Outside these destinations each of the three errors does occur. *)
Example destination_errors_outside_main :
  cg_form (Atom "1") DD_HL (CD 5) init_compiler
  = Raise (ValueError "Unknown control destination: 5")
  /\ cg_form (Atom "1") DD_TMP CD_NEXT init_compiler
     = Raise (ValueError "Unknown data destination: 4")
  /\ cg_form (slist [Atom "peek"; Atom "byte"; Atom "1"]) DD_TMP CD_NEXT
             init_compiler
     = Raise KeyError.
Proof. repeat split; reflexivity. Qed.

(** ** The layout of a conditional *)

Lemma cg_if_labels {repr : ObjRepr}
      (self_cg_form : sexp -> ddest -> cdest -> M unit)
      (k : Z -> Z -> M unit) (s : compiler) :
  (label_false <- make_label ;; label_end <- make_label ;;
   k label_false label_end) s
  = k (next_label s + 1) (next_label s + 2) (with_labels s 2).
Proof.
  unfold bind, make_label, with_labels. cbn.
  now replace (next_label s + 1 + 1) with (next_label s + 2) by lia.
Qed.

(** The predicate of a conditional: the run for [(DD_HL, CD_NEXT)], the
    test, and the transfer taken when the value is zero. *)
Lemma cg_form_predicate {repr : ObjRepr}
      (pred : sexp) (target : Z) (s s1 : compiler) :
  CD_LABEL <= target ->
  cg_form pred DD_HL CD_NEXT s = Ok (tt, s1) ->
  cg_form pred DD_ZFLAG (CD_BRANCH CD_NEXT (CD target)) s
  = Ok (tt, with_lines s1 (test_lines ("    JP     Z,L" ++ str_of_int target)))
  /\ cg_form pred DD_ZFLAG (CD_BRANCH CD_NEXT CD_RET) s
     = Ok (tt, with_lines s1 (test_lines "    RET    Z")).
Proof.
  intros Ht Hrun. unfold CD_LABEL in Ht.
  rewrite !cg_form_zflag_run. unfold bind. rewrite Hrun.
  cbn [cg_goto cd_eqb CD_NEXT CD_RET].
  replace (target =? 1) with false by (symmetry; apply Z.eqb_neq; lia).
  replace (target =? 0) with false by (symmetry; apply Z.eqb_neq; lia).
  change (1 =? 1) with true. change (0 =? 1) with false.
  change (0 =? 0) with true. cbv iota.
  unfold with_lines, test_lines, asm, cg_emit_label, append_line, bind, ret.
  cbn. rewrite <- !app_assoc. split; reflexivity.
Qed.

(** [(if PRED CONSEQ ALTER)] allocates two labels, generates the predicate
    into [HL] and tests it, jumps on zero to the first label, generates
    the consequent with the second label as control destination, places
    the first label, generates the alternative, places the second label
    and realises the control destination.  Without alternative and in
    return position it allocates the labels but uses neither: the test is
    followed by [RET Z] and the consequent; elsewhere the consequent gets
    the control destination itself, then the first label is placed and the
    control destination realised once more.  The data destination is not
    used: the value stays in [HL]. *)
Theorem conditional_layout {repr : ObjRepr}
        (pred conseq alter : sexp) (dd : ddest) (cd : cdest)
        (s s1 : compiler) :
  dd <> DD_ZFLAG ->
  label_inv s ->
  cg_form pred DD_HL CD_NEXT (with_labels s 2) = Ok (tt, s1) ->
  let label_false := next_label s + 1 in
  let label_end := next_label s + 2 in
  let jump := ("    JP     Z,L" ++ str_of_int label_false)%string in
  (forall s2 s3,
      cg_form conseq DD_HL (CD label_end) (with_lines s1 (test_lines jump))
      = Ok (tt, s2) ->
      cg_form alter DD_HL CD_NEXT
              (with_lines s2 [(("L" ++ str_of_int label_false) ++ ":")%string])
      = Ok (tt, s3) ->
      cg_form (slist [Atom "if"; pred; conseq; alter]) dd cd s
      = cg_goto cd
          (with_lines s3 [(("L" ++ str_of_int label_end) ++ ":")%string]))
  /\ (forall s2,
         cd <> CD_RET ->
         cg_form conseq DD_HL cd (with_lines s1 (test_lines jump))
         = Ok (tt, s2) ->
         cg_form (slist [Atom "if"; pred; conseq]) dd cd s
         = cg_goto cd
             (with_lines s2 [(("L" ++ str_of_int label_false) ++ ":")%string]))
  /\ cg_form (slist [Atom "if"; pred; conseq]) dd CD_RET s
     = cg_form conseq DD_HL CD_RET (with_lines s1 (test_lines "    RET    Z")).
Proof.
  intros Hz Hinv Hpred label_false label_end jump.
  assert (Hlf : CD_LABEL <= label_false).
  { unfold label_inv in Hinv. subst label_false. lia. }
  destruct (cg_form_predicate pred label_false _ _ Hlf Hpred) as [Hjump Hret].
  assert (Hhead : forall rest,
             cg_form (Pair (Atom "if") rest) dd cd s
             = cg_if cg_form (Pair (Atom "if") rest) dd cd s).
  { intros rest. now rewrite cg_form_not_zflag by assumption. }
  assert (Hhead_ret : forall rest,
             cg_form (Pair (Atom "if") rest) dd CD_RET s
             = cg_if cg_form (Pair (Atom "if") rest) dd CD_RET s).
  { intros rest. now rewrite cg_form_not_zflag by assumption. }
  split; [|split].
  - intros s2 s3 Hc Ha. cbn [slist]. rewrite Hhead. unfold cg_if.
    rewrite cg_if_labels by exact cg_form.
    cbn [cdr_car cdr_cdr_car cdr_cdr_cdr cdr_cdr with_car with_cdr].
    fold label_false label_end.
    unfold bind at 1. rewrite Hjump.
    unfold bind at 1. fold jump. rewrite Hc.
    unfold bind at 1. cbn [cg_emit_label append_line].
    change (append_line (("L" ++ str_of_int label_false) ++ ":") s2)
      with (Ok (tt, with_lines s2 [(("L" ++ str_of_int label_false) ++ ":")%string])).
    cbv iota beta.
    unfold bind at 1. unfold with_lines at 1 in Ha. rewrite Ha.
    unfold bind at 1. reflexivity.
  - intros s2 Hcd Hc. cbn [slist]. rewrite Hhead. unfold cg_if.
    rewrite cg_if_labels by exact cg_form.
    cbn [cdr_car cdr_cdr_car cdr_cdr_cdr cdr_cdr with_car with_cdr].
    fold label_false label_end.
    assert (E : cd_eqb cd CD_RET = false).
    { destruct cd as [n|t f]; [|reflexivity]. simpl. apply Z.eqb_neq.
      intros ->. now elim Hcd. }
    rewrite E. cbn [negb].
    unfold bind at 1. rewrite Hjump.
    unfold bind at 1. fold jump. rewrite Hc.
    unfold bind at 1. reflexivity.
  - cbn [slist]. rewrite Hhead_ret. unfold cg_if.
    rewrite cg_if_labels by exact cg_form.
    cbn [cdr_car cdr_cdr_car cdr_cdr_cdr cdr_cdr with_car with_cdr].
    change (cd_eqb CD_RET CD_RET) with true. cbn [negb].
    unfold bind at 1. rewrite Hret. reflexivity.
Qed.

Lemma conditional_layout_witness :
  cg_form (slist [Atom "if"; Atom "X"; Atom "1"; Atom "2"]) DD_HL CD_RET
          (declared init_compiler "X")
  = Ok (tt, {| assembly_listing :=
                 ["X:"; "    DEFW   0"; "    LD     HL,(X)"; "    LD     A,L";
                  "    OR     A,H"; "    JP     Z,L100"; "    LD     HL,1";
                  "    JP     L101"; "L100:"; "    LD     HL,2"; "L101:";
                  "    RET    "];
               globals := [Atom "X"];
               next_label := 101 |})
  /\ cg_form (slist [Atom "if"; Atom "X"; Atom "1"]) DD_HL CD_RET
             (declared init_compiler "X")
     = Ok (tt, {| assembly_listing :=
                    ["X:"; "    DEFW   0"; "    LD     HL,(X)";
                     "    LD     A,L"; "    OR     A,H"; "    RET    Z";
                     "    LD     HL,1"; "    RET    "];
                  globals := [Atom "X"];
                  next_label := 101 |}).
Proof.
  assert (Hinv : label_inv (declared init_compiler "X")).
  { unfold label_inv, CD_LABEL. simpl. lia. }
  pose proof (conditional_layout
                (Atom "X") (Atom "1") (Atom "2") DD_HL CD_RET
                (declared init_compiler "X") _
                ltac:(discriminate) Hinv eq_refl) as (Htwo & _ & Hone).
  split.
  - rewrite (Htwo _ _ eq_refl eq_refl). reflexivity.
  - rewrite Hone. reflexivity.
Defined.

(** ** Generated labels: placed once, and wherever a jump needs them *)

Lemma str_of_int_inj (a b : Z) : str_of_int a = str_of_int b -> a = b.
Proof.
  unfold str_of_int. intros H.
  assert (Hnn : forall n, Z.to_int n <> Decimal.Pos Decimal.Nil
                          /\ Z.to_int n <> Decimal.Neg Decimal.Nil).
  { intros [|p|p]; simpl; split; try discriminate; intros [= E];
      now apply (DecimalPos.Unsigned.to_uint_nonnil p). }
  apply DecimalZ.to_int_inj.
  destruct (Hnn a) as [Ha1 Ha2]. destruct (Hnn b) as [Hb1 Hb2].
  pose proof (NilZero.isi _ Ha1 Ha2) as Ea.
  pose proof (NilZero.isi _ Hb1 Hb2) as Eb.
  rewrite H in Ea. rewrite Ea in Eb. now injection Eb.
Qed.

Lemma app_colon_inj (a b : string) : (a ++ ":")%string = (b ++ ":")%string -> a = b.
Proof.
  revert b. induction a as [|c a IH]; intros [|d b] H; simpl in H.
  - reflexivity.
  - injection H as _ H. destruct b; discriminate H.
  - injection H as _ H. destruct a; discriminate H.
  - injection H as -> H. f_equal. now apply IH.
Qed.

Lemma label_line_inj (a b : Z) : label_line a = label_line b -> a = b.
Proof.
  unfold label_line. intros H. apply app_colon_inj in H.
  injection H as H. now apply str_of_int_inj.
Qed.

Lemma instr_not_label (mnem : string) (oper : option string) (id : Z) :
  instr mnem oper <> label_line id.
Proof. unfold instr, label_line. simpl. discriminate. Qed.

Lemma label_line_not_jump (id id' : Z) : ~ In (label_line id) (jump_lines id').
Proof.
  unfold jump_lines. intros H. simpl in H.
  repeat destruct H as [H|H]; try contradiction;
    now apply instr_not_label in H.
Qed.

Lemma plain_instr_not_jump (mnem : string) (oper : option string) (id : Z) :
  plain_mnemonic mnem = true -> ~ In (instr mnem oper) (jump_lines id).
Proof.
  unfold plain_mnemonic, plain_mnemonics. cbn [existsb]. intros H.
  repeat match type of H with
         | (String.eqb mnem ?t || _)%bool = true =>
             apply orb_true_iff in H as [H|H];
             [apply String.eqb_eq in H; subst mnem;
              unfold jump_lines, instr; cbn; intros Hin;
              repeat destruct Hin as [Hin|Hin]; try contradiction;
              discriminate Hin|]
         end.
  discriminate H.
Qed.

Lemma jump_lines_inj (a b : Z) (line : string) :
  In line (jump_lines a) -> In line (jump_lines b) -> a = b.
Proof.
  unfold jump_lines, instr. cbn. intros Ha Hb.
  repeat destruct Ha as [Ha|Ha]; try contradiction;
    repeat destruct Hb as [Hb|Hb]; try contradiction;
    subst line; try discriminate Hb;
    injection Hb as Hb; now apply str_of_int_inj.
Qed.

Lemma ends_with_colon_suffix (pre : string) (c : ascii) (rest : string) :
  ends_with_colon (pre ++ String c rest) = ends_with_colon (String c rest).
Proof.
  induction pre as [|d pre IH]; [reflexivity|].
  cbn [append]. change (ends_with_colon (String d (pre ++ String c rest)))
    with (match (pre ++ String c rest)%string with
          | EmptyString => Ascii.eqb d ":"
          | String _ _ => ends_with_colon (pre ++ String c rest)
          end).
  destruct (pre ++ String c rest)%string eqn:E; [|exact IH].
  destruct pre; discriminate E.
Qed.

Lemma ends_with_colon_uint (d : Decimal.uint) :
  d <> Decimal.Nil -> ends_with_colon (NilEmpty.string_of_uint d) = false.
Proof.
  induction d; intros Hd; try (now elim Hd);
    cbn [NilEmpty.string_of_uint];
    (destruct d;
     [ reflexivity
     | apply (IHd ltac:(discriminate)) .. ]).
Qed.

Lemma ends_with_colon_numeral (pre : string) (id : Z) :
  ends_with_colon (pre ++ str_of_int id) = false.
Proof.
  assert (Huint : forall d, d <> Decimal.Nil ->
            exists c rest, NilEmpty.string_of_uint d = String c rest).
  { intros d Hd. destruct d; try (now elim Hd); cbn; eauto. }
  unfold str_of_int. destruct id as [|p|p]; cbn [Z.to_int NilZero.string_of_int].
  - change (NilZero.string_of_uint (Decimal.D0 Decimal.Nil)) with "0".
    now rewrite ends_with_colon_suffix.
  - pose proof (DecimalPos.Unsigned.to_uint_nonnil p) as Hp.
    destruct (Huint _ Hp) as (c & rest & E).
    replace (NilZero.string_of_uint (Pos.to_uint p))
      with (NilEmpty.string_of_uint (Pos.to_uint p))
      by (destruct (Pos.to_uint p); [now elim Hp | reflexivity ..]).
    rewrite E, ends_with_colon_suffix, <- E. now apply ends_with_colon_uint.
  - pose proof (DecimalPos.Unsigned.to_uint_nonnil p) as Hp.
    destruct (Huint _ Hp) as (c & rest & E).
    replace (NilZero.string_of_uint (Pos.to_uint p))
      with (NilEmpty.string_of_uint (Pos.to_uint p))
      by (destruct (Pos.to_uint p); [now elim Hp | reflexivity ..]).
    rewrite ends_with_colon_suffix.
    change (ends_with_colon (String "-" (NilEmpty.string_of_uint (Pos.to_uint p))))
      with (match NilEmpty.string_of_uint (Pos.to_uint p) with
            | EmptyString => Ascii.eqb "-" ":"
            | String _ _ => ends_with_colon (NilEmpty.string_of_uint (Pos.to_uint p))
            end).
    rewrite E, <- E. now apply ends_with_colon_uint.
Qed.

(** A name followed by a colon is no jump line. *)
Lemma name_line_not_jump (name : string) (id : Z) :
  ~ In (name ++ ":")%string (jump_lines id).
Proof.
  intros H. pose proof (ends_with_colon_app name) as Hc.
  unfold jump_lines in H. cbn [In] in H.
  destruct H as [H|[H|[H|[H|[]]]]]; rewrite <- H in Hc.
  - change (ends_with_colon ("    JP     L" ++ str_of_int id) = true) in Hc.
    now rewrite ends_with_colon_numeral in Hc.
  - change (ends_with_colon ("    JP     Z,L" ++ str_of_int id) = true) in Hc.
    now rewrite ends_with_colon_numeral in Hc.
  - change (ends_with_colon ("    JZ     L" ++ str_of_int id) = true) in Hc.
    now rewrite ends_with_colon_numeral in Hc.
  - change (ends_with_colon ("    DJNZ   L" ++ str_of_int id) = true) in Hc.
    now rewrite ends_with_colon_numeral in Hc.
Qed.

Lemma between_split (lo mid hi id : Z) :
  lo <= mid -> mid <= hi ->
  (between lo id mid + between mid id hi)%nat = between lo id hi.
Proof.
  intros H1 H2. unfold between.
  repeat match goal with
         | |- context [?a <? ?b] => destruct (Z.ltb_spec a b)
         | |- context [?a <=? ?b] => destruct (Z.leb_spec a b)
         end; simpl; lia.
Qed.

Lemma between_empty (lo id : Z) : between lo id lo = 0%nat.
Proof.
  unfold between.
  destruct (Z.ltb_spec lo id), (Z.leb_spec id lo); simpl; lia.
Qed.

Section Labels.

Context {repr : ObjRepr}.

(** *** The relation *)

Lemma labels_ok_refl (T : list Z) (s : compiler) : labels_ok [] [] T s s.
Proof.
  exists [], []. rewrite !app_nil_r.
  split; [reflexivity|]. split; [reflexivity|]. split; [lia|].
  split; [intros p []|]. intros id _. split; [simpl; lia | intros line []].
Qed.

Lemma labels_ok_trans (C1 C2 P1 P2 T : list Z) (s1 s2 s3 : compiler) :
  labels_ok C1 P1 T s1 s2 -> labels_ok C2 P2 T s2 s3 ->
  labels_ok (C1 ++ C2) (P1 ++ P2) T s1 s3.
Proof.
  intros (l1 & g1 & Hl1 & Hg1 & Hn1 & Hp1 & H1)
         (l2 & g2 & Hl2 & Hg2 & Hn2 & Hp2 & H2).
  exists (l1 ++ l2)%list, (g1 ++ g2)%list.
  split; [now rewrite Hl2, Hl1, app_assoc|].
  split; [now rewrite Hg2, Hg1, app_assoc|].
  split; [lia|]. split.
  { intros p Hp. apply in_or_app. apply in_app_or in Hp as [Hp|Hp]; auto. }
  intros id Hplain.
  assert (Hplain2 : forall g, In g (globals s2) -> plain_name id g).
  { intros g Hg. apply Hplain. rewrite Hg2. apply in_or_app. now left. }
  destruct (H1 id Hplain2) as [Hc1 Hj1]. destruct (H2 id Hplain) as [Hc2 Hj2].
  split.
  - rewrite !count_occ_app.
    rewrite <- (between_split (next_label s1) (next_label s2) (next_label s3))
      by assumption.
    lia.
  - intros line Hin Hj. apply in_app_or in Hin as [Hin|Hin].
    + destruct (Hj1 line Hin Hj) as [H|H]; [left|now right].
      apply in_or_app. now left.
    + destruct (Hj2 line Hin Hj) as [H|H]; [left|now right].
      apply in_or_app. now right.
Qed.

(** More credits, fewer placements, more targets. *)
Lemma labels_ok_weaken (C C' P P' T T' : list Z) (s s' : compiler) :
  (forall id, count_occ Z.eq_dec C id <= count_occ Z.eq_dec C' id)%nat ->
  incl P' P -> incl T T' ->
  labels_ok C P T s s' -> labels_ok C' P' T' s s'.
Proof.
  intros HC HP HT (ls & gs & Hl & Hg & Hn & Hp & H).
  exists ls, gs. repeat (split; [assumption|]). split.
  { intros p Hin. apply Hp, HP, Hin. }
  intros id Hplain. destruct (H id Hplain) as [Hc Hj]. split.
  - specialize (HC id). lia.
  - intros line Hin Hjl. destruct (Hj line Hin Hjl) as [?|Ht]; [now left|].
    right. now apply HT.
Qed.

(** A target whose label was placed is no longer owed. *)
Lemma labels_ok_close (C P T : list Z) (t : Z) (s s' : compiler) :
  In t P -> labels_ok C P (t :: T) s s' -> labels_ok C P T s s'.
Proof.
  intros Ht (ls & gs & Hl & Hg & Hn & Hp & H).
  exists ls, gs. repeat (split; [assumption|]).
  intros id Hplain. destruct (H id Hplain) as [Hc Hj]. split; [exact Hc|].
  intros line Hin Hjl. destruct (Hj line Hin Hjl) as [?|[<-|Hin']].
  - now left.
  - left. now apply Hp.
  - now right.
Qed.

(** The label allocated just before may be placed once. *)
Lemma labels_ok_alloc (C P T : list Z) (s s' : compiler) :
  labels_ok (C ++ [next_label s + 1]) P T (with_labels s 1) s' ->
  labels_ok C P T s s'.
Proof.
  intros (ls & gs & Hl & Hg & Hn & Hp & H). cbn in Hl, Hg, Hn.
  exists ls, gs. repeat (split; [assumption|]). split; [lia|].
  split; [exact Hp|].
  intros id Hplain. destruct (H id Hplain) as [Hc Hj]. split; [|exact Hj].
  cbn [with_labels next_label] in Hc. rewrite count_occ_app in Hc.
  cbn [count_occ] in Hc.
  unfold between in *.
  destruct (Z.eq_dec (next_label s + 1) id);
    repeat match goal with
           | H : context [?a <? ?b] |- _ => destruct (Z.ltb_spec a b)
           | H : context [?a <=? ?b] |- _ => destruct (Z.leb_spec a b)
           | |- context [?a <? ?b] => destruct (Z.ltb_spec a b)
           | |- context [?a <=? ?b] => destruct (Z.leb_spec a b)
           end; simpl in *; lia.
Qed.

(** One appended line that is neither a label line nor a jump. *)
Lemma labels_ok_line (T : list Z) (line : string) (s : compiler) :
  (forall id, line <> label_line id) ->
  (forall id, ~ In line (jump_lines id)) ->
  labels_ok [] [] T s (with_lines s [line]).
Proof.
  intros Hl Hj. exists [line], []. unfold with_lines. cbn [assembly_listing globals next_label count_occ]. rewrite app_nil_r.
  split; [reflexivity|]. split; [reflexivity|]. split; [lia|].
  split; [intros p []|]. intros id _. split.
  - destruct (string_dec line (label_line id)) as [E|_]; [now elim (Hl id)|].
    lia.
  - intros l [<-|[]] Hin. now elim (Hj id).
Qed.

(** One appended jump to a target. *)
Lemma labels_ok_jump (T : list Z) (t : Z) (line : string) (s : compiler) :
  In line (jump_lines t) -> In t T ->
  labels_ok [] [] T s (with_lines s [line]).
Proof.
  intros Hj Ht. exists [line], []. unfold with_lines. cbn [assembly_listing globals next_label count_occ]. rewrite app_nil_r.
  split; [reflexivity|]. split; [reflexivity|]. split; [lia|].
  split; [intros p []|]. intros id _. split.
  - destruct (string_dec line (label_line id)) as [E|_]; [|lia].
    subst line. now elim (label_line_not_jump id t).
  - intros l [<-|[]] Hin. right.
    now rewrite <- (jump_lines_inj t id line Hj Hin).
Qed.

(** The label line of a credit. *)
Lemma labels_ok_place (T : list Z) (id : Z) (s : compiler) :
  labels_ok [id] [id] T s (with_lines s [label_line id]).
Proof.
  exists [label_line id], []. unfold with_lines. cbn [assembly_listing globals next_label count_occ]. rewrite app_nil_r.
  split; [reflexivity|]. split; [reflexivity|]. split; [lia|].
  split; [intros p [<-|[]]; now left|]. intros id' _. split.
  - destruct (string_dec (label_line id) (label_line id')) as [E|_].
    + apply label_line_inj in E. subst.
      destruct (Z.eq_dec id' id'); [lia | contradiction].
    + lia.
  - intros l [<-|[]] Hin. now elim (label_line_not_jump id id').
Qed.

(** A name entered into the symbol table, and its label line. *)
Lemma labels_ok_declare (T : list Z) (name : sexp) (s : compiler) :
  labels_ok [] [] T s
    {| assembly_listing := (assembly_listing s ++ [(py_str name ++ ":")%string])%list;
       globals := (globals s ++ [name])%list;
       next_label := next_label s |}.
Proof.
  exists [(py_str name ++ ":")%string], [name]. cbn [assembly_listing globals next_label count_occ].
  split; [reflexivity|]. split; [reflexivity|]. split; [lia|].
  split; [intros p []|]. intros id Hplain. split.
  - destruct (string_dec (py_str name ++ ":") (label_line id)) as [E|_]; [|lia].
    apply app_colon_inj in E.
    destruct (Hplain name) as [Hne _]; [apply in_or_app; right; now left|].
    now elim Hne.
  - intros l [<-|[]] Hin. now elim (name_line_not_jump (py_str name) id).
Qed.

(** *** The rules *)

Lemma labelled_ret {A} (T : list Z) (a : A) : labelled [] [] T (ret a).
Proof. intros s a' s' H. inversion H; subst. apply labels_ok_refl. Qed.

Lemma labelled_raise {A} (C P T : list Z) (e : exn) :
  labelled C P T (@raise A e).
Proof. intros s a s' H. discriminate H. Qed.

Lemma labelled_lift {A} (T : list Z) (r : res A) : labelled [] [] T (lift r).
Proof.
  intros s a s' H. unfold lift in H. destruct r; inversion H; subst.
  apply labels_ok_refl.
Qed.

Lemma labelled_get_globals (T : list Z) : labelled [] [] T get_globals.
Proof. intros s a s' H. inversion H; subst. apply labels_ok_refl. Qed.

Lemma labelled_bind {A B} (C1 C2 P1 P2 T : list Z) (m : M A) (f : A -> M B) :
  labelled C1 P1 T m -> (forall a, labelled C2 P2 T (f a)) ->
  labelled (C1 ++ C2) (P1 ++ P2) T (bind m f).
Proof.
  intros Hm Hf s b s' H. unfold bind in H.
  destruct (m s) as [[a s1]|e] eqn:E; [|discriminate].
  eapply labels_ok_trans; [eapply Hm, E | eapply Hf, H].
Qed.

Lemma labelled_seq {A B} (T : list Z) (m : M A) (f : A -> M B) :
  labelled [] [] T m -> (forall a, labelled [] [] T (f a)) ->
  labelled [] [] T (bind m f).
Proof. intros Hm Hf. exact (labelled_bind [] [] [] [] T m f Hm Hf). Qed.

Lemma labelled_weaken {A} (C C' P P' T T' : list Z) (m : M A) :
  (forall id, count_occ Z.eq_dec C id <= count_occ Z.eq_dec C' id)%nat ->
  incl P' P -> incl T T' ->
  labelled C P T m -> labelled C' P' T' m.
Proof.
  intros HC HP HT Hm s a s' H.
  eapply labels_ok_weaken; [exact HC | exact HP | exact HT | eapply Hm, H].
Qed.

Lemma labelled_targets {A} (T T' : list Z) (m : M A) :
  incl T T' -> labelled [] [] T m -> labelled [] [] T' m.
Proof.
  intros HT. apply labelled_weaken; [intros; lia | apply incl_refl | exact HT].
Qed.

Lemma labelled_close {A} (C P T : list Z) (t : Z) (m : M A) :
  In t P -> labelled C P (t :: T) m -> labelled C P T m.
Proof.
  intros Ht Hm s a s' H. eapply labels_ok_close; [exact Ht | eapply Hm, H].
Qed.

Lemma labelled_make_label {B} (C P T : list Z) (f : Z -> M B) :
  (forall id, labelled (C ++ [id]) P T (f id)) ->
  labelled C P T (bind make_label f).
Proof.
  intros Hf s b s' H. unfold bind, make_label in H.
  apply labels_ok_alloc. eapply Hf. exact H.
Qed.

Lemma labelled_ext {A} (C P T : list Z) (m m' : M A) :
  (forall s, m s = m' s) -> labelled C P T m' -> labelled C P T m.
Proof. intros E Hm s a s' H. rewrite E in H. eapply Hm, H. Qed.

Lemma labelled_with_car {A} (C P T : list Z) (node : sexp) (k : sexp -> M A) :
  (forall a d, node = Pair a d -> labelled C P T (k a)) ->
  labelled C P T (with_car node k).
Proof.
  intros H. destruct node; simpl; try apply labelled_raise.
  now apply (H _ node2).
Qed.

Lemma labelled_with_cdr {A} (C P T : list Z) (node : sexp) (k : sexp -> M A) :
  (forall a d, node = Pair a d -> labelled C P T (k d)) ->
  labelled C P T (with_cdr node k).
Proof.
  intros H. destruct node; simpl; try apply labelled_raise.
  now apply (H node1).
Qed.

Lemma labelled_repeat_gen (T : list Z) (n : nat) (body : M unit) :
  labelled [] [] T body -> labelled [] [] T (repeat_gen n body).
Proof.
  intros Hb. induction n; simpl.
  - apply labelled_ret.
  - apply labelled_seq; auto.
Qed.

Lemma labelled_append_global (T : list Z) (name : sexp) (k : M unit) :
  labelled [] [] T k ->
  labelled [] [] T (append_global name ;; cg_emit_label (Some (PObj name)) ;; k).
Proof.
  intros Hk s a s' H. unfold bind, append_global in H.
  cbn [cg_emit_label append_line] in H.
  cbn in H.
  exact (labels_ok_trans [] [] [] [] T _ _ _
           (labels_ok_declare T name s) (Hk _ _ _ H)).
Qed.

Lemma labelled_place (T : list Z) (id : Z) :
  labelled [id] [id] T (cg_emit_label (Some (PInt id))).
Proof.
  intros s a s' H. inversion H; subst. apply (labels_ok_place T id s).
Qed.

Lemma labelled_line (T : list Z) (mnem : string) (oper : option string) :
  plain_mnemonic mnem = true -> labelled [] [] T (asm None mnem oper).
Proof.
  intros Hm s a s' H. inversion H; subst.
  apply (labels_ok_line T (instr mnem oper) s).
  - intros id. apply instr_not_label.
  - intros id. now apply plain_instr_not_jump.
Qed.

Lemma labelled_jump (T : list Z) (t : Z) (mnem : string) (oper : option string) :
  In (instr mnem oper) (jump_lines t) -> In t T ->
  labelled [] [] T (asm None mnem oper).
Proof.
  intros Hj Ht s a s' H. inversion H; subst.
  now apply (labels_ok_jump T t (instr mnem oper) s).
Qed.

(** An instruction line under a label that is a credit. *)
Lemma labelled_asm_label (T : list Z) (id : Z) (mnem : string)
      (oper : option string) :
  plain_mnemonic mnem = true ->
  labelled [id] [id] T (asm (Some (PInt id)) mnem oper).
Proof.
  intros Hm. unfold asm.
  change [id] with ([id] ++ [])%list.
  apply labelled_bind; [apply labelled_place|]. intros _.
  exact (labelled_line T mnem oper Hm).
Qed.

End Labels.

Section LabelPass.

Context {repr : ObjRepr}.

Lemma incl_label_targets (n : Z) (T : list Z) :
  In n T -> incl (label_targets n) T.
Proof.
  intros H. unfold label_targets.
  destruct ((n =? 0) || (n =? 1)); [apply incl_nil_l|].
  intros x [<-|[]]. exact H.
Qed.

(** One step: a primitive, a line without label, a sequencing, an
    attribute access, or a case split. *)
Ltac lab_step :=
  first
    [ apply labelled_ret | apply labelled_raise | apply labelled_lift
    | apply labelled_get_globals
    | apply labelled_line; reflexivity
    | progress cbn [with_car with_cdr]
    | apply labelled_seq; [| intros ?]
    | apply labelled_with_car; intros ? ? ?; subst
    | apply labelled_with_cdr; intros ? ? ?; subst
    | apply labelled_repeat_gen
    | match goal with
      | |- labelled _ _ _ (if ?b then _ else _) => destruct b
      | |- labelled _ _ _ (match ?x with _ => _ end) => destruct x
      end ].

Ltac lab_with tac := repeat first [tac | lab_step].

Ltac lab_incl :=
  first
    [ assumption | apply incl_nil_l | apply incl_refl
    | apply incl_tl; assumption ].

Lemma labelled_cg_goto_int (T : list Z) (n : Z) :
  incl (label_targets n) T -> labelled [] [] T (cg_goto_int n).
Proof.
  unfold cg_goto_int, label_targets.
  destruct (n =? 1) eqn:E1; [intros _; apply labelled_ret|].
  destruct (n =? 0) eqn:E0; [intros _; now apply labelled_line|].
  cbn [orb]. intros H.
  destruct (CD_LABEL <=? n); [|apply labelled_raise].
  apply (labelled_jump T n); [now left | apply H; now left].
Qed.

Lemma labelled_cg_goto (T : list Z) (cd : cdest) :
  simple_cd cd = true -> incl (targets cd) T -> labelled [] [] T (cg_goto cd).
Proof.
  destruct cd as [n | [t|] [f|]]; try discriminate; intros _ H.
  - now apply labelled_cg_goto_int.
  - cbn [targets] in H. cbn [cg_goto cd_eqb CD_NEXT CD_RET cd_str].
    unfold label_targets in H.
    destruct (t =? 1).
    + destruct (f =? 1) eqn:F1; [apply labelled_ret|].
      destruct (f =? 0) eqn:F0; [now apply labelled_line|].
      cbn [orb] in H.
      apply (labelled_jump T f); [right; now left | apply H; now left].
    + destruct (t =? 0); [|apply labelled_ret].
      destruct (f =? 1) eqn:F1; [now apply labelled_line|].
      destruct (f =? 0) eqn:F0.
      * apply labelled_cg_goto_int. apply incl_nil_l.
      * apply labelled_seq; [now apply labelled_line|]. intros _.
        apply labelled_cg_goto_int. unfold label_targets.
        now rewrite F0, F1.
Qed.

Ltac lab_leaf :=
  unfold reg_half, cg_push_hl, cg_pop_de;
  lab_with ltac:(apply labelled_cg_goto; [assumption || reflexivity | lab_incl]).

Lemma labelled_cg_op_pair (T : list Z) (dd ds : ddest) :
  labelled [] [] T (cg_op_pair "LD" "LD" dd ds).
Proof. unfold cg_op_pair. lab_leaf. Qed.

Lemma labelled_cg_ld16 (T : list Z) (dd : ddest) (n : option pyval) :
  labelled [] [] T (cg_ld16 dd n).
Proof. unfold cg_ld16. lab_leaf. Qed.

Lemma labelled_cg_ld16_r16 (T : list Z) (dd ds : ddest) :
  labelled [] [] T (cg_ld16_r16 dd ds).
Proof.
  unfold cg_ld16_r16, reg_half. lab_with ltac:(apply labelled_cg_op_pair).
Qed.

Lemma labelled_cg_ld16_gv (T : list Z) (dd : ddest) (t : sexp) :
  labelled [] [] T (cg_ld16_gv dd t).
Proof. unfold cg_ld16_gv, cg_ld16_gv_reg. lab_leaf. Qed.

Lemma labelled_cg_op16 (T : list Z) (dd ds1 ds2 : ddest) (cd : cdest)
      (op1 op2 : string) :
  plain_mnemonic op1 = true -> plain_mnemonic op2 = true ->
  simple_cd cd = true -> incl (targets cd) T ->
  labelled [] [] T (cg_op16 dd ds1 ds2 cd op1 op2).
Proof.
  intros H1 H2 Hs Hcd. unfold cg_op16, reg_half.
  lab_with ltac:(first
    [ apply labelled_cg_goto; [assumption | lab_incl]
    | apply labelled_line; assumption ]).
Qed.

(** A jump to a name that is no label text. *)
Lemma labelled_named_jump (T : list Z) (name : string) :
  (forall id, ~ In (instr "JP" (Some name)) (jump_lines id)) ->
  labelled [] [] T (asm None "JP" (Some name)).
Proof.
  intros Hn s a s' H. inversion H; subst.
  apply (labels_ok_line T (instr "JP" (Some name)) s).
  - intros id. apply instr_not_label.
  - exact Hn.
Qed.

Lemma labelled_cg_call_libfn (T : list Z) (fn_name : string) (cd : cdest) :
  (forall id, ~ In (instr "JP" (Some fn_name)) (jump_lines id)) ->
  simple_cd cd = true -> incl (targets cd) T ->
  labelled [] [] T (cg_call_libfn fn_name cd).
Proof.
  intros Hn Hs Hcd. unfold cg_call_libfn.
  lab_with ltac:(first
    [ apply labelled_cg_goto; [assumption | lab_incl]
    | apply labelled_named_jump; assumption ]).
Qed.

Lemma runtime_routine_not_label (name : string) (id : Z) :
  ~ In (instr "JP" (Some ("multiply_" ++ name))) (jump_lines id)
  /\ ~ In (instr "JP" (Some ("divide_" ++ name))) (jump_lines id).
Proof.
  unfold jump_lines, instr. cbn.
  split; intros H; repeat destruct H as [H|H]; try contradiction;
    discriminate H.
Qed.

(** The seven operator emitters. *)
Lemma labelled_emitters (T : list Z) (dd ds1 ds2 : ddest) (cd : cdest) :
  simple_cd cd = true -> incl (targets cd) T ->
  labelled [] [] T (cg_add dd ds1 ds2 cd)
  /\ labelled [] [] T (cg_subtract dd ds1 ds2 cd)
  /\ labelled [] [] T (cg_multiply dd ds1 ds2 cd)
  /\ labelled [] [] T (cg_divide dd ds1 ds2 cd)
  /\ labelled [] [] T (cg_bit_and dd ds1 ds2 cd)
  /\ labelled [] [] T (cg_bit_or dd ds1 ds2 cd)
  /\ labelled [] [] T (cg_bit_xor dd ds1 ds2 cd).
Proof.
  intros Hs Hcd.
  unfold cg_add, cg_subtract, cg_multiply, cg_divide, cg_bit_and, cg_bit_or,
    cg_bit_xor.
  repeat split;
    lab_with ltac:(first
      [ apply labelled_cg_goto; [assumption | lab_incl]
      | apply labelled_cg_call_libfn;
        [ intros id; apply runtime_routine_not_label | assumption | lab_incl ]
      | apply labelled_cg_ld16_r16
      | apply labelled_cg_op16; [reflexivity | reflexivity | assumption | lab_incl] ]).
Qed.

(** A call of a declared name: the name is in the symbol table, so it is
    not mistaken for a label. *)
Lemma labels_ok_call (T : list Z) (head : sexp) (cd : cdest)
      (s s' : compiler) (a : unit) :
  simple_cd cd = true -> incl (targets cd) T ->
  In head (globals s) ->
  cg_call_libfn (py_str head) cd s = Ok (a, s') ->
  labels_ok [] [] T s s'.
Proof.
  intros Hs Hcd Hin H. unfold cg_call_libfn in H.
  destruct (negb (cd_eqb cd CD_RET)).
  - revert H. apply labelled_seq; [now apply labelled_line|].
    intros _. now apply labelled_cg_goto.
  - inversion H; subst. clear H.
    exists [instr "JP" (Some (py_str head))], []. cbn [assembly_listing globals next_label].
    rewrite app_nil_r.
    split; [reflexivity|]. split; [reflexivity|]. split; [lia|].
    split; [intros p []|]. intros id Hplain. split.
    + cbn [count_occ].
      destruct (string_dec (instr "JP" (Some (py_str head))) (label_line id))
        as [E|_]; [now apply instr_not_label in E | lia].
    + intros l [<-|[]] Hj. destruct (Hplain head Hin) as [Hn1 Hn2].
      unfold jump_lines, instr in Hj. cbn in Hj.
      destruct Hj as [Hj|[Hj|[Hj|[Hj|[]]]]]; try discriminate Hj.
      * injection Hj as Hj. now elim Hn1.
      * injection Hj as Hj. now elim Hn2.
Qed.

Lemma labelled_declared_call (T : list Z) (node head : sexp) (cd : cdest)
      (e1 e2 : exn) :
  simple_cd cd = true -> incl (targets cd) T ->
  labelled [] [] T
    (gs <- get_globals ;;
     if negb (py_in head gs) then raise e1
     else
       rest <~ with_cdr node ;;
       match rest with
       | Nil => cg_call_libfn (py_str head) cd
       | _ => raise e2
       end).
Proof.
  intros Hs Hcd s a s' H. unfold bind, get_globals in H.
  destruct (py_in head (globals s)) eqn:Hin; cbn [negb] in H; [|discriminate].
  apply py_in_In in Hin.
  destruct node as [t| |n1 n2]; cbn [with_cdr] in H; try discriminate.
  destruct n2; try discriminate.
  now apply (labels_ok_call T head cd s s' a).
Qed.

Section LabelForms.

Variable self_cg_form : sexp -> ddest -> cdest -> M unit.
Variable bound : nat.
Hypothesis self_labelled :
  forall n dd cd,
    (size n < bound)%nat -> simple_cd cd = true ->
    labelled [] [] (targets cd) (self_cg_form n dd cd).

Ltac lab_self :=
  (eapply labelled_targets;
   [| apply self_labelled; [simpl in *; lia | first [reflexivity | assumption]]]);
  lab_incl.

Ltac lab_forms :=
  unfold cdr_car, cdr_cdr_car, cdr_cdr_cdr_car, cdr_cdr_cdr, cdr_cdr,
    reg_half, cg_push_hl, cg_pop_de;
  lab_with ltac:(first
    [ lab_self
    | apply labelled_cg_goto; [assumption || reflexivity | lab_incl]
    | apply labelled_cg_ld16_r16 | apply labelled_cg_ld16
    | apply labelled_cg_ld16_gv ]).

Lemma labelled_cg_binop (T : list Z) (op : emitter) (node : sexp)
      (dd : ddest) (cd : cdest) :
  (forall d s1 s2, labelled [] [] T (op d s1 s2 cd)) ->
  (size node <= bound)%nat ->
  labelled [] [] T (cg_binop self_cg_form op node dd cd).
Proof.
  intros Hop Hsz. unfold cg_binop, cg_push_hl, cg_pop_de.
  unfold cdr_car, cdr_cdr_car, cdr_cdr_cdr_car, cdr_cdr_cdr, cdr_cdr.
  lab_with ltac:(first [lab_self | apply Hop]).
Qed.

Lemma labelled_do_variable_shift (T : list Z) (cnt : sexp) (n_cnt : option Z) :
  (size cnt < bound)%nat ->
  labelled [] [] T (do_variable_shift self_cg_form cnt n_cnt).
Proof.
  intros Hsz. unfold do_variable_shift.
  apply labelled_make_label; intros lb. cbn [app].
  apply (labelled_bind [] [lb] [] [] T); [lab_self | intros _].
  destruct n_cnt as [n|].
  - apply (labelled_bind [] [lb] [] [] T); [apply labelled_ret | intros skip].
    apply (labelled_weaken [lb] [lb] [lb] [] T T);
      [intros; lia | apply incl_nil_l | apply incl_refl |].
    apply (labelled_close _ _ _ lb); [now left|].
    apply (labelled_bind [lb] [] [lb] []);
      [now apply labelled_asm_label | intros _].
    apply labelled_seq; [now apply labelled_line | intros _].
    apply labelled_seq; [|intros _; apply labelled_ret].
    apply (labelled_jump _ lb); [right; right; right; now left | now left].
  - apply labelled_ext with
      (m' := skipahead <- make_label ;;
             asm None "LD" (Some "A,B") ;;
             asm None "OR" (Some "A,A") ;;
             asm None "JZ" (Some ("L" ++ str_of_int skipahead)) ;;
             asm (Some (PInt lb)) "SRL" (Some "H") ;;
             asm None "RL" (Some "L") ;;
             asm None "DJNZ" (Some ("L" ++ str_of_int lb)) ;;
             cg_emit_label (Some (PInt skipahead))).
    { intros s. reflexivity. }
    apply labelled_make_label; intros sk. cbn [app].
    apply (labelled_weaken [lb; sk] [lb; sk] [lb; sk] [] T T);
      [intros; lia | apply incl_nil_l | apply incl_refl |].
    apply (labelled_close _ _ _ lb); [now left|].
    apply (labelled_close _ _ _ sk); [right; now left|].
    apply (labelled_bind [] [lb; sk] [] [lb; sk]);
      [now apply labelled_line | intros _].
    apply (labelled_bind [] [lb; sk] [] [lb; sk]);
      [now apply labelled_line | intros _].
    apply (labelled_bind [] [lb; sk] [] [lb; sk]);
      [apply (labelled_jump _ sk); [right; right; now left | now left]
      | intros _].
    apply (labelled_bind [lb] [sk] [lb] [sk]);
      [now apply labelled_asm_label | intros _].
    apply (labelled_bind [] [sk] [] [sk]);
      [now apply labelled_line | intros _].
    apply (labelled_bind [] [sk] [] [sk]);
      [apply (labelled_jump _ lb); [right; right; right; now left
                                   | right; now left]
      | intros _].
    apply labelled_place.
Qed.

Lemma labelled_cg_shift_right_logical (T : list Z) (node : sexp) (dd : ddest)
      (cd : cdest) :
  (size node <= bound)%nat -> simple_cd cd = true -> incl (targets cd) T ->
  labelled [] [] T (cg_shift_right_logical self_cg_form node dd cd).
Proof.
  intros Hsz Hs Hcd.
  unfold cg_shift_right_logical, cdr_car, cdr_cdr_car, cdr_cdr.
  lab_with ltac:(first
    [ lab_self
    | apply labelled_do_variable_shift; simpl in *; lia
    | apply labelled_cg_goto; [assumption | lab_incl] ]).
Qed.

Lemma labelled_cg_highbyte (T : list Z) (node : sexp) (dd : ddest) (cd : cdest) :
  (size node <= bound)%nat -> simple_cd cd = true -> incl (targets cd) T ->
  labelled [] [] T (cg_highbyte self_cg_form node dd cd).
Proof. intros Hsz Hs Hcd. unfold cg_highbyte. lab_forms. Qed.

Lemma labelled_cg_lowbyte (T : list Z) (node : sexp) (dd : ddest) (cd : cdest) :
  (size node <= bound)%nat -> simple_cd cd = true -> incl (targets cd) T ->
  labelled [] [] T (cg_lowbyte self_cg_form node dd cd).
Proof. intros Hsz Hs Hcd. unfold cg_lowbyte. lab_forms. Qed.

Lemma labelled_cg_input_body (T : list Z)
      (self_cg_input : sexp -> ddest -> cdest -> M unit)
      (node : sexp) (dd : ddest) (cd : cdest) :
  (forall d, labelled [] [] T (self_cg_input node d CD_NEXT)) ->
  (size node <= bound)%nat -> simple_cd cd = true -> incl (targets cd) T ->
  labelled [] [] T (cg_input_body self_cg_form self_cg_input node dd cd).
Proof.
  intros Hin Hsz Hs Hcd. unfold cg_input_body.
  unfold cdr_car, cdr_cdr_car, cdr_cdr.
  lab_with ltac:(first
    [ lab_self | apply Hin
    | apply labelled_cg_goto; [assumption | lab_incl] ]).
Qed.

Lemma labelled_cg_input (T : list Z) (node : sexp) (dd : ddest) (cd : cdest) :
  (size node <= bound)%nat -> simple_cd cd = true -> incl (targets cd) T ->
  labelled [] [] T (cg_input self_cg_form node dd cd).
Proof.
  intros Hsz Hs Hcd. unfold cg_input.
  apply labelled_cg_input_body; auto. intros d.
  apply labelled_cg_input_body; auto; [|apply incl_nil_l].
  intros; apply labelled_ret.
Qed.

Lemma labelled_cg_output (T : list Z) (node : sexp) (dd : ddest) (cd : cdest) :
  (size node <= bound)%nat -> simple_cd cd = true -> incl (targets cd) T ->
  labelled [] [] T (cg_output self_cg_form node dd cd).
Proof. intros Hsz Hs Hcd. unfold cg_output. lab_forms. Qed.

Lemma labelled_cg_peek (T : list Z) (node : sexp) (dd : ddest) (cd : cdest) :
  (size node <= bound)%nat -> simple_cd cd = true -> incl (targets cd) T ->
  labelled [] [] T (cg_peek self_cg_form node dd cd).
Proof. intros Hsz Hs Hcd. unfold cg_peek. lab_forms. Qed.

Lemma labelled_cg_poke (T : list Z) (node : sexp) (dd : ddest) (cd : cdest) :
  (size node <= bound)%nat -> simple_cd cd = true -> incl (targets cd) T ->
  labelled [] [] T (cg_poke self_cg_form node dd cd).
Proof. intros Hsz Hs Hcd. unfold cg_poke. lab_forms. Qed.

Lemma labelled_cg_address_of (T : list Z) (node : sexp) (dd : ddest)
      (cd : cdest) :
  simple_cd cd = true -> incl (targets cd) T ->
  labelled [] [] T (cg_address_of node dd cd).
Proof. intros Hs Hcd. unfold cg_address_of. lab_forms. Qed.

Lemma labelled_cg_statements_loop (T : list Z) (node : sexp) (dd : ddest)
      (cd : cdest) (handled : bool) :
  (size node <= bound)%nat -> simple_cd cd = true -> incl (targets cd) T ->
  labelled [] [] T (cg_statements_loop self_cg_form node dd cd handled).
Proof.
  intros Hsz Hs Hcd. revert handled Hsz.
  induction node as [t | | a IHa d IHd]; intros handled Hsz; simpl.
  - apply labelled_raise.
  - apply labelled_ret.
  - simpl in Hsz.
    destruct d; (apply labelled_seq;
      [ lab_self | intros _; apply IHd; simpl in *; lia ]).
Qed.

Lemma labelled_cg_statements (T : list Z) (node : sexp) (dd : ddest)
      (cd : cdest) :
  (size node <= bound)%nat -> simple_cd cd = true -> incl (targets cd) T ->
  labelled [] [] T (cg_statements self_cg_form node dd cd).
Proof.
  intros Hsz Hs Hcd. unfold cg_statements. apply labelled_seq.
  - now apply labelled_cg_statements_loop.
  - intros handled. destruct (negb handled);
      [now apply labelled_cg_goto | apply labelled_ret].
Qed.

Lemma labelled_cg_sub (T : list Z) (node : sexp) (dd : ddest) (cd : cdest) :
  (size node <= bound)%nat -> simple_cd cd = true -> incl (targets cd) T ->
  labelled [] [] T (cg_sub self_cg_form node dd cd).
Proof.
  intros Hsz Hs Hcd. unfold cg_sub, cdr_car, cdr_cdr.
  lab_with ltac:(first
    [ apply labelled_append_global
    | apply labelled_cg_statements; [simpl in *; lia | assumption | assumption] ]).
Qed.

Lemma labelled_cg_if (T : list Z) (node : sexp) (dd : ddest) (cd : cdest) :
  (size node <= bound)%nat -> simple_cd cd = true -> incl (targets cd) T ->
  labelled [] [] T (cg_if self_cg_form node dd cd).
Proof.
  intros Hsz Hs Hcd. unfold cg_if.
  apply labelled_make_label; intros lf. cbn [app].
  apply labelled_make_label; intros le. cbn [app].
  unfold cdr_car, cdr_cdr_car, cdr_cdr_cdr, cdr_cdr.
  repeat first
    [ progress cbn [with_car with_cdr]
    | apply labelled_with_car; intros ? ? ?; subst
    | apply labelled_with_cdr; intros ? ? ?; subst ].
  assert (Hpred : forall p T',
             (size p < bound)%nat -> In lf T' ->
             labelled [] [] T'
               (self_cg_form p DD_ZFLAG (CD_BRANCH CD_NEXT (CD lf)))).
  { intros p T' Hp Hin. eapply labelled_targets;
      [| apply self_labelled; [exact Hp | reflexivity]].
    cbn [targets]. now apply incl_label_targets. }
  match goal with
  | |- labelled _ _ _ (match ?rest with _ => _ end) => destruct rest as [t| |alt more]
  end.
  - cbn [with_car]. apply labelled_raise.
  - destruct (cd_eqb cd CD_RET) eqn:E; cbn [negb].
    + assert (Ecd : cd = CD_RET).
      { destruct cd as [n|? ?]; [|discriminate E]. simpl in E.
        apply Z.eqb_eq in E. now subst. }
      subst cd.
      apply (labelled_weaken [] [lf; le] [] [] T T);
        [intros; simpl; lia | apply incl_refl | apply incl_refl |].
      apply labelled_seq; [lab_self | intros _; lab_self].
    + apply (labelled_weaken [lf] [lf; le] [lf] [] T T);
        [ intros id; simpl; destruct (Z.eq_dec lf id), (Z.eq_dec le id); lia
        | apply incl_nil_l | apply incl_refl |].
      apply (labelled_close _ _ _ lf); [now left|].
      apply (labelled_bind [] [lf] [] [lf]);
        [apply Hpred; [simpl in *; lia | now left] | intros _].
      apply (labelled_bind [] [lf] [] [lf]); [lab_self | intros _].
      apply (labelled_bind [lf] [] [lf] []); [apply labelled_place | intros _].
      apply labelled_cg_goto; [assumption | lab_incl].
  - cbn [with_car].
    apply (labelled_weaken [lf; le] [lf; le] [lf; le] [] T T);
      [intros; lia | apply incl_nil_l | apply incl_refl |].
    apply (labelled_close _ _ _ lf); [now left|].
    apply (labelled_close _ _ _ le); [right; now left|].
    apply (labelled_bind [] [lf; le] [] [lf; le]);
      [apply Hpred; [simpl in *; lia | right; now left] | intros _].
    apply (labelled_bind [] [lf; le] [] [lf; le]).
    { eapply labelled_targets;
        [| apply self_labelled; [simpl in *; lia | reflexivity]].
      cbn [targets]. apply incl_label_targets. now left. }
    intros _.
    apply (labelled_bind [lf] [le] [lf] [le]); [apply labelled_place | intros _].
    apply (labelled_bind [] [le] [] [le]); [lab_self | intros _].
    apply (labelled_bind [le] [] [le] []); [apply labelled_place | intros _].
    apply labelled_cg_goto; [assumption|].
    apply incl_tl. now apply incl_tl.
Qed.

Lemma labelled_declare_variables_loop (T : list Z) (varlist : sexp) :
  labelled [] [] T (declare_variables_loop varlist).
Proof.
  induction varlist as [t | | a IHa d IHd]; simpl.
  - apply labelled_raise.
  - apply labelled_ret.
  - apply labelled_seq; [apply labelled_get_globals | intros gs].
    destruct (py_in a gs); [apply labelled_raise|].
    apply labelled_ext with
      (m' := append_global a ;; cg_emit_label (Some (PObj a)) ;;
             (append_line (instr "DEFW" (Some "0")) ;; declare_variables_loop d)).
    { intros s. reflexivity. }
    apply labelled_append_global.
    apply labelled_seq; [|intros _; exact IHd].
    exact (labelled_line T "DEFW" (Some "0") eq_refl).
Qed.

Lemma labelled_declare_variables (T : list Z) (node : sexp) :
  labelled [] [] T (declare_variables node).
Proof.
  unfold declare_variables.
  lab_with ltac:(apply labelled_declare_variables_loop).
Qed.

Lemma labelled_cg_set_var (T : list Z) (node : sexp) (dd : ddest) (cd : cdest) :
  (size node <= bound)%nat -> simple_cd cd = true -> incl (targets cd) T ->
  labelled [] [] T (cg_set_var self_cg_form node dd cd).
Proof. intros Hsz Hs Hcd. unfold cg_set_var. lab_forms. Qed.

Lemma labelled_cg_literal (T : list Z) (n : option pyval) (dd : ddest)
      (cd : cdest) :
  simple_cd cd = true -> incl (targets cd) T ->
  labelled [] [] T (cg_literal n dd cd).
Proof. intros Hs Hcd. unfold cg_literal. lab_forms. Qed.

Lemma labelled_cg_atom (T : list Z) (node : sexp) (dd : ddest) (cd : cdest) :
  simple_cd cd = true -> incl (targets cd) T ->
  labelled [] [] T (cg_atom node dd cd).
Proof.
  intros Hs Hcd. unfold cg_atom.
  lab_with ltac:(first
    [ apply labelled_cg_literal; assumption
    | apply labelled_cg_ld16_gv
    | apply labelled_cg_goto; assumption ]).
Qed.

Lemma labelled_cg_pair (T : list Z) (node : sexp) (dd : ddest) (cd : cdest) :
  (size node <= bound)%nat -> simple_cd cd = true -> incl (targets cd) T ->
  labelled [] [] T (cg_pair self_cg_form node dd cd).
Proof.
  intros Hsz Hs Hcd. unfold cg_pair.
  apply labelled_with_car; intros head rest ->.
  repeat match goal with
         | |- labelled _ _ _ (if is_str ?h ?t then _ else _) =>
             destruct (is_str h t)
         end.
  all: try match goal with
           | |- labelled _ _ _ (cg_binop _ _ _ _ _) =>
               solve [apply labelled_cg_binop; auto; intros;
                      now apply labelled_emitters]
           end.
  - apply labelled_declare_variables.
  - now apply labelled_cg_set_var.
  - now apply labelled_cg_if.
  - apply labelled_cg_sub; [assumption | reflexivity | apply incl_nil_l].
  - simpl. apply labelled_cg_statements;
      [simpl in Hsz; lia | reflexivity | apply incl_nil_l].
  - now apply labelled_cg_address_of.
  - now apply labelled_cg_poke.
  - now apply labelled_cg_peek.
  - now apply labelled_cg_output.
  - now apply labelled_cg_input.
  - now apply labelled_cg_highbyte.
  - now apply labelled_cg_lowbyte.
  - now apply labelled_cg_shift_right_logical.
  - unfold cg_shift_left. now apply labelled_cg_goto.
  - now apply labelled_declared_call.
Qed.

Lemma labelled_cg_form_body (T : list Z) (node : sexp) (dd : ddest)
      (cd : cdest) :
  (size node <= bound)%nat -> simple_cd cd = true -> incl (targets cd) T ->
  labelled [] [] T (cg_form_body self_cg_form node dd cd).
Proof.
  intros Hsz Hs Hcd. unfold cg_form_body. destruct (is_pair node).
  - now apply labelled_cg_pair.
  - now apply labelled_cg_atom.
Qed.

End LabelForms.

Lemma labelled_cg_form_bounded (k : nat) :
  forall node dd cd,
    (size node < k)%nat -> simple_cd cd = true ->
    labelled [] [] (targets cd) (cg_form node dd cd).
Proof.
  induction k as [|k IH]; intros node dd cd Hsz Hs; [lia|].
  rewrite cg_form_unfold.
  assert (Hbody : forall T d c,
             simple_cd c = true -> incl (targets c) T ->
             labelled [] [] T (cg_form_body cg_form node d c)).
  { intros T d c Hc Hi.
    apply labelled_cg_form_body with (bound := size node);
      [|lia|assumption ..].
    intros n d' c' Hn Hc'. apply IH; [lia | assumption]. }
  destruct (dd_eqb dd DD_ZFLAG).
  - lab_with ltac:(first
      [ apply Hbody; [reflexivity | apply incl_nil_l]
      | apply labelled_cg_goto; [assumption | apply incl_refl] ]).
  - apply Hbody; [assumption | apply incl_refl].
Qed.

Lemma labelled_cg_form (node : sexp) (dd : ddest) (cd : cdest) :
  simple_cd cd = true -> labelled [] [] (targets cd) (cg_form node dd cd).
Proof. apply (labelled_cg_form_bounded (S (size node))). lia. Qed.

Lemma labelled_main_loop (tree : list sexp) : labelled [] [] [] (main_loop tree).
Proof.
  induction tree as [|node rest IH]; simpl.
  - apply labelled_ret.
  - apply labelled_seq; [|intros _; exact IH].
    now apply (labelled_cg_form node DD_HL CD_RET).
Qed.

End LabelPass.

Lemma between_le_one (lo id hi : Z) : (between lo id hi <= 1)%nat.
Proof. unfold between. destruct ((lo <? id) && (id <=? hi)); lia. Qed.

Lemma between_bounds (lo id hi : Z) :
  (1 <= between lo id hi)%nat -> lo < id <= hi.
Proof.
  unfold between.
  destruct (Z.ltb_spec lo id), (Z.leb_spec id hi); simpl; lia.
Qed.

(** No generated label is placed twice.  Among the lines a successful
    [cg_form] run appends, the label line [L<id>:] occurs at most once,
    and only for an id allocated during the run, for every id that no
    declared name is mistaken for (no declared name is [L<id>] or
    [Z,L<id>]).  In the listing of a program such a label line occurs at
    most once, and its id is at least [CD_LABEL] and at most the final
    value of the label counter. *)
Theorem generated_labels_are_placed_once {repr : ObjRepr} :
  (forall node dd cd s s',
      simple_cd cd = true ->
      cg_form node dd cd s = Ok (tt, s') ->
      exists ls,
        assembly_listing s' = (assembly_listing s ++ ls)%list
        /\ forall id,
             (forall g, In g (globals s') -> plain_name id g) ->
             (count_occ string_dec ls (label_line id)
              <= between (next_label s) id (next_label s'))%nat)
  /\ (forall tree s' id,
         main_loop tree init_compiler = Ok (tt, s') ->
         (forall g, In g (globals s') -> plain_name id g) ->
         (count_occ string_dec (assembly_listing s') (label_line id) <= 1)%nat
         /\ (In (label_line id) (assembly_listing s') ->
             CD_LABEL <= id <= next_label s')).
Proof.
  split.
  - intros node dd cd s s' Hs H.
    destruct (labelled_cg_form node dd cd Hs _ _ _ H)
      as (ls & gs & Hl & _ & _ & _ & Hid).
    exists ls. split; [exact Hl|]. intros id Hplain.
    destruct (Hid id Hplain) as [Hc _]. cbn [count_occ] in Hc. lia.
  - intros tree s' id H Hplain.
    destruct (labelled_main_loop tree _ _ _ H)
      as (ls & gs & Hl & _ & _ & _ & Hid).
    cbn in Hl. rewrite Hl.
    destruct (Hid id Hplain) as [Hc _]. cbn [count_occ] in Hc. split.
    + pose proof (between_le_one (next_label init_compiler) id (next_label s')).
      lia.
    + intros Hin. apply (count_occ_In string_dec) in Hin.
      assert (Hb : (1 <= between (next_label init_compiler) id (next_label s'))%nat)
        by lia.
      apply between_bounds in Hb. cbn in Hb. unfold CD_LABEL in *. lia.
Qed.

Lemma program_if_x_run : main_loop program_if_x init_compiler = Ok (tt, state_if_x).
Proof. vm_compute. reflexivity. Qed.

Lemma plain_name_x (id : Z) (g : sexp) :
  In g (globals state_if_x) -> plain_name id g.
Proof. intros [<-|[]]. split; discriminate. Qed.

Lemma generated_labels_are_placed_once_witness :
  (count_occ string_dec (assembly_listing state_if_x) (label_line 100) <= 1)%nat
  /\ CD_LABEL <= 100 <= next_label state_if_x.
Proof.
  destruct (proj2 generated_labels_are_placed_once
              program_if_x state_if_x 100 program_if_x_run (plain_name_x 100))
    as [Hcount Hbounds].
  split; [exact Hcount|]. apply Hbounds.
  unfold state_if_x. cbn [assembly_listing].
  do 8 right. left. reflexivity.
Defined.

(** No jump is left without its label.  Among the lines a successful
    [cg_form] run appends, every jump to a generated label ([JP L<id>],
    [JP Z,L<id>], [JZ L<id>], [DJNZ L<id>]) finds the label line [L<id>:]
    among those lines, unless the id is the label of the control
    destination the run was given; this for every id that no declared
    name is mistaken for.  In the listing of a program, every such jump
    has its label line in the listing. *)
Theorem jumps_have_their_labels {repr : ObjRepr} :
  (forall node dd cd s s',
      simple_cd cd = true ->
      cg_form node dd cd s = Ok (tt, s') ->
      exists ls,
        assembly_listing s' = (assembly_listing s ++ ls)%list
        /\ forall id line,
             (forall g, In g (globals s') -> plain_name id g) ->
             In line ls -> In line (jump_lines id) ->
             In (label_line id) ls \/ In id (targets cd))
  /\ (forall tree s' id line,
         main_loop tree init_compiler = Ok (tt, s') ->
         (forall g, In g (globals s') -> plain_name id g) ->
         In line (assembly_listing s') -> In line (jump_lines id) ->
         In (label_line id) (assembly_listing s')).
Proof.
  split.
  - intros node dd cd s s' Hs H.
    destruct (labelled_cg_form node dd cd Hs _ _ _ H)
      as (ls & gs & Hl & _ & _ & _ & Hid).
    exists ls. split; [exact Hl|]. intros id line Hplain.
    destruct (Hid id Hplain) as [_ Hj]. exact (Hj line).
  - intros tree s' id line H Hplain.
    destruct (labelled_main_loop tree _ _ _ H)
      as (ls & gs & Hl & _ & _ & _ & Hid).
    cbn in Hl. rewrite Hl.
    destruct (Hid id Hplain) as [_ Hj]. intros Hin Hjl.
    destruct (Hj line Hin Hjl) as [?|[]]. assumption.
Qed.

Lemma jumps_have_their_labels_witness :
  In (label_line 101) (assembly_listing state_if_x)
  /\ In (label_line 100) (assembly_listing state_if_x).
Proof.
  split.
  - apply (proj2 jumps_have_their_labels
             program_if_x state_if_x 101 "    JP     L101"
             program_if_x_run (plain_name_x 101)).
    + unfold state_if_x. cbn [assembly_listing].
      do 7 right. left. reflexivity.
    + left. reflexivity.
  - apply (proj2 jumps_have_their_labels
             program_if_x state_if_x 100 "    JP     Z,L100"
             program_if_x_run (plain_name_x 100)).
    + unfold state_if_x. cbn [assembly_listing].
      do 5 right. left. reflexivity.
    + right. left. reflexivity.
Defined.

(** * The first generator and the Z80 generator *)

Lemma bind_same {A B} (m m' : M A) (f f' : A -> M B) (s : compiler) :
  (forall s0, m s0 = m' s0) -> (forall a s0, f a s0 = f' a s0) ->
  bind m f s = bind m' f' s.
Proof.
  intros Hm Hf. unfold bind. rewrite Hm.
  destruct (m' s) as [[a s1]|e]; [apply Hf | reflexivity].
Qed.

Lemma bind_ret_unit (m : M unit) (s : compiler) :
  bind m (fun _ => ret tt) s = m s.
Proof. unfold bind, ret. destruct (m s) as [[[] s1]|e]; reflexivity. Qed.

Lemma plain_cd_inv (cd : cdest) :
  plain_cd cd = true -> cd = CD_NEXT \/ cd = CD_RET.
Proof.
  unfold plain_cd. destruct cd as [n|t f]; [|discriminate]. simpl.
  intros H. apply orb_true_iff in H as [H|H]; apply Z.eqb_eq in H; subst; auto.
Qed.

(** On the three register pairs and the two control destinations the
    operator emitters of the two generators are the same. *)
Lemma v1_emitters {repr : ObjRepr} (dd : ddest) (cd : cdest) (s : compiler) :
  pair_register dd = true -> plain_cd cd = true ->
  cg_add dd DD_HL DD_DE cd s = V1.cg_add dd DD_HL DD_DE cd s
  /\ cg_subtract dd DD_HL DD_DE cd s = V1.cg_subtract dd DD_HL DD_DE cd s
  /\ cg_multiply dd DD_HL DD_DE cd s = V1.cg_multiply dd DD_HL DD_DE cd s
  /\ cg_divide dd DD_HL DD_DE cd s = V1.cg_divide dd DD_HL DD_DE cd s
  /\ cg_bit_and dd DD_HL DD_DE cd s = V1.cg_bit_and dd DD_HL DD_DE cd s
  /\ cg_bit_or dd DD_HL DD_DE cd s = V1.cg_bit_or dd DD_HL DD_DE cd s
  /\ cg_bit_xor dd DD_HL DD_DE cd s = V1.cg_bit_xor dd DD_HL DD_DE cd s.
Proof.
  intros Hdd Hcd. apply plain_cd_inv in Hcd.
  destruct dd; try discriminate Hdd;
    destruct Hcd as [-> | ->]; repeat split; reflexivity.
Qed.

Lemma v1_cg_binop {repr : ObjRepr}
      (self self' : sexp -> ddest -> cdest -> M unit) (op op' : emitter)
      (node : sexp) (dd : ddest) (cd : cdest) (s : compiler) :
  (forall h a b r,
      node = Pair h (Pair a (Pair b r)) ->
      forall d s0,
        pair_register d = true ->
        self a d CD_NEXT s0 = self' a d CD_NEXT s0
        /\ self b d CD_NEXT s0 = self' b d CD_NEXT s0) ->
  (forall s0, op dd DD_HL DD_DE cd s0 = op' dd DD_HL DD_DE cd s0) ->
  cg_binop self op node dd cd s = V1.cg_binop self' op' node dd cd s.
Proof.
  intros Hself Hop. unfold cg_binop, V1.cg_binop.
  destruct node as [t| |h rest]; try reflexivity.
  destruct rest as [t| |a rest]; try reflexivity.
  destruct rest as [t| |b r];
    cbn [cdr_car cdr_cdr_car with_car with_cdr];
    try (destruct (is_pair a); reflexivity).
  assert (Ha : forall d s0, pair_register d = true ->
                            self a d CD_NEXT s0 = self' a d CD_NEXT s0)
    by (intros; now apply (Hself h a b r)).
  assert (Hb : forall d s0, pair_register d = true ->
                            self b d CD_NEXT s0 = self' b d CD_NEXT s0)
    by (intros; now apply (Hself h a b r)).
  apply bind_same; [|intros _; exact Hop].
  intros s0. destruct (is_pair a).
  - apply bind_same; [intros; now apply Hb|]. intros _ s1.
    apply bind_same; [reflexivity|]. intros _ s2.
    apply bind_same; [intros; now apply Ha|]. intros _ s3. reflexivity.
  - apply bind_same; [intros; now apply Hb|]. intros _ s1. now apply Ha.
Qed.

Lemma v1_declare_variables_loop {repr : ObjRepr} (varlist : sexp) (s : compiler) :
  declare_variables_loop varlist s = V1.declare_variables_loop varlist s.
Proof.
  destruct varlist; reflexivity.
Qed.

Lemma v1_cg_set_var {repr : ObjRepr}
      (self self' : sexp -> ddest -> cdest -> M unit)
      (node : sexp) (dd : ddest) (cd : cdest) (s : compiler) :
  (forall h v e r,
      node = Pair h (Pair v (Pair e r)) ->
      forall s0, self e DD_HL CD_NEXT s0 = self' e DD_HL CD_NEXT s0) ->
  pair_register dd = true -> plain_cd cd = true ->
  cg_set_var self node dd cd s = V1.cg_set_var self' node dd cd s.
Proof.
  intros Hself Hdd Hcd. unfold cg_set_var, V1.cg_set_var.
  destruct node as [t| |h rest]; try reflexivity.
  destruct rest as [t| |v rest]; try reflexivity.
  destruct rest as [t| |e r]; try reflexivity.
  cbn [cdr_car cdr_cdr_car with_car with_cdr].
  apply bind_same; [apply (Hself h v e r eq_refl)|]. intros _ s1.
  apply plain_cd_inv in Hcd.
  destruct dd; try discriminate Hdd; destruct Hcd as [-> | ->]; reflexivity.
Qed.

Lemma v1_heads_inv (h : string) :
  existsb (String.eqb h) v1_heads = true ->
  h = "+" \/ h = "-" \/ h = "*" \/ h = "/" \/ h = "&" \/ h = "|" \/ h = "^".
Proof.
  unfold v1_heads. cbn [existsb]. intros H.
  repeat (apply orb_true_iff in H as [H|H];
          [apply String.eqb_eq in H; tauto|]).
  discriminate H.
Qed.

(** The atoms of the first generator's language. *)
Lemma v1_atom {repr : ObjRepr} (node : sexp) (dd : ddest) (cd : cdest)
      (s : compiler) :
  is_pair node = false -> v1_form node = true ->
  pair_register dd = true -> plain_cd cd = true ->
  cg_form node dd cd s = (V1.cg_form node dd cd ;; V1.cg_goto cd) s.
Proof.
  intros Hp Hv Hdd Hcd.
  assert (Hz : dd <> DD_ZFLAG) by (intros ->; discriminate).
  rewrite cg_form_not_zflag by assumption.
  apply plain_cd_inv in Hcd.
  destruct node as [text| |]; [| |discriminate Hp].
  - destruct text as [|c rest].
    + destruct dd; try discriminate Hdd; destruct Hcd as [-> | ->]; reflexivity.
    + cbn [v1_form] in Hv. apply negb_true_iff in Hv.
      unfold cg_form_body, cg_atom. cbn [is_pair].
      change (V1.cg_form (Atom (String c rest)) dd cd)
        with (V1.cg_form_body V1.cg_form (Atom (String c rest)) dd cd).
      unfold V1.cg_form_body. cbn [is_pair].
      change (starts_with_decimal_digit (Atom (String c rest)))
        with (Ok (char_between "0" c "9")).
      change (str_index (String c rest) 0) with (Ok c).
      unfold bind at 1 3 4, lift at 1 3. cbn [to_number_obj].
      destruct (char_between "0" c "9").
      * unfold bind, lift.
        destruct (to_number (String c rest)) as [n|e]; [|reflexivity].
        destruct dd; try discriminate Hdd; destruct Hcd as [-> | ->];
          reflexivity.
      * unfold bind, lift. rewrite Hv. unfold get_globals.
        destruct (py_in (Atom (String c rest)) (globals s)); [|reflexivity].
        destruct dd; try discriminate Hdd; destruct Hcd as [-> | ->];
          reflexivity.
  - destruct dd; try discriminate Hdd; destruct Hcd as [-> | ->]; reflexivity.
Qed.

Lemma v1_agree_bounded {repr : ObjRepr} (k : nat) :
  forall node dd cd s,
    (size node < k)%nat -> v1_form node = true ->
    pair_register dd = true -> plain_cd cd = true ->
    cg_form node dd cd s
    = if is_pair node then V1.cg_form node dd cd s
      else (V1.cg_form node dd cd ;; V1.cg_goto cd) s.
Proof.
  induction k as [|k IH]; intros node dd cd s Hsz Hv Hdd Hcd; [lia|].
  assert (Hz : dd <> DD_ZFLAG) by (intros ->; discriminate).
  assert (Hnext : forall x d s0,
             (size x < k)%nat -> v1_form x = true -> pair_register d = true ->
             cg_form x d CD_NEXT s0 = V1.cg_form x d CD_NEXT s0).
  { intros x d s0 Hx Hvx Hd. rewrite (IH x d CD_NEXT s0 Hx Hvx Hd eq_refl).
    destruct (is_pair x); [reflexivity|].
    change (V1.cg_goto CD_NEXT) with (@ret unit tt). apply bind_ret_unit. }
  destruct node as [t| |hd rest].
  - now apply v1_atom.
  - now apply v1_atom.
  - cbn [is_pair]. destruct hd as [h| |]; try discriminate Hv.
    cbn [v1_form] in Hv. simpl in Hsz.
    rewrite cg_form_not_zflag by assumption.
    change (V1.cg_form (Pair (Atom h) rest) dd cd)
      with (V1.cg_form_body V1.cg_form (Pair (Atom h) rest) dd cd).
    unfold cg_form_body, cg_pair, V1.cg_form_body.
    cbn [is_pair with_car is_str].
    destruct (existsb (String.eqb h) v1_heads) eqn:E.
    + assert (Hops : forall op op' : emitter,
                 (forall s0, op dd DD_HL DD_DE cd s0 = op' dd DD_HL DD_DE cd s0) ->
                 cg_binop cg_form op (Pair (Atom h) rest) dd cd s
                 = V1.cg_binop V1.cg_form op' (Pair (Atom h) rest) dd cd s).
      { intros op op' Hop. apply v1_cg_binop; [|exact Hop].
        intros h' a b r [= _ ->] d s0 Hd.
        apply andb_true_iff in Hv as [Hva Hvb]. simpl in Hsz.
        split; apply Hnext; try assumption; lia. }
      pose proof (fun s0 => v1_emitters dd cd s0 Hdd Hcd) as Hem.
      apply v1_heads_inv in E.
      destruct E as [->|[->|[->|[->|[->|[->| ->]]]]]].
      * exact (Hops cg_add V1.cg_add (fun s0 => proj1 (Hem s0))).
      * exact (Hops cg_subtract V1.cg_subtract
                 (fun s0 => proj1 (proj2 (Hem s0)))).
      * exact (Hops cg_multiply V1.cg_multiply
                 (fun s0 => proj1 (proj2 (proj2 (Hem s0))))).
      * exact (Hops cg_divide V1.cg_divide
                 (fun s0 => proj1 (proj2 (proj2 (proj2 (Hem s0)))))).
      * exact (Hops cg_bit_and V1.cg_bit_and
                 (fun s0 => proj1 (proj2 (proj2 (proj2 (proj2 (Hem s0))))))).
      * exact (Hops cg_bit_or V1.cg_bit_or
                 (fun s0 =>
                    proj1 (proj2 (proj2 (proj2 (proj2 (proj2 (Hem s0)))))))).
      * exact (Hops cg_bit_xor V1.cg_bit_xor
                 (fun s0 =>
                    proj2 (proj2 (proj2 (proj2 (proj2 (proj2 (Hem s0)))))))).
    + destruct (String.eqb h "int16") eqn:E1.
      * apply String.eqb_eq in E1. subst h.
        unfold declare_variables, V1.declare_variables.
        destruct rest; try reflexivity.
      * destruct (String.eqb h "set") eqn:E2; [|discriminate Hv].
        apply String.eqb_eq in E2. subst h.
        cbn [String.eqb Ascii.eqb Bool.eqb].
        apply v1_cg_set_var; [|assumption ..].
        intros h' v e r [= _ ->] s0. simpl in Hsz.
        apply Hnext; [lia | exact Hv | reflexivity].
Qed.

Lemma v1_main_loop {repr : ObjRepr} (tree : list sexp) (s : compiler) :
  Forall (fun node => v1_form node = true /\ is_pair node = true) tree ->
  main_loop tree s = V1.main_loop tree s.
Proof.
  intros H. revert s. induction H as [|node rest [Hv Hp] _ IH]; intros s.
  - reflexivity.
  - cbn [main_loop V1.main_loop]. apply bind_same; [|intros _; exact IH].
    intros s0.
    rewrite (v1_agree_bounded (S (size node)) node DD_HL CD_RET s0)
      by (lia || assumption || reflexivity).
    now rewrite Hp.
Qed.

(** The Z80 generator preserves the first generator on its language.  For
    a form built from atoms that do not start with a minus sign, the seven
    binary operators, [int16] and [set], with one of the register pairs
    [BC], [DE], [HL] as data destination and [CD_NEXT] or [CD_RET] as
    control destination: on a compound form the two generators end in the
    same state or the same exception; on an atom the Z80 generator does
    what the first one does and then realises the control destination,
    which the first one does not.  So a program of compound forms of that
    language has the same listing under both. *)
Theorem first_generator_is_preserved {repr : ObjRepr} :
  (forall node dd cd s,
      v1_form node = true -> pair_register dd = true -> plain_cd cd = true ->
      (is_pair node = true ->
       cg_form node dd cd s = V1.cg_form node dd cd s)
      /\ (is_pair node = false ->
          cg_form node dd cd s = (V1.cg_form node dd cd ;; V1.cg_goto cd) s))
  /\ (forall tree,
         Forall (fun node => v1_form node = true /\ is_pair node = true) tree ->
         compile tree = V1.compile tree).
Proof.
  split.
  - intros node dd cd s Hv Hdd Hcd.
    pose proof (v1_agree_bounded (S (size node)) node dd cd s
                  ltac:(lia) Hv Hdd Hcd) as H.
    split; intros Hp; rewrite Hp in H; exact H.
  - intros tree H. unfold compile, V1.compile. now rewrite v1_main_loop.
Qed.

Lemma first_generator_is_preserved_witness :
  compile [fahrenheit] = V1.compile [fahrenheit]
  /\ cg_form (Atom "7") DD_HL CD_RET init_compiler
     = (V1.cg_form (Atom "7") DD_HL CD_RET ;; V1.cg_goto CD_RET) init_compiler.
Proof.
  split.
  - apply (proj2 first_generator_is_preserved).
    constructor; [split; reflexivity | constructor].
  - exact (proj2 (proj1 first_generator_is_preserved
                    (Atom "7") DD_HL CD_RET init_compiler
                    eq_refl eq_refl eq_refl) eq_refl).
Defined.

(** Where the two generators part: an atom in return position, and a token
    with a minus sign. *)
Example first_generator_differences :
  V1.compile [Atom "7"] = Ok ["    LD     HL,7"]
  /\ compile [Atom "7"] = Ok ["    LD     HL,7"; "    RET    "]
  /\ V1.compile [Atom "-7"] = Raise (ValueError "Symbol not declared: -7")
  /\ compile [Atom "-7"] = Ok ["    LD     HL,-7"; "    RET    "].
Proof. repeat split; reflexivity. Qed.

(** * The suffix predicates and [to_number] *)

Lemma str_last_cons (c d : ascii) (rest : string) :
  str_last (String c (String d rest)) = str_last (String d rest).
Proof. reflexivity. Qed.

Lemma str_last_skip_spaces (text : string) (c : ascii) :
  is_space c = false -> str_last text = Ok c ->
  str_last (skip_spaces text) = Ok c.
Proof.
  intros Hc. induction text as [|d rest IH]; intros H; [discriminate H|].
  cbn [skip_spaces]. destruct (is_space d) eqn:E; [|exact H].
  destruct rest as [|d' rest'].
  - injection H as ->. congruence.
  - apply IH. exact H.
Qed.

Lemma str_last_tail (d : ascii) (rest : string) (c : ascii) :
  str_last (String d rest) = Ok c -> rest = "" \/ str_last rest = Ok c.
Proof. destruct rest; [now left | right; assumption]. Qed.

Lemma str_last_take_sign (text : string) (c : ascii) :
  str_last text = Ok c ->
  snd (take_sign text) = "" \/ str_last (snd (take_sign text)) = Ok c.
Proof.
  destruct text as [|d rest]; [discriminate|]. intros H. cbn [take_sign].
  destruct (Ascii.eqb d "+"); [exact (str_last_tail _ _ _ H)|].
  destruct (Ascii.eqb d "-"); [exact (str_last_tail _ _ _ H) | now right].
Qed.

Lemma str_last_skip_prefix (base : Z) (text : string) (c : ascii) :
  str_last text = Ok c ->
  skip_prefix base text = "" \/ str_last (skip_prefix base text) = Ok c.
Proof.
  intros H. unfold skip_prefix.
  destruct text as [|c0 [|c1 rest]]; try (now right).
  destruct (Ascii.eqb c0 "0" && prefix_letter base c1); [|now right].
  rewrite str_last_cons in H.
  destruct rest as [|c2 rest']; [now left|].
  rewrite str_last_cons in H.
  destruct (Ascii.eqb c2 underscore); [|now right].
  exact (str_last_tail _ _ _ H).
Qed.

(** The scanner stops in front of a last character that is no digit of
    the base. *)
Lemma scan_digits_last (base : Z) (c : ascii) (text : string) :
  Ascii.eqb c underscore = false ->
  match digit_value c with Some d => d <? base | None => false end = false ->
  str_last text = Ok c ->
  forall acc prev_us seen v rest,
    scan_digits base text acc prev_us seen = Some (v, rest) ->
    str_last rest = Ok c.
Proof.
  intros Hus Hd. induction text as [|d text IH]; intros H; [discriminate H|].
  intros acc prev_us seen v rest Hscan. cbn [scan_digits] in Hscan.
  destruct text as [|d' text'].
  - injection H as ->. rewrite Hus in Hscan.
    destruct (digit_value c) as [n|].
    + rewrite Hd in Hscan.
      destruct (prev_us || negb seen); [discriminate|].
      now injection Hscan as _ <-.
    + destruct (prev_us || negb seen); [discriminate|].
      now injection Hscan as _ <-.
  - rewrite str_last_cons in H.
    destruct (Ascii.eqb d underscore).
    + destruct prev_us; [discriminate|]. exact (IH H _ _ _ _ _ Hscan).
    + destruct (digit_value d) as [n|].
      * destruct (n <? base); [exact (IH H _ _ _ _ _ Hscan)|].
        destruct (prev_us || negb seen); [discriminate|].
        injection Hscan as _ <-. exact H.
      * destruct (prev_us || negb seen); [discriminate|].
        injection Hscan as _ <-. exact H.
Qed.

(** [int] rejects a text whose last character is neither a space nor a
    digit of the base. *)
Lemma py_int_last (base : Z) (c : ascii) (text : string) (n : Z) :
  is_space c = false ->
  Ascii.eqb c underscore = false ->
  match digit_value c with Some d => d <? base | None => false end = false ->
  str_last text = Ok c ->
  py_int text base <> Ok n.
Proof.
  intros Hsp Hus Hd H. unfold py_int.
  pose proof (str_last_skip_spaces text c Hsp H) as H1.
  pose proof (str_last_take_sign _ c H1) as H2.
  destruct (take_sign (skip_spaces text)) as [sign body]. cbn [snd] in H2.
  destruct H2 as [-> | H2]; [discriminate|].
  destruct (str_last_skip_prefix base body c H2) as [E | H3].
  - rewrite E. discriminate.
  - destruct (skip_prefix base body) as [|c0 rest0] eqn:E; [discriminate|].
    destruct (Ascii.eqb c0 underscore); [discriminate|].
    destruct (scan_digits base (String c0 rest0) 0 false false)
      as [[v rest]|] eqn:Hscan; [|discriminate].
    pose proof (scan_digits_last base c _ Hus Hd H3 _ _ _ _ _ Hscan) as H4.
    pose proof (str_last_skip_spaces rest c Hsp H4) as H5.
    destruct (skip_spaces rest); [discriminate H5 | discriminate].
Qed.

Lemma str_last_from2 (c0 c1 : ascii) (rest : string) (c : ascii) :
  (3 <=? String.length (String c0 (String c1 rest)))%nat = true ->
  str_last (String c0 (String c1 rest)) = Ok c ->
  str_last (str_from 2 (String c0 (String c1 rest))) = Ok c.
Proof.
  intros Hlen H. destruct rest as [|c2 rest]; [discriminate Hlen|].
  exact H.
Qed.

Lemma str_last_nonempty (t : string) :
  t <> "" -> exists c, str_last t = Ok c.
Proof.
  induction t as [|d rest IH]; intros H; [now elim H|].
  destruct rest as [|d' rest']; [now exists d|].
  rewrite str_last_cons. apply IH. discriminate.
Qed.

(** No base of [to_number] has [o], [O], [h] or [H] as a digit. *)
Lemma py_int_suffix_letter (c : ascii) (text : string) (base n : Z) :
  char_in c "o" "O" = true \/ char_in c "h" "H" = true ->
  base = 2 \/ base = 8 \/ base = 10 \/ base = 16 ->
  str_last text = Ok c ->
  py_int text base <> Ok n.
Proof.
  intros Hc Hb Hlast.
  assert (E : c = "o"%char \/ c = "O"%char \/ c = "h"%char \/ c = "H"%char).
  { unfold char_in in Hc.
    destruct Hc as [Hc|Hc]; apply orb_true_iff in Hc as [Hc|Hc];
      apply Ascii.eqb_eq in Hc; tauto. }
  apply (py_int_last base c text n); [| |  | exact Hlast];
    destruct E as [->|[->|[->| ->]]];
    try reflexivity;
    destruct Hb as [->|[->|[->| ->]]]; reflexivity.
Qed.

(** The suffix predicates split the tokens, and [to_number] accepts no
    token that one of the suffix forms accepts.  For a non-empty token
    exactly one of [is_octal], [is_hex], [is_decimal] holds; on the empty
    token each raises [IndexError].  A token that ends in [o], [O], [h] or
    [H] is never read as a number by [to_number]: it yields [None] or an
    exception. *)
Theorem suffix_forms_are_never_numbers (t : string) :
  (t = "" ->
   is_octal t = Raise IndexError /\ is_hex t = Raise IndexError
   /\ is_decimal t = Raise IndexError)
  /\ (t <> "" ->
      exists o h,
        is_octal t = Ok o /\ is_hex t = Ok h
        /\ is_decimal t = Ok (negb o && negb h)
        /\ o && h = false)
  /\ (is_octal t = Ok true \/ is_hex t = Ok true ->
      forall n, to_number t <> Ok (Some n)).
Proof.
  split; [|split].
  - intros ->. repeat split; reflexivity.
  - intros Hne. destruct (str_last_nonempty t Hne) as [c E].
    unfold is_decimal, is_octal, is_hex. rewrite E. cbn [res_bind].
    exists (char_in c "o" "O"), (char_in c "h" "H").
    split; [reflexivity|]. split; [reflexivity|]. split.
    + destruct (char_in c "o" "O"); reflexivity.
    + unfold char_in.
      destruct (Ascii.eqb c "o") eqn:E1;
        [apply Ascii.eqb_eq in E1; subst; reflexivity|].
      destruct (Ascii.eqb c "O") eqn:E2;
        [apply Ascii.eqb_eq in E2; subst; reflexivity|].
      reflexivity.
  - intros Hsuf n Hnum.
    assert (Hc : exists c, str_last t = Ok c
                           /\ (char_in c "o" "O" = true
                               \/ char_in c "h" "H" = true)).
    { unfold is_octal, is_hex in Hsuf.
      destruct (str_last t) as [c|e]; cbn [res_bind] in Hsuf.
      - exists c. split; [reflexivity|].
        destruct Hsuf as [[= H]|[= H]]; auto.
      - destruct Hsuf as [H|H]; discriminate H. }
    destruct Hc as (c & Hlast & Hc).
    assert (Hpy : forall text base m,
               base = 2 \/ base = 8 \/ base = 10 \/ base = 16 ->
               str_last text = Ok c -> py_int text base <> Ok m).
    { intros text base m Hb Ht. now apply (py_int_suffix_letter c). }
    unfold to_number in Hnum.
    destruct t as [|c0 rest]; [discriminate Hnum|].
    cbn [String.length Nat.leb str_index String.get res_bind] in Hnum.
    destruct (Ascii.eqb c0 "0").
    + assert (Hoct : res_bind (py_int (String c0 rest) 8)
                       (fun n0 => Ok (Some n0)) <> Ok (Some n)).
      { destruct (py_int (String c0 rest) 8) as [m|e] eqn:E;
          [|discriminate]. now elim (Hpy _ 8 m ltac:(tauto) Hlast). }
      destruct rest as [|c1 rest'].
      * cbn [String.length Nat.leb] in Hnum. now elim Hoct.
      * destruct rest' as [|c2 rest''];
          cbn [String.length Nat.leb] in Hnum; [now elim Hoct|].
        pose proof (str_last_from2 c0 c1 (String c2 rest'') c eq_refl Hlast)
          as H2.
        change (str_index (String c0 (String c1 (String c2 rest''))) 1)
          with (Ok c1) in Hnum.
        cbn [res_bind] in Hnum.
        repeat match type of Hnum with
               | (if ?b then _ else _) = _ => destruct b
               end;
          try (now elim Hoct);
          match type of Hnum with
          | res_bind (py_int ?x ?b) _ = _ =>
              destruct (py_int x b) as [m|e] eqn:E; [|discriminate Hnum];
              now elim (Hpy x b m ltac:(tauto) H2)
          end.
    + destruct (char_between "1" c0 "9"); [|discriminate Hnum].
      destruct (py_int (String c0 rest) 10) as [m|e] eqn:E;
        [|discriminate Hnum].
      now elim (Hpy _ 10 m ltac:(tauto) Hlast).
Qed.

Lemma suffix_forms_are_never_numbers_witness :
  is_hex "10h" = Ok true
  /\ is_decimal "10h" = Ok false
  /\ to_number "10h" = Raise (InvalidLiteral 10 "10h")
  /\ forall n, to_number "10h" <> Ok (Some n).
Proof.
  split; [reflexivity|]. split; [reflexivity|]. split; [reflexivity|].
  apply (proj2 (proj2 (suffix_forms_are_never_numbers "10h"))).
  right. reflexivity.
Defined.

(** * Ports and memory *)

Lemma cg_form_input {repr : ObjRepr} (rest : sexp) (dd : ddest) (cd : cdest) :
  dd <> DD_ZFLAG ->
  cg_form (Pair (Atom "input") rest) dd cd
  = cg_input_body cg_form (cg_input cg_form) (Pair (Atom "input") rest) dd cd.
Proof.
  intros Hz. rewrite cg_form_not_zflag by assumption.
  rewrite <- cg_input_unfold. reflexivity.
Qed.

(** [(input SIZE ADDR)] generates the address into [BC] and reads the
    port: one [IN] for the accumulator; for the pairs [DE] and [HL] the low
    byte, and for a word the high byte from the next port.  With [BC] as
    destination a word is first read into [HL] and copied, the control
    destination is realised, and then the generator goes on: it reads both
    bytes again into [C] and [B] and realises the control destination a
    second time. *)
Theorem port_input_layout {repr : ObjRepr}
        (addr : sexp) (cd : cdest) (s s1 : compiler) :
  cg_form addr DD_BC CD_NEXT s = Ok (tt, s1) ->
  let form size := slist [Atom "input"; Atom size; addr] in
  cg_form (form "word") DD_HL cd s
  = cg_goto cd (with_lines s1 (input_word_lines "H" "L"))
  /\ cg_form (form "word") DD_DE cd s
     = cg_goto cd (with_lines s1 (input_word_lines "D" "E"))
  /\ cg_form (form "word") DD_BC cd s
     = (cg_goto cd ;;
        asm None "IN" (Some "A,(C)") ;;
        asm None "LD" (Some "C,A") ;;
        asm None "INC" (Some "BC") ;;
        asm None "IN" (Some "A,(C)") ;;
        asm None "LD" (Some "B,A") ;;
        cg_goto cd)
         (with_lines s1 (input_word_lines "H" "L"
                         ++ ["    LD     B,H"; "    LD     C,L"]))
  /\ cg_form (form "byte") DD_HL cd s
     = cg_goto cd (with_lines s1 ["    IN     A,(C)"; "    LD     L,A";
                                  "    LD     H,0"])
  /\ cg_form (form "byte") DD_A cd s
     = cg_goto cd (with_lines s1 ["    IN     A,(C)"])
  /\ cg_form (form "word") DD_A cd s
     = cg_goto cd (with_lines s1 ["    IN     A,(C)"]).
Proof.
  intros Hrun form. subst form. cbn [slist].
  assert (Hinner :
            cg_input cg_form
              (Pair (Atom "input") (Pair (Atom "word") (Pair addr Nil)))
              DD_HL CD_NEXT s
            = Ok (tt, with_lines s1 (input_word_lines "H" "L"))).
  { rewrite cg_input_unfold.
    unfold cg_input_body, cdr_car, cdr_cdr_car, cdr_cdr.
    cbn -[cg_form cg_input cg_goto bind asm].
    unfold bind, lift. rewrite Hrun.
    unfold with_lines, input_word_lines, asm, cg_emit_label, append_line, ret,
      str_index, bind, lift.
    cbn. now rewrite <- !app_assoc. }
  repeat split;
    rewrite cg_form_input by discriminate;
    unfold cg_input_body, cdr_car, cdr_cdr_car, cdr_cdr;
    cbn -[cg_form cg_input cg_goto bind asm];
    unfold bind, lift; rewrite ?Hinner, ?Hrun;
    unfold with_lines, input_word_lines, asm, cg_emit_label, append_line, ret,
      str_index, bind, lift;
    cbn -[cg_goto]; rewrite <- ?app_assoc;
    first
      [ reflexivity
      | cbn [app];
        match goal with
        | |- context [cg_goto cd ?x] =>
            destruct (cg_goto cd x) as [[[] ?]|?]
        end; reflexivity ].
Qed.

Lemma port_input_layout_witness :
  cg_form (slist [Atom "input"; Atom "word"; Atom "5"]) DD_BC CD_NEXT
          init_compiler
  = Ok (tt, with_lines init_compiler
              ["    LD     BC,5"; "    IN     A,(C)"; "    LD     L,A";
               "    INC    BC"; "    IN     A,(C)"; "    LD     H,A";
               "    LD     B,H"; "    LD     C,L"; "    IN     A,(C)";
               "    LD     C,A"; "    INC    BC"; "    IN     A,(C)";
               "    LD     B,A"]).
Proof.
  pose proof (port_input_layout (Atom "5") CD_NEXT init_compiler
                (with_lines init_compiler ["    LD     BC,5"]) eq_refl)
    as (_ & _ & Hbc & _).
  rewrite Hbc. reflexivity.
Defined.

(** Reducing a memory or port form to the runs of its operands. *)
Ltac layout_case :=
  intros;
  rewrite cg_form_not_zflag by assumption;
  unfold cg_form_body, cg_pair, cg_poke, cg_output, cg_peek,
    cdr_car, cdr_cdr_car, cdr_cdr_cdr_car, cdr_cdr_cdr, cdr_cdr,
    cg_push_hl, cg_pop_de;
  unfold with_lines, store_word_lines, output_word_lines, load_word_lines in *;
  cbn -[cg_form cg_goto bind asm];
  repeat match goal with
         | H : is_pair ?a = _ |- _ => rewrite H; clear H
         end;
  cbn -[cg_form cg_goto bind] in *;
  unfold bind, lift;
  repeat (match goal with
          | H : cg_form _ _ _ _ = Ok _ |- _ => rewrite H; clear H
          end; cbn -[cg_form cg_goto]);
  rewrite <- ?app_assoc; reflexivity.

(** [(poke SIZE ADDR DATUM)] and [(output SIZE ADDR DATUM)] store through
    [HL], or send to the port in [BC].  A byte: the address is generated
    first, then the datum into the accumulator.  A word: the datum is
    generated first; into [DE] when the address is an atom, else into [HL]
    and saved on the stack while the address is generated; then the two
    bytes follow, low byte first.  The data destination plays no part. *)
Theorem store_layout {repr : ObjRepr}
        (addr datum : sexp) (dd : ddest) (cd : cdest) (s s1 s2 : compiler) :
  dd <> DD_ZFLAG ->
  let poke size := slist [Atom "poke"; Atom size; addr; datum] in
  let output size := slist [Atom "output"; Atom size; addr; datum] in
  (cg_form addr DD_HL CD_NEXT s = Ok (tt, s1) ->
   cg_form datum DD_A CD_NEXT s1 = Ok (tt, s2) ->
   cg_form (poke "byte") dd cd s
   = cg_goto cd (with_lines s2 ["    LD     (HL),A"]))
  /\ (is_pair addr = false ->
      cg_form datum DD_DE CD_NEXT s = Ok (tt, s1) ->
      cg_form addr DD_HL CD_NEXT s1 = Ok (tt, s2) ->
      cg_form (poke "word") dd cd s
      = cg_goto cd (with_lines s2 store_word_lines))
  /\ (is_pair addr = true ->
      cg_form datum DD_HL CD_NEXT s = Ok (tt, s1) ->
      cg_form addr DD_HL CD_NEXT (with_lines s1 ["    PUSH   HL"])
      = Ok (tt, s2) ->
      cg_form (poke "word") dd cd s
      = cg_goto cd (with_lines s2 ("    POP    DE" :: store_word_lines)))
  /\ (cg_form addr DD_BC CD_NEXT s = Ok (tt, s1) ->
      cg_form datum DD_A CD_NEXT s1 = Ok (tt, s2) ->
      cg_form (output "byte") dd cd s
      = cg_goto cd (with_lines s2 ["    OUT    (C),A"]))
  /\ (is_pair addr = false ->
      cg_form datum DD_DE CD_NEXT s = Ok (tt, s1) ->
      cg_form addr DD_BC CD_NEXT s1 = Ok (tt, s2) ->
      cg_form (output "word") dd cd s
      = cg_goto cd (with_lines s2 output_word_lines))
  /\ (is_pair addr = true ->
      cg_form datum DD_HL CD_NEXT s = Ok (tt, s1) ->
      cg_form addr DD_BC CD_NEXT (with_lines s1 ["    PUSH   HL"])
      = Ok (tt, s2) ->
      cg_form (output "word") dd cd s
      = cg_goto cd (with_lines s2 ("    POP    DE" :: output_word_lines))).
Proof.
  intros Hz poke output. subst poke output. cbn [slist].
  repeat split; layout_case.
Qed.

Lemma store_layout_witness :
  cg_form (slist [Atom "poke"; Atom "word"; Atom "1000"; Atom "7"])
          DD_HL CD_RET init_compiler
  = Ok (tt, with_lines init_compiler
              ["    LD     DE,7"; "    LD     HL,1000"; "    LD     A,E";
               "    LD     (HL),A"; "    INC    HL"; "    LD     A,D";
               "    LD     (HL),A"; "    RET    "]).
Proof.
  pose proof (store_layout (Atom "1000") (Atom "7") DD_HL CD_RET
                init_compiler
                (with_lines init_compiler ["    LD     DE,7"])
                (with_lines init_compiler
                   ["    LD     DE,7"; "    LD     HL,1000"])
                ltac:(discriminate))
    as (_ & Hword & _).
  rewrite (Hword eq_refl eq_refl eq_refl). reflexivity.
Defined.

(** [(peek SIZE ADDR)] loads through a register pair that is not the
    destination: a word for [HL] is loaded through [DE], for every other
    destination through [HL]; a byte always through [HL].  A pair receives
    the low byte first and, for a byte, zero in the high byte; the
    accumulator receives one byte, also when a word is asked for. *)
Theorem load_layout {repr : ObjRepr}
        (addr : sexp) (cd : cdest) (s s1 : compiler) :
  let peek size := slist [Atom "peek"; Atom size; addr] in
  (cg_form addr DD_DE CD_NEXT s = Ok (tt, s1) ->
   cg_form (peek "word") DD_HL cd s
   = cg_goto cd (with_lines s1 (load_word_lines "H" "L" "DE")))
  /\ (cg_form addr DD_HL CD_NEXT s = Ok (tt, s1) ->
      cg_form (peek "word") DD_DE cd s
      = cg_goto cd (with_lines s1 (load_word_lines "D" "E" "HL"))
      /\ cg_form (peek "word") DD_BC cd s
         = cg_goto cd (with_lines s1 (load_word_lines "B" "C" "HL"))
      /\ cg_form (peek "word") DD_A cd s
         = cg_goto cd (with_lines s1 ["    LD     A,(HL)"])
      /\ cg_form (peek "byte") DD_A cd s
         = cg_goto cd (with_lines s1 ["    LD     A,(HL)"])
      /\ cg_form (peek "byte") DD_HL cd s
         = cg_goto cd (with_lines s1 ["    LD     L,(HL)"; "    LD     H,0"])
      /\ cg_form (peek "byte") DD_DE cd s
         = cg_goto cd (with_lines s1 ["    LD     E,(HL)"; "    LD     D,0"])).
Proof.
  intros peek. subst peek. cbn [slist].
  split; [|intros Hrun; repeat split; revert Hrun];
    (assert (Hz : forall d, d = DD_HL \/ d = DD_DE \/ d = DD_BC \/ d = DD_A ->
                            d <> DD_ZFLAG)
      by (intros d [->|[->|[->| ->]]]; discriminate));
    intros Hrun;
    rewrite cg_form_not_zflag by (apply Hz; tauto);
    clear Hz;
    unfold cg_form_body, cg_pair, cg_peek,
      cdr_car, cdr_cdr_car, cdr_cdr;
    unfold with_lines, load_word_lines in *;
    cbn -[cg_form cg_goto bind] in *;
    unfold bind, lift; rewrite Hrun; cbn -[cg_form cg_goto];
    rewrite <- ?app_assoc; reflexivity.
Qed.

Lemma load_layout_witness :
  cg_form (slist [Atom "peek"; Atom "word"; Atom "1000"]) DD_HL CD_RET
          init_compiler
  = Ok (tt, with_lines init_compiler
              ["    LD     DE,1000"; "    LD     L,(DE)"; "    INC    DE";
               "    LD     H,(DE)"; "    RET    "]).
Proof.
  pose proof (load_layout (Atom "1000") CD_RET init_compiler
                (with_lines init_compiler ["    LD     DE,1000"]))
    as (Hword & _).
  rewrite (Hword eq_refl). reflexivity.
Defined.
